(** * Dark event graph analysis: a shallow embedding of [data_analyser.py]

    The development follows the Python module function by function.
    Data frames are lists of typed rows in input order, Python dictionaries
    are insertion-ordered association lists, and the [networkx.DiGraph]
    built by [create_graph] is a record of its node dictionary and of its
    adjacency dictionary.  Exceptions and the progressive writing of the
    report file are threaded through a small state-and-error monad.
    Centralities are computed in exact rational arithmetic; the degree
    centrality is given in double precision as well. *)

From Stdlib Require Import String Ascii.
From Stdlib Require Import List ZArith QArith Bool Arith Lia.
From Stdlib Require Import Permutation Sorted.
From Stdlib Require Import Floats.
Import ListNotations.

Local Open Scope Z_scope.

(* ===================================================================== *)
(** ** Insertion-ordered dictionaries *)
(* ===================================================================== *)

(** A Python [dict] remembers the order in which keys were first inserted;
    assigning to an existing key keeps the key where it is. *)
Section Dict.
Context {K V : Type}.
Variable eqb : K -> K -> bool.

Definition dict := list (K * V).

Definition keys (d : dict) : list K := map fst d.

Fixpoint dict_get (d : dict) (k : K) : option V :=
  match d with
  | [] => None
  | (k', v) :: r => if eqb k k' then Some v else dict_get r k
  end.

Definition dict_mem (d : dict) (k : K) : bool :=
  existsb (eqb k) (keys d).

(** [d[k] = v] *)
Fixpoint dict_set (d : dict) (k : K) (v : V) : dict :=
  match d with
  | [] => [(k, v)]
  | (k', v') :: r =>
      if eqb k k' then (k, v) :: r else (k', v') :: dict_set r k v
  end.

(** [if k not in d: d[k] = v] *)
Definition dict_setdefault (d : dict) (k : K) (v : V) : dict :=
  if dict_mem d k then d else d ++ [(k, v)].

End Dict.

Arguments dict K V : clear implicits.

(** The step of growing a key list used by both dictionaries of the graph:
    a key already present stays in place, a new key goes to the end. *)
Section Touch.
Context {K : Type}.
Variable eqb : K -> K -> bool.

Definition touch (l : list K) (k : K) : list K :=
  if existsb (eqb k) l then l else l ++ [k].
End Touch.

(* ===================================================================== *)
(** ** The rows of the two tables *)
(* ===================================================================== *)

(** Event identifiers are integers.  A cell that [read_csv] found empty
    holds NaN, written [None]. *)
Definition node := Z.

(** The [Date] column holds the text read from the file until
    [analyze_temporal_patterns] replaces it by parsed timestamps. *)
Inductive date_cell :=
| NaT
| DateStr (s : string)
| Timestamp (year month day : Z).

(** One row of [Dark_Events.csv]. *)
Record event_row := mkEvent {
  ID : node;
  Description : option string;
  Date : date_cell;
  Important_Trigger : option bool;
  Death : option bool;
  Characters : option string;
  World : option string
}.

(** One row of [Dark_Edges.csv]; [Type_] is the column [Type]. *)
Record edge_row := mkEdge {
  Source : option node;
  Target : option node;
  Type_ : option string;
  Edge_Description : option string
}.

Definition events_df := list event_row.
Definition edges_df := list edge_row.

(** [pd.notna] *)
Definition notna {A} (c : option A) : bool :=
  match c with Some _ => true | None => false end.

(* ===================================================================== *)
(** ** [networkx.DiGraph] *)
(* ===================================================================== *)

(** The keyword attributes [create_graph] attaches to a node. *)
Record node_attrs := mkNodeAttrs {
  description : option string;
  date : date_cell;
  important_trigger : option bool;
  death : option bool;
  characters : option string;
  world : option string
}.

(** The keyword attributes [create_graph] attaches to an edge. *)
Record edge_attrs := mkEdgeAttrs {
  edge_type : option string;
  edge_description : option string
}.

Definition pair_eqb (p q : node * node) : bool :=
  Z.eqb (fst p) (fst q) && Z.eqb (snd p) (snd q).

Definition pair_eq_dec (p q : node * node) : {p = q} + {p <> q}.
Proof. decide equality; apply Z.eq_dec. Defined.

(** A directed graph without parallel edges.  [G_node] is networkx's
    [_node]: the attribute dictionary of every node, in insertion order; a
    node that [add_edge] had to create has the empty attribute dictionary,
    written [None].  [G_adj] is the adjacency [_adj], flattened: the
    attribute dictionary of every ordered pair [(u, v)], in the order the
    pairs were first added, so that the successors of [u] are met in the
    order of [_adj[u]] and the predecessors of [v] in that of [_pred[v]]. *)
Record DiGraph := mkDiGraph {
  G_node : dict node (option node_attrs);
  G_adj : dict (node * node) edge_attrs
}.

(** [nx.DiGraph()] *)
Definition empty_graph : DiGraph := {| G_node := []; G_adj := [] |}.

(** [G.add_node(n, **attr)]: a new node is appended; for a node that
    exists, [_node[n].update(attr)] replaces the six attributes. *)
Definition add_node (G : DiGraph) (n : node) (attr : node_attrs) : DiGraph :=
  {| G_node := dict_set Z.eqb (G_node G) n (Some attr);
     G_adj := G_adj G |}.

(** [G.add_edge(u, v, **attr)]: both endpoints are created when they are
    not nodes yet; the pair's attribute dictionary is created or updated. *)
Definition add_edge (G : DiGraph) (u v : node) (attr : edge_attrs) : DiGraph :=
  {| G_node :=
       dict_setdefault Z.eqb (dict_setdefault Z.eqb (G_node G) u None) v None;
     G_adj := dict_set pair_eqb (G_adj G) (u, v) attr |}.

(** [G.nodes()], [G.edges()] *)
Definition nodes (G : DiGraph) : list node := keys (G_node G).
Definition edges (G : DiGraph) : list (node * node) := keys (G_adj G).

Definition number_of_nodes (G : DiGraph) : nat := length (nodes G).
Definition number_of_edges (G : DiGraph) : nat := length (edges G).

Definition has_node (G : DiGraph) (n : node) : bool :=
  dict_mem Z.eqb (G_node G) n.
Definition has_edge (G : DiGraph) (u v : node) : bool :=
  dict_mem pair_eqb (G_adj G) (u, v).

(** [G[v]], [G.pred[v]] *)
Definition successors (G : DiGraph) (v : node) : list node :=
  map snd (filter (fun e => Z.eqb (fst e) v) (edges G)).
Definition predecessors (G : DiGraph) (v : node) : list node :=
  map fst (filter (fun e => Z.eqb (snd e) v) (edges G)).

Definition out_degree (G : DiGraph) (v : node) : nat := length (successors G v).
Definition in_degree (G : DiGraph) (v : node) : nat := length (predecessors G v).

(* ===================================================================== *)
(** ** [create_graph] *)
(* ===================================================================== *)

Definition event_attrs (event : event_row) : node_attrs :=
  {| description := Description event;
     date := Date event;
     important_trigger := Important_Trigger event;
     death := Death event;
     characters := Characters event;
     world := World event |}.

Definition edge_row_attrs (edge : edge_row) : edge_attrs :=
  {| edge_type := Type_ edge;
     edge_description := Edge_Description edge |}.

(** The body of the first loop. *)
Definition add_event (G : DiGraph) (event : event_row) : DiGraph :=
  add_node G (ID event) (event_attrs event).

(** The body of the second loop, with its guard
    [pd.notna(edge['Source']) and pd.notna(edge['Target'])]. *)
Definition add_edge_row (G : DiGraph) (edge : edge_row) : DiGraph :=
  match Source edge, Target edge with
  | Some u, Some v => add_edge G u v (edge_row_attrs edge)
  | _, _ => G
  end.

Definition create_graph (events : events_df) (rows : edges_df) : DiGraph :=
  fold_left add_edge_row rows (fold_left add_event events empty_graph).

(** *** What the loops see of the input *)

(** The rows that pass the guard of the second loop, and those that do not. *)
Definition complete (edge : edge_row) : bool :=
  notna (Source edge) && notna (Target edge).

Definition inserted_rows (rows : edges_df) : edges_df := filter complete rows.
Definition skipped_rows (rows : edges_df) : edges_df :=
  filter (fun e => negb (complete e)) rows.

(** The ordered pair and the two endpoints of a row that passes the guard. *)
Definition row_pair (edge : edge_row) : list (node * node) :=
  match Source edge, Target edge with
  | Some u, Some v => [(u, v)]
  | _, _ => []
  end.

Definition row_endpoints (edge : edge_row) : list node :=
  match Source edge, Target edge with
  | Some u, Some v => [u; v]
  | _, _ => []
  end.

Definition linked_pairs (rows : edges_df) : list (node * node) :=
  flat_map row_pair rows.
Definition endpoints (rows : edges_df) : list node :=
  flat_map row_endpoints rows.

(** *** The reading of the specification, for comparison *)

Definition distinct_identifiers (events : events_df) : list node :=
  nodup Z.eq_dec (map ID events).

Definition is_identifier (events : events_df) (c : option node) : bool :=
  match c with
  | Some n => existsb (Z.eqb n) (map ID events)
  | None => false
  end.

(** The edge rows whose source and target both name an event. *)
Definition resolved_rows (events : events_df) (rows : edges_df) : edges_df :=
  filter (fun e => is_identifier events (Source e)
                   && is_identifier events (Target e)) rows.

(** The edge rows with an endpoint that names no event. *)
Definition unresolved_rows (events : events_df) (rows : edges_df) : edges_df :=
  filter (fun e => negb (is_identifier events (Source e)
                         && is_identifier events (Target e))) rows.

(* ===================================================================== *)
(** ** Reading the attributes of the built graph *)
(* ===================================================================== *)

(** [G.nodes[n]] and [G.edges[u, v]], [None] when the key is absent. *)
Definition node_attr (G : DiGraph) (n : node) : option (option node_attrs) :=
  dict_get Z.eqb (G_node G) n.
Definition edge_attr (G : DiGraph) (u v : node) : option edge_attrs :=
  dict_get pair_eqb (G_adj G) (u, v).

(** The last event row with identifier [n], and the last edge row that
    passes the guard with the ordered pair [(u, v)]. *)
Definition last_event (events : events_df) (n : node) : option event_row :=
  find (fun e => Z.eqb (ID e) n) (rev events).

Definition joins (u v : node) (e : edge_row) : bool :=
  match Source e, Target e with
  | Some a, Some b => Z.eqb a u && Z.eqb b v
  | _, _ => false
  end.

Definition last_row (rows : edges_df) (u v : node) : option edge_row :=
  find (joins u v) (rev rows).

(* ===================================================================== *)
(** ** Python's [sorted], [Counter] and pandas' [value_counts] *)
(* ===================================================================== *)

Section Sorting.
Context {A : Type}.
(** [lt x y]: the sort key of [x] is smaller than the sort key of [y]. *)
Variable lt : A -> A -> bool.

(** [sorted(l, key=...)]: stable, ascending. *)
Fixpoint insert_asc (x : A) (l : list A) : list A :=
  match l with
  | [] => [x]
  | y :: r => if lt y x then y :: insert_asc x r else x :: y :: r
  end.

Definition sorted (l : list A) : list A := fold_right insert_asc [] l.

(** [sorted(l, key=..., reverse=True)]: stable, descending; elements with
    equal keys keep the order they have in [l]. *)
Fixpoint insert_desc (x : A) (l : list A) : list A :=
  match l with
  | [] => [x]
  | y :: r => if lt x y then y :: insert_desc x r else x :: y :: r
  end.

Definition sorted_reverse (l : list A) : list A := fold_right insert_desc [] l.
End Sorting.

Section Counting.
Context {K : Type}.
Variable eqb : K -> K -> bool.

(** [counts[k] += 1], the key being created with count 1 when it is new. *)
Fixpoint count_one (counts : dict K nat) (k : K) : dict K nat :=
  match counts with
  | [] => [(k, 1%nat)]
  | (k', c) :: r =>
      if eqb k k' then (k', S c) :: r else (k', c) :: count_one r k
  end.

(** [Counter(l)]: the multiplicity of every element, in first-seen order. *)
Definition Counter (l : list K) : dict K nat := fold_left count_one l [].

Definition count_lt (a b : K * nat) : bool := Nat.ltb (snd a) (snd b).

(** [Counter.most_common(n)] *)
Definition most_common (n : nat) (counts : dict K nat) : dict K nat :=
  firstn n (sorted_reverse count_lt counts).

(** [dropna] *)
Fixpoint dropna (column : list (option K)) : list K :=
  match column with
  | [] => []
  | Some k :: r => k :: dropna r
  | None :: r => dropna r
  end.

(** [Series.value_counts()]: missing values are dropped, the counts come
    in descending order. *)
Definition value_counts (column : list (option K)) : dict K nat :=
  sorted_reverse count_lt (Counter (dropna column)).
End Counting.

(** [Series.sort_index()] of a series indexed by integers. *)
Definition sort_index {V} (s : dict Z V) : dict Z V :=
  sorted (fun a b => Z.ltb (fst a) (fst b)) s.

(** [series.get(key, 0)] *)
Definition get_count {K} (eqb : K -> K -> bool) (s : dict K nat) (k : K) : nat :=
  match dict_get eqb s k with Some c => c | None => 0%nat end.

(* ===================================================================== *)
(** ** Strings *)
(* ===================================================================== *)

(** [s.split(sep)] for a one-character separator. *)
Fixpoint split (sep : ascii) (s : string) : list string :=
  match s with
  | EmptyString => [EmptyString]
  | String c r =>
      if Ascii.eqb c sep then EmptyString :: split sep r
      else match split sep r with
           | h :: t => String c h :: t
           | [] => [String c EmptyString]
           end
  end.

(** The ASCII characters that [str.strip] removes. *)
Definition is_space (c : ascii) : bool :=
  let n := nat_of_ascii c in
  ((9 <=? n) && (n <=? 13) || (28 <=? n) && (n <=? 32))%nat.

Fixpoint lstrip_chars (l : list ascii) : list ascii :=
  match l with
  | c :: r => if is_space c then lstrip_chars r else l
  | [] => []
  end.

(** [s.strip()] *)
Definition strip (s : string) : string :=
  string_of_list_ascii
    (rev (lstrip_chars (rev (lstrip_chars (list_ascii_of_string s))))).

Definition is_digit (c : ascii) : bool :=
  let n := nat_of_ascii c in ((48 <=? n) && (n <=? 57))%nat.

Definition digit_value (c : ascii) : Z := Z.of_nat (nat_of_ascii c) - 48.

(* ===================================================================== *)
(** ** [pd.to_datetime(column, format='%d-%m-%Y')] *)
(* ===================================================================== *)

(** The directives of the format, as the regular expressions that
    [strptime] builds for them read a token: [%d] is one digit from 1 to
    9, optionally after a space, or two digits from 01 to 31; [%m] is one
    digit from 1 to 9 or two digits from 01 to 12; [%Y] is four digits. *)
Definition directive_d (token : string) : option Z :=
  match list_ascii_of_string token with
  | [c] =>
      if is_digit c && (1 <=? digit_value c) then Some (digit_value c) else None
  | [c1; c2] =>
      if Ascii.eqb c1 " " then
        if is_digit c2 && (1 <=? digit_value c2) then Some (digit_value c2)
        else None
      else
        let v := 10 * digit_value c1 + digit_value c2 in
        if is_digit c1 && is_digit c2 && (1 <=? v) && (v <=? 31)
        then Some v else None
  | _ => None
  end.

Definition directive_m (token : string) : option Z :=
  match list_ascii_of_string token with
  | [c] =>
      if is_digit c && (1 <=? digit_value c) then Some (digit_value c) else None
  | [c1; c2] =>
      let v := 10 * digit_value c1 + digit_value c2 in
      if is_digit c1 && is_digit c2 && (1 <=? v) && (v <=? 12)
      then Some v else None
  | _ => None
  end.

Definition directive_Y (token : string) : option Z :=
  match list_ascii_of_string token with
  | [c1; c2; c3; c4] =>
      if is_digit c1 && is_digit c2 && is_digit c3 && is_digit c4
      then Some (1000 * digit_value c1 + 100 * digit_value c2
                 + 10 * digit_value c3 + digit_value c4)
      else None
  | _ => None
  end.

Definition is_leap (year : Z) : bool :=
  (year mod 4 =? 0) && (negb (year mod 100 =? 0) || (year mod 400 =? 0)).

Definition days_in_month (year month : Z) : Z :=
  if month =? 2 then (if is_leap year then 29 else 28)
  else if (month =? 4) || (month =? 6) || (month =? 9) || (month =? 11)
       then 30 else 31.

(** The text of a cell parsed with the format [%d-%m-%Y]; [None] when the
    text does not match the format or names no day of the calendar.  The
    three tokens are what the two dashes separate, and the whole text has
    to be consumed.  The range of years a timestamp can hold is not part
    of the model. *)
Definition strptime (text : string) : option date_cell :=
  match split "-" text with
  | [d; m; y] =>
      match directive_d d, directive_m m, directive_Y y with
      | Some day, Some month, Some year =>
          if (1 <=? year) && (day <=? days_in_month year month)
          then Some (Timestamp year month day) else None
      | _, _, _ => None
      end
  | _ => None
  end.

(** The texts that [to_datetime] reads as a missing date. *)
Definition is_nat_string (text : string) : bool :=
  existsb (String.eqb text)
          [""; "NaT"; "nat"; "NAT"; "nan"; "NaN"; "NAN"]%string.

(** What [to_datetime] makes of one cell: a missing value stays missing, a
    text is parsed, a timestamp is kept.  [None] stands for the
    [ValueError] raised for a text that cannot be parsed. *)
Definition to_datetime_cell (c : date_cell) : option date_cell :=
  match c with
  | NaT => Some NaT
  | Timestamp y m d => Some (Timestamp y m d)
  | DateStr text => if is_nat_string text then Some NaT else strptime text
  end.

(** The exceptions the run can meet. *)
Inductive exn :=
| ValueError_time_data (position : nat)
| ValueError_max_empty.

(** [to_datetime] over a column, from row [position] on: the parsed
    column, or the error naming the position of the first text that
    cannot be parsed (the default [errors='raise']). *)
Fixpoint to_datetime_from (position : nat) (column : list date_cell)
  : list date_cell + exn :=
  match column with
  | [] => inl []
  | c :: r =>
      match to_datetime_cell c with
      | None => inr (ValueError_time_data position)
      | Some c' =>
          match to_datetime_from (S position) r with
          | inl r' => inl (c' :: r')
          | inr e => inr e
          end
      end
  end.

Definition to_datetime (column : list date_cell) : list date_cell + exn :=
  to_datetime_from 0 column.

(** [events_df['Date'] = column], for a column as long as the frame. *)
Definition set_Date (event : event_row) (c : date_cell) : event_row :=
  {| ID := ID event;
     Description := Description event;
     Date := c;
     Important_Trigger := Important_Trigger event;
     Death := Death event;
     Characters := Characters event;
     World := World event |}.

Fixpoint assign_Date (events : events_df) (column : list date_cell) : events_df :=
  match events, column with
  | e :: r, c :: cs => set_Date e c :: assign_Date r cs
  | _, _ => events
  end.

(** [.dt.year] of a datetime cell; NaN for a missing date. *)
Definition dt_year (c : date_cell) : option Z :=
  match c with
  | Timestamp y _ _ => Some y
  | _ => None
  end.

(* ===================================================================== *)
(** ** The run: the events frame, the report file, exceptions *)
(* ===================================================================== *)

(** One constructor per [report_file.write] of the module. *)
Inductive line :=
| Title
| Rule
| Worlds_header
| World_count (world : string) (count : nat)
| Temporal_header
| Year_count (year : Z) (count : nat)
| Time_span (years : Z)
| Characters_header
| Character_count (character : string) (count : nat)
| Important_header
| Trigger_count (count : nat)
| Death_count (count : nat)
| Structure_header
| Node_count (count : nat)
| Edge_count (count : nat)
| Central_header
| Central_event (node_id : node) (centrality : Q)
| Dead_end_count (count : nat)
| Loop_count (count : nat)
| Notable_header
| Loop (i : nat) (cycle : list node)
| Longest_chain (events : nat)
| Path (path : list node)
| Component_count (count : nat)
| Largest_component (size : nat).

(** What the functions of the module share: the [events_df] object that
    [main] hands to every analyzer, and the lines written to the report
    file so far.  Lines written before an exception stay written. *)
Record run_state := mkState {
  frame : events_df;
  report_file : list line
}.

Definition M (A : Type) : Type := run_state -> (A + exn) * run_state.

Definition ret {A} (a : A) : M A := fun s => (inl a, s).

Definition bind {A B} (m : M A) (k : A -> M B) : M B :=
  fun s => match m s with
           | (inl a, s') => k a s'
           | (inr e, s') => (inr e, s')
           end.

Definition raise {A} (e : exn) : M A := fun s => (inr e, s).

Definition write (l : line) : M unit :=
  fun s => (inl tt, {| frame := frame s; report_file := report_file s ++ [l] |}).

Definition get_frame : M events_df := fun s => (inl (frame s), s).

Definition put_frame (events : events_df) : M unit :=
  fun s => (inl tt, {| frame := events; report_file := report_file s |}).

Declare Scope run_scope.
Delimit Scope run_scope with run.
Notation "x <- m ;; k" := (bind m (fun x => k))
  (at level 61, m at next level, right associativity) : run_scope.
Notation "m ;; k" := (bind m (fun _ => k))
  (at level 61, right associativity) : run_scope.
Local Open Scope run_scope.

(** [for x in l: body(x)] *)
Fixpoint for_each {A} (l : list A) (body : A -> M unit) : M unit :=
  match l with
  | [] => ret tt
  | x :: r => body x ;; for_each r body
  end.

(** [lift] turns the outcome of a library call into a step of the run. *)
Definition lift {A} (r : A + exn) : M A :=
  match r with inl a => ret a | inr e => raise e end.

(* ===================================================================== *)
(** ** The distribution analyzers *)
(* ===================================================================== *)

Definition analyze_worlds : M unit :=
  df <- get_frame ;;
  let world_counts := value_counts String.eqb (map World df) in
  write Worlds_header ;;
  for_each world_counts (fun '(world, count) => write (World_count world count)).

Definition analyze_temporal_patterns : M unit :=
  df <- get_frame ;;
  column <- lift (to_datetime (map Date df)) ;;
  put_frame (assign_Date df column) ;;
  df <- get_frame ;;
  let years := sort_index (value_counts Z.eqb (map dt_year (map Date df))) in
  write Temporal_header ;;
  for_each years (fun '(year, count) => write (Year_count year count)) ;;
  if (1 <? length years)%nat then
    let index := keys years in
    let time_span := fold_right Z.max (hd 0 index) index
                     - fold_right Z.min (hd 0 index) index in
    write (Time_span time_span)
  else ret tt.

Definition analyze_character_involvement : M unit :=
  df <- get_frame ;;
  let all_characters :=
    flat_map (fun chars => map strip (split "," chars))
             (dropna (map Characters df)) in
  let char_counts := Counter String.eqb all_characters in
  write Characters_header ;;
  for_each (most_common 10 char_counts)
           (fun '(char, count) => write (Character_count char count)).

Definition analyze_important_events : M unit :=
  df <- get_frame ;;
  let trigger_count := value_counts Bool.eqb (map Important_Trigger df) in
  let death_count := value_counts Bool.eqb (map Death df) in
  write Important_header ;;
  write (Trigger_count (get_count Bool.eqb trigger_count true)) ;;
  write (Death_count (get_count Bool.eqb death_count true)).

(* ===================================================================== *)
(** ** networkx: degree and betweenness centrality *)
(* ===================================================================== *)

(** Centralities are Python floats; the model computes them as exact
    rationals. *)
Definition Qltb (x y : Q) : bool := negb (Qle_bool y x).

Definition Q_of_nat (n : nat) : Q := inject_Z (Z.of_nat n).

(** [d[k]] for a key that the algorithm has put into [d] before; the
    default stands for the [KeyError] that cannot occur there. *)
Definition lookup {V} (d : dict node V) (k : node) (default : V) : V :=
  match dict_get Z.eqb d k with Some v => v | None => default end.

(** [nx.in_degree_centrality], [nx.out_degree_centrality] *)
Definition degree_centrality (degree : node -> nat) (G : DiGraph) : dict node Q :=
  if (number_of_nodes G <=? 1)%nat then map (fun n => (n, 1%Q)) (nodes G)
  else
    let s := (1 / (Q_of_nat (number_of_nodes G) - 1))%Q in
    map (fun n => (n, (Q_of_nat (degree n) * s)%Q)) (nodes G).

Definition in_degree_centrality (G : DiGraph) : dict node Q :=
  degree_centrality (in_degree G) G.
Definition out_degree_centrality (G : DiGraph) : dict node Q :=
  degree_centrality (out_degree G) G.

(** The variables of [_single_source_shortest_path_basic]. *)
Record bfs := mkBfs {
  bfs_S : list node;
  bfs_P : dict node (list node);
  bfs_sigma : dict node Q;
  bfs_D : dict node nat;
  bfs_Q : list node
}.

(** The body of [for w in G[v]]. *)
Definition bfs_visit (v : node) (Dv : nat) (sigmav : Q) (st : bfs) (w : node)
  : bfs :=
  let st1 :=
    if dict_mem Z.eqb (bfs_D st) w then st
    else {| bfs_S := bfs_S st; bfs_P := bfs_P st; bfs_sigma := bfs_sigma st;
            bfs_D := dict_set Z.eqb (bfs_D st) w (S Dv);
            bfs_Q := bfs_Q st ++ [w] |} in
  if (lookup (bfs_D st1) w 0 =? S Dv)%nat then
    {| bfs_S := bfs_S st1;
       bfs_P := dict_set Z.eqb (bfs_P st1) w (lookup (bfs_P st1) w [] ++ [v]);
       bfs_sigma :=
         dict_set Z.eqb (bfs_sigma st1) w
                  (lookup (bfs_sigma st1) w 0 + sigmav)%Q;
       bfs_D := bfs_D st1;
       bfs_Q := bfs_Q st1 |}
  else st1.

(** [while Q]; every node enters the queue at most once, so the number of
    nodes bounds the number of turns. *)
Fixpoint bfs_loop (fuel : nat) (G : DiGraph) (st : bfs) : bfs :=
  match fuel with
  | O => st
  | S fuel' =>
      match bfs_Q st with
      | [] => st
      | v :: q =>
          let Dv := lookup (bfs_D st) v 0%nat in
          let sigmav := lookup (bfs_sigma st) v 0%Q in
          let st0 := {| bfs_S := bfs_S st ++ [v]; bfs_P := bfs_P st;
                        bfs_sigma := bfs_sigma st; bfs_D := bfs_D st;
                        bfs_Q := q |} in
          bfs_loop fuel' G (fold_left (bfs_visit v Dv sigmav) (successors G v) st0)
      end
  end.

Definition single_source_shortest_path_basic (G : DiGraph) (s : node) : bfs :=
  bfs_loop (number_of_nodes G) G
    {| bfs_S := [];
       bfs_P := map (fun v => (v, [])) (nodes G);
       bfs_sigma := dict_set Z.eqb (map (fun v => (v, 0%Q)) (nodes G)) s 1%Q;
       bfs_D := [(s, 0%nat)];
       bfs_Q := [s] |}.

(** [_accumulate_basic]: the nodes of [S] are taken from its end. *)
Definition accumulate_step (P : dict node (list node)) (sigma : dict node Q)
           (s : node) (acc : dict node Q * dict node Q) (w : node)
  : dict node Q * dict node Q :=
  let '(betweenness, delta) := acc in
  let coeff := ((1 + lookup delta w 0) / lookup sigma w 0)%Q in
  let delta :=
    fold_left (fun delta v =>
                 dict_set Z.eqb delta v
                          (lookup delta v 0 + lookup sigma v 0 * coeff)%Q)
              (lookup P w []) delta in
  if Z.eqb w s then (betweenness, delta)
  else (dict_set Z.eqb betweenness w
                 (lookup betweenness w 0 + lookup delta w 0)%Q, delta).

Definition accumulate_basic (betweenness : dict node Q) (st : bfs) (s : node)
  : dict node Q :=
  fst (fold_left (accumulate_step (bfs_P st) (bfs_sigma st) s)
                 (rev (bfs_S st))
                 (betweenness, map (fun v => (v, 0%Q)) (bfs_S st))).

(** [_rescale] with [normalized=True], [directed=True], [k=None],
    [endpoints=False]. *)
Definition rescale (betweenness : dict node Q) (n : nat) : dict node Q :=
  if (n <=? 2)%nat then betweenness
  else
    let scale := (1 / ((Q_of_nat n - 1) * (Q_of_nat n - 2)))%Q in
    map (fun '(v, b) => (v, (b * scale)%Q)) betweenness.

(** [nx.betweenness_centrality(G)] *)
Definition betweenness_centrality (G : DiGraph) : dict node Q :=
  let betweenness :=
    fold_left (fun betweenness s =>
                 accumulate_basic betweenness
                                  (single_source_shortest_path_basic G s) s)
              (nodes G)
              (map (fun v => (v, 0%Q)) (nodes G)) in
  rescale betweenness (number_of_nodes G).

(** [sorted(betweenness.items(), key=lambda x: x[1], reverse=True)[:5]] *)
Definition centrality_lt (a b : node * Q) : bool := Qltb (snd a) (snd b).

Definition top_central (G : DiGraph) : list (node * Q) :=
  firstn 5 (sorted_reverse centrality_lt (betweenness_centrality G)).

(** [[n for n in G.nodes() if G.out_degree(n) == 0]] *)
Definition dead_ends (G : DiGraph) : list node :=
  filter (fun n => (out_degree G n =? 0)%nat) (nodes G).

(* ===================================================================== *)
(** ** networkx: cycles, topological order, longest path, components *)
(* ===================================================================== *)

Definition mem (n : node) (l : list node) : bool := existsb (Z.eqb n) l.

(** The first part of [nx.simple_cycles]:
    [([v] for v, Gv in G.adj.items() if v in Gv)]. *)
Definition self_loop_cycles (G : DiGraph) : list (list node) :=
  map (fun v => [v]) (filter (fun v => has_edge G v v) (nodes G)).

(** The rest of [nx.simple_cycles] searches the graph without its
    self-loops for the elementary circuits of two nodes and more.  The
    model enumerates each of them once, from its first node in the order
    of [G.nodes()], by a depth-first search that never enters a node
    before that one; the order in which networkx meets them is not
    modelled. *)
Fixpoint circuits_from (fuel : nat) (G : DiGraph) (allowed : list node)
         (start : node) (path_rev : list node) (v : node) : list (list node) :=
  match fuel with
  | O => []
  | S fuel' =>
      flat_map
        (fun w =>
           if Z.eqb w v then []
           else if Z.eqb w start then [rev path_rev]
           else if mem w allowed && negb (mem w path_rev)
                then circuits_from fuel' G allowed start (w :: path_rev) w
                else [])
        (successors G v)
  end.

Fixpoint circuits_in (G : DiGraph) (remaining : list node) : list (list node) :=
  match remaining with
  | [] => []
  | s :: rest =>
      circuits_from (length remaining) G rest s [s] s ++ circuits_in G rest
  end.

(** [nx.simple_cycles(G)] *)
Definition simple_cycles (G : DiGraph) : list (list node) :=
  self_loop_cycles G ++ circuits_in G (nodes G).

(** [del d[k]] *)
Fixpoint dict_remove {V} (d : dict node V) (k : node) : dict node V :=
  match d with
  | [] => []
  | (k', v) :: r => if Z.eqb k k' then r else (k', v) :: dict_remove r k
  end.

(** What [nx.topological_sort] comes to: the order, or the
    [NetworkXUnfeasible] it raises on a cycle.  [Out_of_fuel] is the
    model's own and never the outcome (see [topological_sort_terminates]). *)
Inductive topo_result :=
| Topo_order (order : list node)
| Unfeasible
| Out_of_fuel.

(** The body of [for child in G.neighbors(node)] in
    [topological_generations]: the count of [child] goes down by one, and
    a child whose count reaches zero joins the next generation.  A child
    without a count would be networkx's "graph changed during iteration",
    which does not occur. *)
Definition release (st : dict node nat * list node) (child : node)
  : dict node nat * list node :=
  let '(indegree_map, zero_indegree) := st in
  match dict_get Z.eqb indegree_map child with
  | None => st
  | Some d =>
      if (d - 1 =? 0)%nat
      then (dict_remove indegree_map child, zero_indegree ++ [child])
      else (dict_set Z.eqb indegree_map child (d - 1)%nat, zero_indegree)
  end.

Definition next_generation (G : DiGraph) (indegree_map : dict node nat)
           (this_generation : list node) : dict node nat * list node :=
  fold_left (fun st node => fold_left release (successors G node) st)
            this_generation (indegree_map, []).

(** [while zero_indegree] *)
Fixpoint generations (fuel : nat) (G : DiGraph) (indegree_map : dict node nat)
         (zero_indegree : list node) : topo_result :=
  match zero_indegree with
  | [] => match indegree_map with [] => Topo_order [] | _ => Unfeasible end
  | _ =>
      match fuel with
      | O => Out_of_fuel
      | S fuel' =>
          let '(indegree_map', zero_indegree') :=
            next_generation G indegree_map zero_indegree in
          match generations fuel' G indegree_map' zero_indegree' with
          | Topo_order order => Topo_order (zero_indegree ++ order)
          | r => r
          end
      end
  end.

Definition topological_sort (G : DiGraph) : topo_result :=
  let degrees := map (fun v => (v, in_degree G v)) (nodes G) in
  generations (S (number_of_nodes G)) G
    (filter (fun vd => (0 <? snd vd)%nat) degrees)
    (keys (filter (fun vd => (snd vd =? 0)%nat) degrees)).

(** [nx.is_directed_acyclic_graph(G)]: the topological sort does not raise. *)
Definition is_directed_acyclic_graph (G : DiGraph) : bool :=
  match topological_sort G with Topo_order _ => true | _ => false end.

(** [max(x :: r, key=key)]: the first of the largest elements. *)
Definition max_by {A} (key : A -> nat) (x : A) (r : list A) : A :=
  fold_left (fun best y => if (key best <? key y)%nat then y else best) r x.

(** The body of [for v in topo_order] in [nx.dag_longest_path]; every
    edge has the default weight 1. *)
Definition longest_to (G : DiGraph) (dist : dict node (nat * node)) (v : node)
  : dict node (nat * node) :=
  let us := map (fun u => (S (fst (lookup dist u (0%nat, u))), u))
                (predecessors G v) in
  let maxu := match us with
              | [] => (0%nat, v)
              | x :: r => max_by fst x r
              end in
  dict_set Z.eqb dist v maxu.

(** [while u != v: path.append(v); u = v; v = dist[v][1]] *)
Fixpoint walk_back (fuel : nat) (dist : dict node (nat * node))
         (u : option node) (v : node) (path : list node) : list node :=
  match fuel with
  | O => path
  | S fuel' =>
      if match u with Some u' => Z.eqb u' v | None => false end then path
      else walk_back fuel' dist (Some v) (snd (lookup dist v (0%nat, v)))
                     (path ++ [v])
  end.

(** [nx.dag_longest_path(G)], called on acyclic graphs only. *)
Definition dag_longest_path (G : DiGraph) : list node :=
  match nodes G with
  | [] => []
  | _ =>
      match topological_sort G with
      | Topo_order topo_order =>
          let dist := fold_left (longest_to G) topo_order [] in
          match keys dist with
          | [] => []
          | x :: r =>
              let v := max_by (fun x => fst (lookup dist x (0%nat, x))) x r in
              rev (walk_back (S (number_of_nodes G)) dist None v [])
          end
      | _ => []
      end
  end.

(** The nodes that a walk from [seen] reaches in at most [fuel] steps. *)
Fixpoint reachable (fuel : nat) (G : DiGraph) (seen : list node) : list node :=
  match fuel with
  | O => seen
  | S fuel' =>
      reachable fuel' G
                (fold_left (touch Z.eqb) (flat_map (successors G) seen) seen)
  end.

Definition reaches (G : DiGraph) (u v : node) : bool :=
  mem v (reachable (number_of_nodes G) G [u]).

(** [nx.strongly_connected_components(G)], as the partition it computes:
    the component of a node is the set of nodes that it reaches and that
    reach it.  The order of the components is not modelled. *)
Definition strongly_connected_components (G : DiGraph) : list (list node) :=
  fold_left
    (fun components v =>
       if existsb (mem v) components then components
       else components ++
            [filter (fun w => reaches G v w && reaches G w v) (nodes G)])
    (nodes G) [].

(* ===================================================================== *)
(** ** [analyze_graph_structure] and [main] *)
(* ===================================================================== *)

(** [enumerate(l, i)] *)
Fixpoint enumerate {A} (i : nat) (l : list A) : list (nat * A) :=
  match l with
  | [] => []
  | x :: r => (i, x) :: enumerate (S i) r
  end.

(** [nx.dag_longest_path(G) if nx.is_directed_acyclic_graph(G) else None] *)
Definition longest_path (G : DiGraph) : option (list node) :=
  if is_directed_acyclic_graph G then Some (dag_longest_path G) else None.

Definition analyze_graph_structure (G : DiGraph) : M unit :=
  write Structure_header ;;
  write (Node_count (number_of_nodes G)) ;;
  write (Edge_count (number_of_edges G)) ;;
  let in_degree := in_degree_centrality G in
  let out_degree := out_degree_centrality G in
  let betweenness := betweenness_centrality G in
  write Central_header ;;
  let top_central :=
    firstn 5 (sorted_reverse centrality_lt betweenness) in
  for_each top_central
           (fun '(node_id, centrality) => write (Central_event node_id centrality)) ;;
  write (Dead_end_count (length (dead_ends G))) ;;
  let cycles := simple_cycles G in
  write (Loop_count (length cycles)) ;;
  match cycles with
  | [] => ret tt
  | _ =>
      write Notable_header ;;
      for_each (enumerate 1 (firstn 3 cycles))
               (fun '(i, cycle) => write (Loop i cycle))
  end ;;
  match longest_path G with
  | Some (v :: path) =>
      write (Longest_chain (length (v :: path))) ;;
      write (Path (v :: path))
  | _ => ret tt
  end ;;
  let components := strongly_connected_components G in
  write (Component_count (length components)) ;;
  match components with
  | [] => raise ValueError_max_empty
  | c :: r => write (Largest_component (length (max_by (@length node) c r)))
  end.

(** [main], from the two loaded tables: [load_data] makes [events_df] the
    frame of the run. *)
Definition main (events : events_df) (rows : edges_df) : M unit :=
  write Title ;;
  write Rule ;;
  put_frame events ;;
  events_df <- get_frame ;;
  let G := create_graph events_df rows in
  analyze_worlds ;;
  analyze_temporal_patterns ;;
  analyze_character_involvement ;;
  analyze_important_events ;;
  analyze_graph_structure G.

Definition start : run_state := {| frame := []; report_file := [] |}.

(** The outcome of a run and the report it leaves. *)
Definition outcome (events : events_df) (rows : edges_df) : unit + exn :=
  fst (main events rows start).
Definition report (events : events_df) (rows : edges_df) : list line :=
  report_file (snd (main events rows start)).

(** The lines that a step of the run adds to the report file. *)
Definition written {A} (m : M A) (s : run_state) : list line :=
  skipn (length (report_file s)) (report_file (snd (m s))).

(** *** The sections of the report, as lists *)

Definition worlds_lines (events : events_df) : list line :=
  Worlds_header ::
  map (fun '(world, count) => World_count world count)
      (value_counts String.eqb (map World events)).

(** The temporal section, from a frame whose dates are parsed. *)
Definition temporal_lines (events : events_df) : list line :=
  let years := sort_index (value_counts Z.eqb (map dt_year (map Date events))) in
  Temporal_header ::
  map (fun '(year, count) => Year_count year count) years ++
  (if (1 <? length years)%nat then
     let index := keys years in
     [Time_span (fold_right Z.max (hd 0 index) index
                 - fold_right Z.min (hd 0 index) index)]
   else []).

Definition characters_lines (events : events_df) : list line :=
  Characters_header ::
  map (fun '(char, count) => Character_count char count)
      (most_common 10
         (Counter String.eqb
            (flat_map (fun chars => map strip (split "," chars))
                      (dropna (map Characters events))))).

Definition important_lines (events : events_df) : list line :=
  [Important_header;
   Trigger_count
     (get_count Bool.eqb (value_counts Bool.eqb (map Important_Trigger events)) true);
   Death_count
     (get_count Bool.eqb (value_counts Bool.eqb (map Death events)) true)].

Definition loop_lines (G : DiGraph) : list line :=
  match simple_cycles G with
  | [] => []
  | cycles =>
      Notable_header ::
      map (fun '(i, cycle) => Loop i cycle) (enumerate 1 (firstn 3 cycles))
  end.

Definition chain_lines (G : DiGraph) : list line :=
  match longest_path G with
  | Some (v :: path) => [Longest_chain (length (v :: path)); Path (v :: path)]
  | _ => []
  end.

Definition component_lines (G : DiGraph) : list line :=
  let components := strongly_connected_components G in
  Component_count (length components) ::
  match components with
  | [] => []
  | c :: r => [Largest_component (length (max_by (@length node) c r))]
  end.

Definition structure_lines (G : DiGraph) : list line :=
  [Structure_header; Node_count (number_of_nodes G);
   Edge_count (number_of_edges G); Central_header] ++
  map (fun '(node_id, centrality) => Central_event node_id centrality)
      (top_central G) ++
  [Dead_end_count (length (dead_ends G));
   Loop_count (length (simple_cycles G))] ++
  loop_lines G ++ chain_lines G ++ component_lines G.

Definition structure_outcome (G : DiGraph) : unit + exn :=
  match strongly_connected_components G with
  | [] => inr ValueError_max_empty
  | _ => inl tt
  end.

(** The lines of the longest-chain metric. *)
Definition mentions_longest_chain (l : line) : bool :=
  match l with
  | Longest_chain _ | Path _ => true
  | _ => false
  end.

(** [a] stands before [b] in [l]. *)
Definition precedes {A} (l : list A) (a b : A) : Prop :=
  exists l1 l2 l3, l = l1 ++ a :: l2 ++ b :: l3.

(** The reading of the specification of the ranking, for comparison: of
    two neighbours of the list with equal centrality the first has the
    smaller identifier. *)
Fixpoint ties_by_identifier (ranking : list (node * Q)) : bool :=
  match ranking with
  | a :: (b :: _) as r =>
      (negb (Qeq_bool (snd a) (snd b)) || (fst a <? fst b))
      && ties_by_identifier r
  | _ => true
  end.

(** *** The four distribution analyzers, in any order *)

Inductive analyzer :=
| Pass_worlds
| Pass_temporal
| Pass_characters
| Pass_important.

Definition run_analyzer (a : analyzer) : M unit :=
  match a with
  | Pass_worlds => analyze_worlds
  | Pass_temporal => analyze_temporal_patterns
  | Pass_characters => analyze_character_involvement
  | Pass_important => analyze_important_events
  end.

Definition run_analyzers (order : list analyzer) : M unit :=
  for_each order run_analyzer.

(** Two frames agree on every column but [Date]. *)
Definition same_columns (f f' : events_df) : Prop :=
  map ID f = map ID f' /\
  map Description f = map Description f' /\
  map Important_Trigger f = map Important_Trigger f' /\
  map Death f = map Death f' /\
  map Characters f = map Characters f' /\
  map World f = map World f'.

(* ===================================================================== *)
(** ** Centralities: sums, and the doubles of the library *)
(* ===================================================================== *)

(** [sum(l)] in exact arithmetic. *)
Definition Qsum (l : list Q) : Q := fold_right Qplus 0%Q l.

(** [d.values()] *)
Definition values {K V} (d : dict K V) : list V := map snd d.

(** [float(n)]: Python's floats are IEEE-754 doubles. *)
Definition float_of_nat (n : nat) : float :=
  PrimFloat.of_uint63 (Uint63.of_Z (Z.of_nat n)).

(** [nx.in_degree_centrality] and [nx.out_degree_centrality] as the
    library computes them: [s = 1.0 / (len(G) - 1.0)] and [d * s] for
    every node. *)
Definition degree_centrality_double (degree : node -> nat) (G : DiGraph)
  : dict node float :=
  if (number_of_nodes G <=? 1)%nat
  then map (fun n => (n, float_of_nat 1)) (nodes G)
  else
    let s := PrimFloat.div (float_of_nat 1)
               (PrimFloat.sub (float_of_nat (number_of_nodes G))
                              (float_of_nat 1)) in
    map (fun n => (n, PrimFloat.mul (float_of_nat (degree n)) s)) (nodes G).

Definition in_degree_centrality_double (G : DiGraph) : dict node float :=
  degree_centrality_double (in_degree G) G.

(** [sum(l)] over doubles, from left to right. *)
Definition float_sum (l : list float) : float :=
  fold_left PrimFloat.add l (float_of_nat 0).

(** The rational number that a finite double stands for. *)
Definition Q_of_float (f : float) : Q :=
  match Prim2SF f with
  | S754_finite negative m e =>
      ((if negative then -1 else 1) * inject_Z (Zpos m)
       * (if (0 <=? e)%Z then inject_Z (2 ^ e) else / inject_Z (2 ^ (- e))))%Q
  | _ => 0%Q
  end.

(* ===================================================================== *)
(** ** Rows for examples *)
(* ===================================================================== *)

Definition bare_event (n : node) : event_row :=
  mkEvent n None NaT None None None None.

Definition bare_edge (u v : node) : edge_row :=
  mkEdge (Some u) (Some v) None None.

Definition dated_event (n : node) (text : string) : event_row :=
  mkEvent n None (DateStr text) None None None None.

(* ===================================================================== *)
(** ** Notions used in the proofs *)
(* ===================================================================== *)

(** The state after more lines are written. *)
Definition add_lines (s : run_state) (ls : list line) : run_state :=
  {| frame := frame s; report_file := report_file s ++ ls |}.

(** [a] may stand before [b] in the descending sort of [l]: [a] is not
    smaller than [b], and when neither is smaller [a] precedes [b] in [l]. *)
Definition ranks_before {A} (lt : A -> A -> bool) (l : list A) (a b : A)
  : Prop :=
  lt a b = false /\ (lt b a = true \/ precedes l a b).

(** Every edge joins two nodes. *)
Definition well_formed (G : DiGraph) : Prop :=
  forall u v, In (u, v) (edges G) -> In u (nodes G) /\ In v (nodes G).

(** The nodes that the search has met are nodes of the graph. *)
Definition in_graph (G : DiGraph) (st : bfs) : Prop :=
  Forall (fun x => In x (nodes G)) (bfs_S st) /\
  Forall (fun x => In x (nodes G)) (bfs_Q st).

(** The distance, the number of shortest paths and the predecessors that
    the search holds for a node, and the nodes it has met. *)
Definition level (st : bfs) (w : node) : nat := lookup (bfs_D st) w 0%nat.
Definition sig (st : bfs) (w : node) : Q := lookup (bfs_sigma st) w 0%Q.
Definition pre (st : bfs) (w : node) : list node := lookup (bfs_P st) w [].
Definition sigsum (st : bfs) (l : list node) : Q := Qsum (map (sig st) l).
Definition seen (st : bfs) : list node := bfs_S st ++ bfs_Q st.

(** What holds of the search between two visits, [L] being the distance
    of the node whose successors are visited. *)
Record bfs_ok (s : node) (L : nat) (st : bfs) : Prop := {
  ok_nodup : NoDup (seen st);
  ok_D : forall w, dict_mem Z.eqb (bfs_D st) w = true <-> In w (seen st);
  ok_S_level : forall u, In u (bfs_S st) -> (level st u <= L)%nat;
  ok_Q_level : forall x, In x (bfs_Q st) -> (L <= level st x <= S L)%nat;
  ok_Q_sorted : StronglySorted le (map (level st) (bfs_Q st));
  ok_nonneg : forall w, (0 <= sig st w)%Q;
  ok_sum : forall w, In w (seen st) -> (sigsum st (pre st w) <= sig st w)%Q;
  ok_pre_Q : forall w v, In w (bfs_Q st) -> In v (pre st w) -> In v (bfs_S st);
  ok_pre_S : forall prefix w suffix,
      bfs_S st = prefix ++ w :: suffix ->
      forall v, In v (pre st w) -> In v prefix;
  ok_pre_new : forall w, ~ In w (seen st) -> pre st w = [];
  ok_head : exists rest, seen st = s :: rest
}.

(** A node is discovered at distance [L + 1]. *)
Definition discover (L : nat) (st : bfs) (w : node) : bfs :=
  {| bfs_S := bfs_S st; bfs_P := bfs_P st; bfs_sigma := bfs_sigma st;
     bfs_D := dict_set Z.eqb (bfs_D st) w (S L);
     bfs_Q := bfs_Q st ++ [w] |}.

(** A shortest path through [v] is counted for [w]. *)
Definition relax (st : bfs) (v w : node) (sigmav : Q) : bfs :=
  {| bfs_S := bfs_S st;
     bfs_P := dict_set Z.eqb (bfs_P st) w (pre st w ++ [v]);
     bfs_sigma := dict_set Z.eqb (bfs_sigma st) w (sig st w + sigmav)%Q;
     bfs_D := bfs_D st;
     bfs_Q := bfs_Q st |}.

(** [v = Q.popleft(); S.append(v)] *)
Definition pop (st : bfs) (v : node) (q : list node) : bfs :=
  {| bfs_S := bfs_S st ++ [v]; bfs_P := bfs_P st; bfs_sigma := bfs_sigma st;
     bfs_D := bfs_D st; bfs_Q := q |}.

(** The variables of the search from [s] before its loop. *)
Definition bfs_start (G : DiGraph) (s : node) : bfs :=
  {| bfs_S := [];
     bfs_P := map (fun v => (v, [])) (nodes G);
     bfs_sigma := dict_set Z.eqb (map (fun v => (v, 0%Q)) (nodes G)) s 1%Q;
     bfs_D := [(s, 0%nat)];
     bfs_Q := [s] |}.

(** [for v in vs: delta[v] += f(v)] *)
Definition add_all (f : node -> Q) (vs : list node) (delta : dict node Q)
  : dict node Q :=
  fold_left (fun delta v => dict_set Z.eqb delta v (lookup delta v 0 + f v)%Q)
            vs delta.

(** The dependency and the betweenness that the accumulation holds. *)
Definition dl (acc : dict node Q * dict node Q) (x : node) : Q :=
  lookup (snd acc) x 0%Q.
Definition bt (acc : dict node Q * dict node Q) (x : node) : Q :=
  lookup (fst acc) x 0%Q.

(** The nodes of [sfx] have been taken from the end of [S]. *)
Definition processed (P : dict node (list node)) (sigma : dict node Q)
           (s : node) (S_ : list node) (b0 : dict node Q) (sfx : list node)
  : dict node Q * dict node Q :=
  fold_right (fun w acc => accumulate_step P sigma s acc w)
             (b0, map (fun v => (v, 0%Q)) S_) sfx.

(** What a node other than the source can have gained. *)
Definition gain (s : node) (S_ : list node) (x : node) (sfx : list node) : Q :=
  if mem x sfx && negb (Z.eqb x s) then Q_of_nat (length S_ - 2) else 0%Q.


(* ===================================================================== *)
(** ** Notions used to describe the analyzers *)
(* ===================================================================== *)

(** How often [k] stands in [l]. *)
Definition occurrences {K} (eqb : K -> K -> bool) (k : K) (l : list K) : nat :=
  length (filter (eqb k) l).

(** The elements of [l], each at its first occurrence. *)
Definition first_seen {K} (eqb : K -> K -> bool) (l : list K) : list K :=
  fold_left (touch eqb) l [].

(** The order of a ranking by count: a larger count comes first, and of
    two entries with the same count the one that stands first in [order]. *)
Definition count_ranked {K} (order : list K) (a b : K * nat) : Prop :=
  (snd b <= snd a)%nat /\
  ((snd b < snd a)%nat \/ precedes order (fst a) (fst b)).

(** A cell of a column of flags that holds [True]. *)
Definition flagged (c : option bool) : bool :=
  match c with Some true => true | _ => false end.

(** [all_characters] of [analyze_character_involvement]: the names that
    the [Characters] cells mention, one entry per mention. *)
Definition all_characters (events : events_df) : list string :=
  flat_map (fun chars => map strip (split "," chars))
           (dropna (map Characters events)).

(** The characters of a string, and how often [c] is among them. *)
Definition count_char (c : ascii) (s : string) : nat :=
  occurrences Ascii.eqb c (list_ascii_of_string s).

(** A text neither begins nor ends with a character that [strip] removes. *)
Definition no_leading_space (l : list ascii) : Prop :=
  match l with
  | c :: _ => is_space c = false
  | [] => True
  end.

Definition trimmed (s : string) : Prop :=
  no_leading_space (list_ascii_of_string s) /\
  no_leading_space (rev (list_ascii_of_string s)).

(* ===================================================================== *)
(** ** [degree_of_2.py] *)
(* ===================================================================== *)

(** [has_degree_2], with the two series that [main] computes from the
    edges table before it defines the function. *)
Definition has_degree_2 (edges_df : edges_df) (node_id : node) : bool :=
  let incoming_counts := value_counts Z.eqb (map Target edges_df) in
  let outgoing_counts := value_counts Z.eqb (map Source edges_df) in
  let incoming := get_count Z.eqb incoming_counts node_id in
  let outgoing := get_count Z.eqb outgoing_counts node_id in
  (incoming =? 1)%nat && (outgoing =? 1)%nat.

(** [events_df['ID'].apply(has_degree_2)], the column [degree_of_2]. *)
Definition degree_of_2 (events_df : events_df) (edges_df : edges_df)
  : list bool :=
  map (has_degree_2 edges_df) (map ID events_df).

(** The cell names the node [n]. *)
Definition names (n : node) (c : option node) : bool :=
  match c with
  | Some m => Z.eqb n m
  | None => false
  end.

(* ===================================================================== *)
(** ** Dates written in the format [%d-%m-%Y] *)
(* ===================================================================== *)

(** The character of a digit, and a number written with two and with
    four digits, zero-padded. *)
Definition digit_char (z : Z) : ascii := ascii_of_nat (Z.to_nat (48 + z)).

Definition two_digits (z : Z) : string :=
  String (digit_char (z / 10)) (String (digit_char (z mod 10)) "").

Definition four_digits (z : Z) : string :=
  String (digit_char (z / 1000))
    (String (digit_char (z / 100 mod 10))
       (String (digit_char (z / 10 mod 10))
          (String (digit_char (z mod 10)) ""))).

(** [date.strftime('%d-%m-%Y')] *)
Definition strftime (year month day : Z) : string :=
  (two_digits day ++ "-" ++ two_digits month ++ "-" ++ four_digits year)%string.

(** A cell that [to_datetime] has converted holds no text. *)
Definition converted (c : date_cell) : bool :=
  match c with
  | DateStr _ => false
  | _ => true
  end.

(* ===================================================================== *)
(** ** Notions used in the further proofs about the graph *)
(* ===================================================================== *)

(** Every predecessor that the search has recorded for a node has an
    edge to it. *)
Definition pre_by_edge (G : DiGraph) (st : bfs) : Prop :=
  forall w u, In u (pre st w) -> In w (successors G u).

(** Every node that the search from [s] has met is [s] or the head of an
    edge. *)
Definition met_by_edge (G : DiGraph) (s : node) (st : bfs) : Prop :=
  forall x, In x (seen st) -> x = s \/ exists u, In x (successors G u).

(** A walk along the edges of [G] leads from [u] to [v]. *)
Inductive connects (G : DiGraph) (u : node) : node -> Prop :=
| connects_refl : connects G u u
| connects_step v w :
    connects G u v -> In (v, w) (edges G) -> connects G u w.

(** One round of the search for the reachable nodes, the nodes of the
    graph that it has not met, and a set of nodes that no edge leaves. *)
Definition expand (G : DiGraph) (seen : list node) : list node :=
  fold_left (touch Z.eqb) (flat_map (successors G) seen) seen.

Definition unseen (G : DiGraph) (seen : list node) : list node :=
  filter (fun x => negb (mem x seen)) (nodes G).

Definition closed (G : DiGraph) (seen : list node) : Prop :=
  forall x w, In x seen -> In w (successors G x) -> In w seen.

Definition closedb (G : DiGraph) (seen : list node) : bool :=
  forallb (fun w => mem w seen) (flat_map (successors G) seen).

(** The component that [strongly_connected_components] forms for [v]. *)
Definition component (G : DiGraph) (v : node) : list node :=
  filter (fun w => reaches G v w && reaches G w v) (nodes G).

(** No walk of one edge or more leads from a node back to it. *)
Definition acyclic (G : DiGraph) : Prop :=
  forall u v, In (u, v) (edges G) -> ~ connects G v u.

(** In the list [l] the source of every edge into a node of the list
    stands before that node. *)
Definition forward (G : DiGraph) (l : list node) : Prop :=
  forall l1 v l2, l = l1 ++ v :: l2 ->
  forall u, In (u, v) (edges G) -> In u l1.

(** The number of the edges into [v] that leave a node of [D]. *)
Definition edges_from (G : DiGraph) (D : list node) (v : node) : nat :=
  length (filter (fun e => mem (fst e) D && Z.eqb v (snd e)) (edges G)).

(** What holds of the topological sort before a generation is handled:
    [D] holds the generations handled so far, [z] is the generation at
    hand, and [m] counts for every other node the edges into it that
    leave no node of [D]. *)
Record kahn_ok (G : DiGraph) (D : list node) (m : dict node nat)
       (z : list node) : Prop := {
  kahn_perm : Permutation (D ++ z ++ keys m) (nodes G);
  kahn_count : forall v d,
      dict_get Z.eqb m v = Some d ->
      (1 <= d)%nat /\ (d + edges_from G D v = in_degree G v)%nat;
  kahn_zero : forall v, In v z -> edges_from G D v = in_degree G v;
  kahn_forward : forward G D
}.

(** The position of [x] in [l]. *)
Fixpoint index (x : node) (l : list node) : nat :=
  match l with
  | [] => 0
  | y :: r => if Z.eqb x y then 0 else S (index x r)
  end.

(** The walk that leaves [a], passes the nodes [ws] in this order and
    ends in [b]. *)
Fixpoint path (G : DiGraph) (a : node) (ws : list node) (b : node) : Prop :=
  match ws with
  | [] => In (a, b) (edges G)
  | w :: r => In (a, w) (edges G) /\ path G w r b
  end.

(** A walk of one edge or more leads from [v] back to [v]. *)
Definition on_cycle (G : DiGraph) (v : node) : Prop :=
  exists u, In (u, v) (edges G) /\ connects G v u.

Definition on_cycleb (G : DiGraph) (v : node) : bool :=
  existsb (fun u => reaches G v u) (predecessors G v).

(** A chain: every node of the list has an edge to the next one; and the
    same read from the end. *)
Fixpoint linked (G : DiGraph) (l : list node) : Prop :=
  match l with
  | a :: (b :: _) as r => In (a, b) (edges G) /\ linked G r
  | _ => True
  end.

Fixpoint rlinked (G : DiGraph) (l : list node) : Prop :=
  match l with
  | a :: (b :: _) as r => In (b, a) (edges G) /\ rlinked G r
  | _ => True
  end.

(** The length of the longest chain that [dist] holds for a node, in
    edges, and the node before it on that chain. *)
Definition rank (dist : dict node (nat * node)) (x : node) : nat :=
  fst (lookup dist x (0%nat, x)).
Definition back (dist : dict node (nat * node)) (x : node) : node :=
  snd (lookup dist x (0%nat, x)).

(** What holds of [dist] when the nodes of [p] have been handled. *)
Record dist_ok (G : DiGraph) (p : list node) (dist : dict node (nat * node))
  : Prop := {
  dist_keys : keys dist = p;
  dist_first : forall v, In v p -> predecessors G v = [] ->
                         rank dist v = 0%nat /\ back dist v = v;
  dist_back : forall v, In v p -> predecessors G v <> [] ->
                        In (back dist v) (predecessors G v) /\
                        rank dist v = S (rank dist (back dist v));
  dist_above : forall v u, In v p -> In u (predecessors G v) ->
                           (rank dist u < rank dist v)%nat;
  dist_closed : forall v u, In v p -> In u (predecessors G v) -> In u p
}.
(* ===================================================================== *)
(** * Properties of the embedding *)
(* ===================================================================== *)

(** ** Dictionaries *)

Section DictFacts.
Context {K V : Type}.
Variable eqb : K -> K -> bool.
Hypothesis eqb_spec : forall x y, reflect (x = y) (eqb x y).
Implicit Types (d : dict K V) (k : K) (v : V).

Lemma dict_mem_In d k : dict_mem eqb d k = true <-> In k (keys d).
Proof using eqb_spec.
  unfold dict_mem. rewrite existsb_exists. split.
  - intros (x & Hx & E). destruct (eqb_spec k x); congruence.
  - intros H. exists k. split; [assumption|].
    destruct (eqb_spec k k); congruence.
Qed.

Lemma dict_mem_false d k : dict_mem eqb d k = false <-> ~ In k (keys d).
Proof using eqb_spec.
  rewrite <- dict_mem_In. destruct (dict_mem eqb d k); intuition congruence.
Qed.

Lemma keys_dict_set_old d k v :
  In k (keys d) -> keys (dict_set eqb d k v) = keys d.
Proof using eqb_spec.
  induction d as [|[k' v'] r IH]; simpl; [tauto|].
  intros H. destruct (eqb_spec k k') as [->|N]; simpl; [reflexivity|].
  f_equal. apply IH. destruct H; congruence.
Qed.

Lemma keys_dict_set_new d k v :
  ~ In k (keys d) -> keys (dict_set eqb d k v) = keys d ++ [k].
Proof using eqb_spec.
  induction d as [|[k' v'] r IH]; simpl; [reflexivity|].
  intros H. destruct (eqb_spec k k') as [->|N]; simpl; [tauto|].
  f_equal. apply IH. tauto.
Qed.

Lemma keys_dict_setdefault d k v :
  keys (dict_setdefault eqb d k v) =
  if dict_mem eqb d k then keys d else keys d ++ [k].
Proof.
  unfold dict_setdefault. destruct (dict_mem eqb d k); [reflexivity|].
  unfold keys. now rewrite map_app.
Qed.

Lemma keys_dict_set d k v :
  keys (dict_set eqb d k v) = if dict_mem eqb d k then keys d else keys d ++ [k].
Proof using eqb_spec.
  destruct (dict_mem eqb d k) eqn:E.
  - apply keys_dict_set_old, dict_mem_In, E.
  - apply keys_dict_set_new, dict_mem_false, E.
Qed.

Lemma dict_get_set_same d k v : dict_get eqb (dict_set eqb d k v) k = Some v.
Proof using eqb_spec.
  induction d as [|[k' v'] r IH]; simpl.
  - destruct (eqb_spec k k); congruence.
  - destruct (eqb_spec k k') as [->|N]; simpl.
    + destruct (eqb_spec k' k'); congruence.
    + destruct (eqb_spec k k'); congruence.
Qed.

Lemma dict_get_set_other d k k' v :
  k' <> k -> dict_get eqb (dict_set eqb d k v) k' = dict_get eqb d k'.
Proof using eqb_spec.
  intros N. induction d as [|[k0 v0] r IH]; simpl.
  - destruct (eqb_spec k' k); congruence.
  - destruct (eqb_spec k k0) as [->|N0]; simpl.
    + destruct (eqb_spec k' k0); congruence.
    + destruct (eqb_spec k' k0); congruence.
Qed.

Lemma dict_get_setdefault_old d k v k' :
  In k' (keys d) -> dict_get eqb (dict_setdefault eqb d k v) k' = dict_get eqb d k'.
Proof using eqb_spec.
  unfold dict_setdefault. destruct (dict_mem eqb d k); [reflexivity|].
  induction d as [|[k0 v0] r IH]; simpl; [tauto|].
  intros [->|H].
  - destruct (eqb_spec k' k'); congruence.
  - destruct (eqb_spec k' k0); auto.
Qed.

Lemma dict_get_Some_In d k v : dict_get eqb d k = Some v -> In k (keys d).
Proof using eqb_spec.
  induction d as [|[k0 v0] r IH]; simpl; [discriminate|].
  destruct (eqb_spec k k0); auto.
Qed.


End DictFacts.

Section TouchFacts.
Context {K : Type}.
Variable eqb : K -> K -> bool.
Hypothesis eqb_spec : forall x y, reflect (x = y) (eqb x y).

Lemma existsb_eqb_In l k : existsb (eqb k) l = true <-> In k l.
Proof using eqb_spec.
  rewrite existsb_exists. split.
  - intros (x & Hx & E). destruct (eqb_spec k x); congruence.
  - intros H. exists k. split; [assumption|].
    destruct (eqb_spec k k); congruence.
Qed.

Lemma touch_In l k x : In x (touch eqb l k) <-> In x l \/ x = k.
Proof using eqb_spec.
  unfold touch. destruct (existsb (eqb k) l) eqn:E.
  - apply existsb_eqb_In in E. intuition congruence.
  - rewrite in_app_iff. simpl. intuition congruence.
Qed.

Lemma touch_NoDup l k : NoDup l -> NoDup (touch eqb l k).
Proof using eqb_spec.
  unfold touch. intros H. destruct (existsb (eqb k) l) eqn:E; [assumption|].
  assert (~ In k l).
  { rewrite <- existsb_eqb_In. congruence. }
  apply NoDup_app; [assumption|repeat constructor; simpl; tauto|].
  intros x Hx [<-|[]]. contradiction.
Qed.

Lemma fold_touch_In (ks : list K) : forall l x,
  In x (fold_left (touch eqb) ks l) <-> In x l \/ In x ks.
Proof using eqb_spec.
  induction ks as [|k ks IH]; simpl; intros l x; [tauto|].
  rewrite IH, touch_In. intuition congruence.
Qed.

Lemma fold_touch_NoDup (ks : list K) : forall l,
  NoDup l -> NoDup (fold_left (touch eqb) ks l).
Proof using eqb_spec.
  induction ks as [|k ks IH]; simpl; intros l H; [assumption|].
  apply IH, touch_NoDup, H.
Qed.


End TouchFacts.

(** A duplicate-free list with the elements of [l] is as long as [nodup l]. *)
Lemma NoDup_same_elements_length {A} (dec : forall x y : A, {x = y} + {x <> y})
      (l l' : list A) :
  NoDup l -> (forall x, In x l <-> In x l') ->
  length l = length (nodup dec l').
Proof.
  intros ND H. apply Permutation_length, NoDup_Permutation.
  - assumption.
  - apply NoDup_nodup.
  - intros x. rewrite nodup_In. apply H.
Qed.

Lemma pair_eqb_spec p q : reflect (p = q) (pair_eqb p q).
Proof.
  destruct p as [a b], q as [c d]. unfold pair_eqb. simpl.
  destruct (Z.eqb_spec a c), (Z.eqb_spec b d); simpl; constructor; congruence.
Qed.

(** ** The keys of the built graph *)

Lemma nodes_add_event G e :
  nodes (add_event G e) = touch Z.eqb (nodes G) (ID e).
Proof.
  unfold nodes, add_event, add_node. simpl.
  rewrite (keys_dict_set Z.eqb Z.eqb_spec). reflexivity.
Qed.

Lemma edges_add_event G e : edges (add_event G e) = edges G.
Proof. reflexivity. Qed.

Lemma nodes_add_edge G u v a :
  nodes (add_edge G u v a) = touch Z.eqb (touch Z.eqb (nodes G) u) v.
Proof.
  unfold nodes, add_edge. simpl.
  rewrite !keys_dict_setdefault. unfold touch, dict_mem.
  rewrite !keys_dict_setdefault. unfold dict_mem. reflexivity.
Qed.

Lemma edges_add_edge G u v a :
  edges (add_edge G u v a) = touch pair_eqb (edges G) (u, v).
Proof.
  unfold edges, add_edge. simpl.
  rewrite (keys_dict_set pair_eqb pair_eqb_spec). reflexivity.
Qed.

Lemma nodes_add_edge_row G e :
  nodes (add_edge_row G e) = fold_left (touch Z.eqb) (row_endpoints e) (nodes G).
Proof.
  unfold add_edge_row, row_endpoints.
  destruct (Source e) as [u|], (Target e) as [v|]; simpl;
    try reflexivity.
  apply nodes_add_edge.
Qed.

Lemma edges_add_edge_row G e :
  edges (add_edge_row G e) = fold_left (touch pair_eqb) (row_pair e) (edges G).
Proof.
  unfold add_edge_row, row_pair.
  destruct (Source e) as [u|], (Target e) as [v|]; simpl;
    try reflexivity.
  apply edges_add_edge.
Qed.

Lemma nodes_fold_add_event events : forall G,
  nodes (fold_left add_event events G) =
  fold_left (touch Z.eqb) (map ID events) (nodes G).
Proof.
  induction events as [|e r IH]; simpl; intros G; [reflexivity|].
  now rewrite IH, nodes_add_event.
Qed.

Lemma edges_fold_add_event events : forall G,
  edges (fold_left add_event events G) = edges G.
Proof.
  induction events as [|e r IH]; simpl; intros G; [reflexivity|].
  now rewrite IH.
Qed.

Lemma nodes_fold_add_edge_row rows : forall G,
  nodes (fold_left add_edge_row rows G) =
  fold_left (touch Z.eqb) (endpoints rows) (nodes G).
Proof.
  induction rows as [|e r IH]; simpl; intros G; [reflexivity|].
  unfold endpoints in *. simpl.
  now rewrite fold_left_app, IH, nodes_add_edge_row.
Qed.

Lemma edges_fold_add_edge_row rows : forall G,
  edges (fold_left add_edge_row rows G) =
  fold_left (touch pair_eqb) (linked_pairs rows) (edges G).
Proof.
  induction rows as [|e r IH]; simpl; intros G; [reflexivity|].
  unfold linked_pairs in *. simpl.
  now rewrite fold_left_app, IH, edges_add_edge_row.
Qed.

(** The node keys are the event identifiers and then the endpoints of the
    inserted rows, each at its first occurrence. *)
Lemma nodes_create_graph events rows :
  nodes (create_graph events rows) =
  fold_left (touch Z.eqb) (map ID events ++ endpoints rows) [].
Proof.
  unfold create_graph.
  now rewrite nodes_fold_add_edge_row, nodes_fold_add_event, fold_left_app.
Qed.

(** The edge keys are the ordered pairs of the inserted rows, each at its
    first occurrence. *)
Lemma edges_create_graph events rows :
  edges (create_graph events rows) =
  fold_left (touch pair_eqb) (linked_pairs rows) [].
Proof.
  unfold create_graph.
  now rewrite edges_fold_add_edge_row, edges_fold_add_event.
Qed.

Lemma nodes_NoDup events rows : NoDup (nodes (create_graph events rows)).
Proof.
  rewrite nodes_create_graph.
  apply (fold_touch_NoDup Z.eqb Z.eqb_spec). constructor.
Qed.

Lemma edges_NoDup events rows : NoDup (edges (create_graph events rows)).
Proof.
  rewrite edges_create_graph.
  apply (fold_touch_NoDup pair_eqb pair_eqb_spec). constructor.
Qed.

Lemma In_nodes_create_graph events rows n :
  In n (nodes (create_graph events rows)) <->
  In n (map ID events) \/ In n (endpoints rows).
Proof.
  rewrite nodes_create_graph, (fold_touch_In Z.eqb Z.eqb_spec), in_app_iff.
  simpl. tauto.
Qed.

Lemma In_edges_create_graph events rows p :
  In p (edges (create_graph events rows)) <-> In p (linked_pairs rows).
Proof.
  rewrite edges_create_graph, (fold_touch_In pair_eqb pair_eqb_spec).
  simpl. tauto.
Qed.

Lemma linked_pairs_endpoints rows u v :
  In (u, v) (linked_pairs rows) -> In u (endpoints rows) /\ In v (endpoints rows).
Proof.
  unfold linked_pairs, endpoints. rewrite !in_flat_map.
  intros (e & He & H). unfold row_pair in H.
  destruct (Source e) as [a|] eqn:Ea, (Target e) as [b|] eqn:Eb;
    simpl in H; try tauto.
  destruct H as [H|[]]. inversion H; subst.
  split; exists e; (split; [assumption|]);
    unfold row_endpoints; rewrite Ea, Eb; simpl; tauto.
Qed.

(** Every edge of the built graph joins two of its nodes. *)
Lemma edges_between_nodes events rows u v :
  In (u, v) (edges (create_graph events rows)) ->
  In u (nodes (create_graph events rows)) /\
  In v (nodes (create_graph events rows)).
Proof.
  rewrite In_edges_create_graph, !In_nodes_create_graph.
  intros H. apply linked_pairs_endpoints in H. tauto.
Qed.

Lemma length_linked_pairs rows :
  length (linked_pairs rows) = length (inserted_rows rows).
Proof.
  unfold linked_pairs, inserted_rows.
  induction rows as [|e r IH]; simpl; [reflexivity|].
  rewrite length_app, IH. unfold row_pair, complete.
  destruct (Source e), (Target e); reflexivity.
Qed.

Lemma length_inserted_skipped rows :
  (length (skipped_rows rows) + length (inserted_rows rows) = length rows)%nat.
Proof.
  unfold skipped_rows, inserted_rows.
  induction rows as [|e r IH]; simpl; [reflexivity|].
  destruct (complete e); simpl; lia.
Qed.

Lemma length_nodup_le {A} (dec : forall x y : A, {x = y} + {x <> y}) l :
  (length (nodup dec l) <= length l)%nat.
Proof.
  induction l as [|a l IH]; simpl; [lia|].
  destruct (in_dec dec a l); simpl; lia.
Qed.

(** ** The attributes of the built graph *)

Lemma find_app {A} (f : A -> bool) l1 l2 :
  find f (l1 ++ l2) =
  match find f l1 with Some x => Some x | None => find f l2 end.
Proof.
  induction l1 as [|a l1 IH]; simpl; [reflexivity|].
  destruct (f a); [reflexivity|apply IH].
Qed.

Lemma find_none_iff {A} (f : A -> bool) l :
  find f l = None <-> forall x, In x l -> f x = false.
Proof.
  split; [apply find_none|].
  induction l as [|a l IH]; simpl; intros H; [reflexivity|].
  rewrite (H a) by tauto. apply IH. intros x Hx. apply H. tauto.
Qed.

Lemma node_attr_fold_add_event events : forall G n,
  node_attr (fold_left add_event events G) n =
  match last_event events n with
  | Some e => Some (Some (event_attrs e))
  | None => node_attr G n
  end.
Proof.
  unfold last_event.
  induction events as [|e r IH]; simpl; intros G n; [reflexivity|].
  rewrite IH, find_app. destruct (find _ (rev r)); [reflexivity|].
  simpl. unfold node_attr, add_event, add_node. simpl.
  destruct (Z.eqb_spec (ID e) n) as [<-|N].
  - apply (dict_get_set_same Z.eqb Z.eqb_spec).
  - apply (dict_get_set_other Z.eqb Z.eqb_spec). congruence.
Qed.

Lemma node_attr_add_edge_row G e n :
  In n (nodes G) -> node_attr (add_edge_row G e) n = node_attr G n.
Proof.
  intros H. unfold add_edge_row.
  destruct (Source e) as [u|], (Target e) as [v|]; try reflexivity.
  unfold node_attr, add_edge. simpl.
  rewrite (dict_get_setdefault_old Z.eqb Z.eqb_spec).
  - now apply (dict_get_setdefault_old Z.eqb Z.eqb_spec).
  - rewrite keys_dict_setdefault.
    destruct (dict_mem Z.eqb (G_node G) u); [assumption|].
    apply in_or_app. now left.
Qed.

Lemma node_attr_fold_add_edge_row rows : forall G n,
  In n (nodes G) -> node_attr (fold_left add_edge_row rows G) n = node_attr G n.
Proof.
  induction rows as [|e r IH]; simpl; intros G n H; [reflexivity|].
  rewrite IH, node_attr_add_edge_row; [reflexivity|assumption|].
  rewrite nodes_add_edge_row.
  apply (fold_touch_In Z.eqb Z.eqb_spec). now left.
Qed.

Lemma last_event_Some events n :
  In n (map ID events) -> exists e, last_event events n = Some e /\ ID e = n.
Proof.
  intros H. unfold last_event.
  destruct (find _ (rev events)) as [e|] eqn:E.
  - exists e. split; [reflexivity|].
    apply find_some in E. destruct E as [_ E].
    now destruct (Z.eqb_spec (ID e) n).
  - exfalso. apply in_map_iff in H. destruct H as (e & <- & He).
    rewrite find_none_iff in E. specialize (E e).
    rewrite <- in_rev in E. specialize (E He).
    now rewrite Z.eqb_refl in E.
Qed.

(** A node that comes from the events table carries the attributes of the
    last row with its identifier. *)
Lemma node_attr_create_graph events rows n e :
  last_event events n = Some e ->
  node_attr (create_graph events rows) n = Some (Some (event_attrs e)).
Proof.
  intros H. unfold create_graph.
  rewrite node_attr_fold_add_edge_row, node_attr_fold_add_event, H;
    [reflexivity|].
  rewrite nodes_fold_add_event.
  apply (fold_touch_In Z.eqb Z.eqb_spec). right.
  apply find_some in H. destruct H as [H1 H2]. rewrite <- in_rev in H1.
  destruct (Z.eqb_spec (ID e) n) as [<-|]; [|discriminate].
  now apply in_map.
Qed.

Lemma edge_attr_add_edge_row G e u v :
  edge_attr (add_edge_row G e) u v =
  if joins u v e then Some (edge_row_attrs e) else edge_attr G u v.
Proof.
  unfold add_edge_row, joins.
  destruct (Source e) as [a|], (Target e) as [b|]; try reflexivity.
  unfold edge_attr, add_edge. simpl.
  destruct (Z.eqb_spec a u) as [->|N1]; simpl.
  - destruct (Z.eqb_spec b v) as [->|N2].
    + apply (dict_get_set_same pair_eqb pair_eqb_spec).
    + apply (dict_get_set_other pair_eqb pair_eqb_spec). congruence.
  - apply (dict_get_set_other pair_eqb pair_eqb_spec). congruence.
Qed.

Lemma edge_attr_fold_add_edge_row rows : forall G u v,
  edge_attr (fold_left add_edge_row rows G) u v =
  match last_row rows u v with
  | Some e => Some (edge_row_attrs e)
  | None => edge_attr G u v
  end.
Proof.
  unfold last_row.
  induction rows as [|e r IH]; simpl; intros G u v; [reflexivity|].
  rewrite IH, find_app. destruct (find _ (rev r)); [reflexivity|].
  simpl. rewrite edge_attr_add_edge_row. now destruct (joins u v e).
Qed.

Lemma edge_attr_fold_add_event events : forall G u v,
  edge_attr (fold_left add_event events G) u v = edge_attr G u v.
Proof.
  induction events as [|e r IH]; simpl; intros G u v; [reflexivity|].
  now rewrite IH.
Qed.

(** An edge carries the attributes of the last inserted row with its
    ordered pair. *)
Lemma edge_attr_create_graph events rows u v :
  edge_attr (create_graph events rows) u v =
  option_map edge_row_attrs (last_row rows u v).
Proof.
  unfold create_graph.
  rewrite edge_attr_fold_add_edge_row, edge_attr_fold_add_event.
  now destruct (last_row rows u v).
Qed.

Lemma joins_row_pair u v e : joins u v e = true <-> row_pair e = [(u, v)].
Proof.
  unfold joins, row_pair.
  destruct (Source e) as [a|], (Target e) as [b|]; try (split; discriminate).
  destruct (Z.eqb_spec a u), (Z.eqb_spec b v); simpl;
    split; congruence.
Qed.

Lemma last_row_of_final rows1 e rows2 u v :
  joins u v e = true ->
  (forall e', In e' rows2 -> joins u v e' = false) ->
  last_row (rows1 ++ e :: rows2) u v = Some e.
Proof.
  intros J H. unfold last_row.
  rewrite rev_app_distr. simpl. rewrite <- app_assoc, find_app.
  replace (find (joins u v) (rev rows2)) with (@None edge_row).
  - simpl. now rewrite J.
  - symmetry. apply find_none_iff. intros x Hx. apply H. now apply in_rev.
Qed.

Lemma last_event_of_final events1 e events2 :
  (forall e', In e' events2 -> ID e' <> ID e) ->
  last_event (events1 ++ e :: events2) (ID e) = Some e.
Proof.
  intros H. unfold last_event.
  rewrite rev_app_distr. simpl. rewrite <- app_assoc, find_app.
  replace (find (fun e0 => ID e0 =? ID e) (rev events2)) with (@None event_row).
  - simpl. now rewrite Z.eqb_refl.
  - symmetry. apply find_none_iff. intros x Hx.
    apply Z.eqb_neq, H. now apply in_rev.
Qed.

Lemma NoDup_count_occ_1 {A} (dec : forall x y : A, {x = y} + {x <> y}) l x :
  NoDup l -> In x l -> count_occ dec l x = 1%nat.
Proof.
  intros ND H. apply (proj1 (NoDup_count_occ' dec l) ND x H).
Qed.


Lemma length_nodup_app_le {A} (dec : forall x y : A, {x = y} + {x <> y}) l m :
  (length (nodup dec (l ++ m)) <= length l + length (nodup dec m))%nat.
Proof.
  induction l as [|a l IH]; simpl; [lia|].
  destruct (in_dec dec a (l ++ m)); simpl; lia.
Qed.

(** A list in which some element occurs twice shrinks under [nodup]. *)
Lemma length_nodup_repeated {A} (dec : forall x y : A, {x = y} + {x <> y})
      l x m :
  In x m -> (length (nodup dec (l ++ x :: m)) < length (l ++ x :: m))%nat.
Proof.
  intros H.
  pose proof (length_nodup_app_le dec l (x :: m)) as L.
  simpl in L. destruct (in_dec dec x m); [|contradiction].
  pose proof (length_nodup_le dec m). rewrite length_app. simpl. lia.
Qed.

Lemma linked_pairs_app rows1 rows2 :
  linked_pairs (rows1 ++ rows2) = linked_pairs rows1 ++ linked_pairs rows2.
Proof. apply flat_map_app. Qed.

Lemma linked_pairs_cons e rows :
  linked_pairs (e :: rows) = row_pair e ++ linked_pairs rows.
Proof. reflexivity. Qed.

(** ** Running the steps of the report *)

Lemma add_lines_nil s : add_lines s [] = s.
Proof. destruct s. unfold add_lines. simpl. now rewrite app_nil_r. Qed.

Lemma add_lines_app s l1 l2 :
  add_lines (add_lines s l1) l2 = add_lines s (l1 ++ l2).
Proof. unfold add_lines. simpl. now rewrite app_assoc. Qed.

Lemma write_run l s : write l s = (inl tt, add_lines s [l]).
Proof. reflexivity. Qed.

Lemma for_each_write {A} (f : A -> line) (body : A -> M unit) l :
  (forall x s, body x s = (inl tt, add_lines s [f x])) ->
  forall s, for_each l body s = (inl tt, add_lines s (map f l)).
Proof.
  intros H. induction l as [|x r IH]; intros s; simpl.
  - unfold ret. now rewrite add_lines_nil.
  - unfold bind. rewrite H, IH, add_lines_app. reflexivity.
Qed.

Lemma written_add_lines {A} (m : M A) s r ls :
  m s = (r, add_lines s ls) -> written m s = ls.
Proof.
  intros H. unfold written. rewrite H. simpl.
  rewrite skipn_app, skipn_all, Nat.sub_diag. reflexivity.
Qed.

Lemma written_of_report {A} (m : M A) s r s1 ls :
  m s = (r, s1) -> report_file s1 = report_file s ++ ls -> written m s = ls.
Proof.
  intros H E. unfold written. rewrite H. simpl. rewrite E.
  rewrite skipn_app, skipn_all, Nat.sub_diag. reflexivity.
Qed.

Lemma analyze_worlds_run s :
  analyze_worlds s = (inl tt, add_lines s (worlds_lines (frame s))).
Proof.
  unfold analyze_worlds, bind, get_frame, worlds_lines. rewrite write_run.
  rewrite (for_each_write (fun '(world, count) => World_count world count));
    [|intros [w c] s'; reflexivity].
  rewrite add_lines_app. reflexivity.
Qed.

Lemma analyze_character_involvement_run s :
  analyze_character_involvement s =
  (inl tt, add_lines s (characters_lines (frame s))).
Proof.
  unfold analyze_character_involvement, bind, get_frame, characters_lines.
  rewrite write_run.
  rewrite (for_each_write (fun '(char, count) => Character_count char count));
    [|intros [w c] s'; reflexivity].
  rewrite add_lines_app. reflexivity.
Qed.

Lemma analyze_important_events_run s :
  analyze_important_events s =
  (inl tt, add_lines s (important_lines (frame s))).
Proof.
  unfold analyze_important_events, bind, get_frame, important_lines.
  rewrite !write_run, !add_lines_app. reflexivity.
Qed.

Lemma analyze_temporal_patterns_raises s e :
  to_datetime (map Date (frame s)) = inr e ->
  analyze_temporal_patterns s = (inr e, s).
Proof.
  intros H. unfold analyze_temporal_patterns, bind, get_frame, lift.
  rewrite H. reflexivity.
Qed.

Lemma analyze_temporal_patterns_run s column :
  to_datetime (map Date (frame s)) = inl column ->
  analyze_temporal_patterns s =
  (inl tt,
   add_lines {| frame := assign_Date (frame s) column;
                report_file := report_file s |}
             (temporal_lines (assign_Date (frame s) column))).
Proof.
  intros H. unfold analyze_temporal_patterns, bind, get_frame, lift.
  rewrite H. unfold ret, put_frame. cbn [frame report_file].
  rewrite write_run.
  rewrite (for_each_write (fun '(year, count) => Year_count year count));
    [|intros [y c] s'; reflexivity].
  unfold temporal_lines.
  destruct (1 <? length _)%nat.
  - rewrite write_run, !add_lines_app. reflexivity.
  - unfold ret. rewrite !add_lines_app, app_nil_r. reflexivity.
Qed.

Lemma analyze_graph_structure_run G s :
  analyze_graph_structure G s =
  (structure_outcome G, add_lines s (structure_lines G)).
Proof.
  unfold analyze_graph_structure, bind. rewrite !write_run.
  rewrite (for_each_write
             (fun '(node_id, centrality) => Central_event node_id centrality));
    [|intros [n c] s'; reflexivity].
  rewrite !write_run, !add_lines_app.
  unfold structure_lines, structure_outcome, loop_lines, chain_lines,
    component_lines.
  destruct (simple_cycles G) as [|c0 cs] eqn:Ec.
  - unfold ret.
    destruct (longest_path G) as [[|v p]|];
      rewrite ?write_run, ?add_lines_app;
      destruct (strongly_connected_components G) as [|c r];
      unfold raise; rewrite ?write_run, ?add_lines_app;
      repeat (simpl; rewrite <- ?app_assoc); reflexivity.
  - rewrite write_run.
    rewrite (for_each_write (fun '(i, cycle) => Loop i cycle));
      [|intros [i c] s'; reflexivity].
    rewrite !add_lines_app.
    destruct (longest_path G) as [[|v p]|]; unfold ret;
      rewrite ?write_run, ?add_lines_app;
      destruct (strongly_connected_components G) as [|c r];
      unfold raise; rewrite ?write_run, ?add_lines_app;
      repeat (simpl; rewrite <- ?app_assoc); reflexivity.
Qed.

(** ** The rows that the second loop skips leave no trace *)

Lemma add_edge_row_incomplete G e : complete e = false -> add_edge_row G e = G.
Proof.
  unfold complete, add_edge_row.
  destruct (Source e), (Target e); simpl; congruence.
Qed.

Lemma fold_add_edge_row_inserted rows : forall G,
  fold_left add_edge_row rows G = fold_left add_edge_row (inserted_rows rows) G.
Proof.
  unfold inserted_rows.
  induction rows as [|e r IH]; simpl; intros G; [reflexivity|].
  destruct (complete e) eqn:E; simpl.
  - apply IH.
  - rewrite add_edge_row_incomplete by assumption. apply IH.
Qed.

Lemma create_graph_inserted events rows :
  create_graph events rows = create_graph events (inserted_rows rows).
Proof. unfold create_graph. apply fold_add_edge_row_inserted. Qed.

Lemma main_inserted events rows s :
  main events rows s = main events (inserted_rows rows) s.
Proof.
  unfold main, bind. cbn [write put_frame get_frame frame fst snd].
  now rewrite <- create_graph_inserted.
Qed.

(** ** The longest causal chain *)

Lemma dict_set_not_nil {K V} (eqb : K -> K -> bool) (d : dict K V) k v :
  dict_set eqb d k v <> [].
Proof. destruct d as [|[k' v'] r]; simpl; [|destruct (eqb k k')]; discriminate. Qed.

Lemma fold_longest_to_not_nil G order : forall dist,
  dist <> [] \/ order <> [] -> fold_left (longest_to G) order dist <> [].
Proof.
  induction order as [|v r IH]; simpl; intros dist H.
  - destruct H; congruence.
  - apply IH. left. apply dict_set_not_nil.
Qed.

Lemma walk_back_prefix fuel dist : forall u v path,
  exists rest, walk_back fuel dist u v path = path ++ rest.
Proof.
  induction fuel as [|f IH]; simpl; intros u v path.
  - exists []. now rewrite app_nil_r.
  - destruct (match u with Some u' => u' =? v | None => false end).
    + exists []. now rewrite app_nil_r.
    + destruct (IH (Some v) (snd (lookup dist v (0%nat, v))) (path ++ [v]))
        as [rest ->].
      exists ([v] ++ rest). now rewrite app_assoc.
Qed.

Lemma split_degrees_nil (degrees : list (node * nat)) :
  filter (fun vd => (0 <? snd vd)%nat) degrees = [] ->
  keys (filter (fun vd => (snd vd =? 0)%nat) degrees) = [] ->
  degrees = [].
Proof.
  destruct degrees as [|[v d] r]; [reflexivity|]. simpl.
  destruct d; simpl; discriminate.
Qed.

Lemma topological_sort_not_nil G order :
  topological_sort G = Topo_order order -> nodes G <> [] -> order <> [].
Proof.
  unfold topological_sort.
  set (degrees := map (fun v => (v, in_degree G v)) (nodes G)).
  intros H N.
  destruct (keys (filter (fun vd => (snd vd =? 0)%nat) degrees)) as [|z zs] eqn:Z.
  - simpl in H.
    destruct (filter (fun vd => (0 <? snd vd)%nat) degrees) eqn:F;
      [|discriminate].
    apply split_degrees_nil in F; [|assumption].
    unfold degrees in F. apply map_eq_nil in F. contradiction.
  - simpl in H.
    destruct (next_generation G _ (z :: zs)) as [m' z'].
    destruct (generations _ G m' z'); inversion H. discriminate.
Qed.

(** On a graph with nodes that passes the acyclicity test, the longest
    path has a node. *)
Lemma dag_longest_path_not_nil G :
  is_directed_acyclic_graph G = true -> nodes G <> [] ->
  dag_longest_path G <> [].
Proof.
  unfold is_directed_acyclic_graph, dag_longest_path. intros D N.
  destruct (nodes G) as [|n ns] eqn:EN; [congruence|].
  destruct (topological_sort G) as [order| |] eqn:T; try discriminate.
  assert (O : order <> []).
  { apply (topological_sort_not_nil G); [assumption|]. rewrite EN. discriminate. }
  pose proof (fold_longest_to_not_nil G order [] (or_intror O)) as F.
  destruct (fold_left (longest_to G) order []) as [|[x d] r] eqn:EF;
    [congruence|].
  cbn [keys map fst].
  set (v := max_by _ x (map fst r)).
  cbn [walk_back].
  destruct (walk_back_prefix (number_of_nodes G) ((x, d) :: r) (Some v)
              (snd (lookup ((x, d) :: r) v (0%nat, v))) ([] ++ [v]))
    as [rest ->].
  intros E. apply (f_equal (@rev node)) in E.
  rewrite rev_involutive in E. simpl in E. discriminate.
Qed.

Lemma chain_lines_spec G :
  chain_lines G =
  if is_directed_acyclic_graph G then
    match dag_longest_path G with
    | [] => []
    | path => [Longest_chain (length path); Path path]
    end
  else [].
Proof.
  unfold chain_lines, longest_path.
  destruct (is_directed_acyclic_graph G); [|reflexivity].
  now destruct (dag_longest_path G).
Qed.

Lemma loop_lines_no_chain G :
  Forall (fun l => mentions_longest_chain l = false) (loop_lines G).
Proof.
  unfold loop_lines. destruct (simple_cycles G) as [|c cs]; constructor.
  - reflexivity.
  - apply Forall_map, Forall_forall. now intros [i cy] _.
Qed.

Lemma component_lines_no_chain G :
  Forall (fun l => mentions_longest_chain l = false) (component_lines G).
Proof.
  unfold component_lines.
  destruct (strongly_connected_components G); repeat constructor.
Qed.

(** Only [chain_lines] can put a line of the longest-chain metric into the
    structural section. *)
Lemma structure_lines_chain G l :
  In l (structure_lines G) -> mentions_longest_chain l = true ->
  In l (chain_lines G).
Proof.
  unfold structure_lines. rewrite !in_app_iff.
  intros [H|[H|[H|[H|[H|H]]]]] M; try assumption; exfalso.
  - simpl in H. decompose [or] H; subst; try discriminate; assumption.
  - apply in_map_iff in H. destruct H as ([n c] & <- & _). discriminate.
  - simpl in H. decompose [or] H; subst; try discriminate; assumption.
  - pose proof (loop_lines_no_chain G) as F. rewrite Forall_forall in F.
    specialize (F l H). congruence.
  - pose proof (component_lines_no_chain G) as F. rewrite Forall_forall in F.
    specialize (F l H). congruence.
Qed.

Lemma In_chain_lines_structure G l :
  In l (chain_lines G) -> In l (structure_lines G).
Proof. unfold structure_lines. rewrite !in_app_iff. tauto. Qed.

(** ** [sorted(..., reverse=True)] is a stable descending sort *)

Lemma precedes_cons {A} (l : list A) x a b :
  precedes l a b -> precedes (x :: l) a b.
Proof.
  intros (l1 & l2 & l3 & ->). now exists (x :: l1), l2, l3.
Qed.

Lemma precedes_head {A} (l : list A) x b : In b l -> precedes (x :: l) x b.
Proof.
  intros H. apply in_split in H. destruct H as (l2 & l3 & ->).
  now exists [], l2, l3.
Qed.

Lemma precedes_map {A B} (f : A -> B) l a b :
  precedes l a b -> precedes (map f l) (f a) (f b).
Proof.
  intros (l1 & l2 & l3 & ->).
  exists (map f l1), (map f l2), (map f l3).
  now rewrite map_app, map_cons, map_app, map_cons.
Qed.

Lemma firstn_In {A} n (l : list A) x : In x (firstn n l) -> In x l.
Proof.
  intros H. rewrite <- (firstn_skipn n l). apply in_or_app. now left.
Qed.

Lemma StronglySorted_firstn {A} (R : A -> A -> Prop) n : forall l,
  StronglySorted R l -> StronglySorted R (firstn n l).
Proof.
  induction n as [|n IH]; intros l H; simpl; [constructor|].
  destruct l as [|a l]; [constructor|].
  inversion H; subst. constructor; [now apply IH|].
  apply Forall_forall. intros x Hx.
  rewrite Forall_forall in H3. apply H3. eapply firstn_In; eassumption.
Qed.

Section SortedReverseFacts.
Context {A : Type}.
Variable lt : A -> A -> bool.
Hypothesis lt_asym : forall a b, lt a b = true -> lt b a = false.
Hypothesis lt_negtrans :
  forall a b c, lt a b = false -> lt b c = false -> lt a c = false.

Lemma In_insert_desc x s z : In z (insert_desc lt x s) <-> z = x \/ In z s.
Proof.
  induction s as [|y r IH]; simpl; [intuition congruence|].
  destruct (lt x y); simpl; rewrite ?IH; intuition congruence.
Qed.

Lemma insert_desc_Permutation x s : Permutation (insert_desc lt x s) (x :: s).
Proof.
  induction s as [|y r IH]; simpl; [reflexivity|].
  destruct (lt x y); [|reflexivity].
  rewrite IH. apply perm_swap.
Qed.

Lemma sorted_reverse_Permutation l : Permutation (sorted_reverse lt l) l.
Proof.
  induction l as [|x r IH]; simpl; [reflexivity|].
  rewrite insert_desc_Permutation. now constructor.
Qed.

Lemma ranks_before_cons l x a b : ranks_before lt l a b -> ranks_before lt (x :: l) a b.
Proof.
  intros [H1 [H2|H2]]; split; auto. right. now apply precedes_cons.
Qed.

Lemma insert_desc_sorted xs x : forall s,
  (forall y, In y s -> In y xs) ->
  StronglySorted (ranks_before lt xs) s ->
  StronglySorted (ranks_before lt (x :: xs)) (insert_desc lt x s).
Proof using lt_asym lt_negtrans.
  induction s as [|y r IH]; intros Hin Hs; simpl.
  - repeat constructor.
  - inversion Hs as [|? ? Hr Hy]; subst.
    assert (Hr' : StronglySorted (ranks_before lt (x :: xs)) r).
    { clear - Hr. induction Hr; constructor; [assumption|].
      eapply Forall_impl; [|eassumption].
      intros z. apply ranks_before_cons. }
    assert (Hy' : Forall (ranks_before lt (x :: xs) y) r).
    { eapply Forall_impl; [|eassumption]. intros z. apply ranks_before_cons. }
    destruct (lt x y) eqn:E.
    + constructor; [apply IH; [intros z Hz; apply Hin; now right|assumption]|].
      apply Forall_forall. intros z Hz. apply In_insert_desc in Hz.
      destruct Hz as [->|Hz].
      * split; [now apply lt_asym|now left].
      * rewrite Forall_forall in Hy'. now apply Hy'.
    + constructor; [constructor; assumption|].
      constructor.
      * split; [assumption|]. right. apply precedes_head, Hin. now left.
      * apply Forall_forall. intros z Hz.
        rewrite Forall_forall in Hy. destruct (Hy z Hz) as [Hyz _].
        split; [eapply lt_negtrans; eassumption|].
        right. apply precedes_head, Hin. now right.
Qed.

(** The result of [sorted(l, reverse=True)] is in descending order of the
    key, and elements with equal keys keep the order they have in [l]. *)
Lemma sorted_reverse_sorted l :
  StronglySorted (ranks_before lt l) (sorted_reverse lt l).
Proof using lt_asym lt_negtrans.
  induction l as [|x r IH]; simpl; [constructor|].
  apply insert_desc_sorted; [|assumption].
  intros y Hy. eapply Permutation_in; [apply sorted_reverse_Permutation|exact Hy].
Qed.
End SortedReverseFacts.

Lemma Qltb_lt x y : Qltb x y = true <-> (x < y)%Q.
Proof.
  unfold Qltb. rewrite negb_true_iff, <- not_true_iff_false, Qle_bool_iff.
  split; [apply Qnot_le_lt|apply Qlt_not_le].
Qed.

Lemma Qltb_ge x y : Qltb x y = false <-> (y <= x)%Q.
Proof.
  unfold Qltb. rewrite negb_false_iff. apply Qle_bool_iff.
Qed.

Lemma centrality_lt_asym a b :
  centrality_lt a b = true -> centrality_lt b a = false.
Proof.
  unfold centrality_lt. rewrite Qltb_lt, Qltb_ge. apply Qlt_le_weak.
Qed.

Lemma centrality_lt_negtrans a b c :
  centrality_lt a b = false -> centrality_lt b c = false ->
  centrality_lt a c = false.
Proof.
  unfold centrality_lt. rewrite !Qltb_ge. intros H1 H2.
  eapply Qle_trans; eassumption.
Qed.

(** ** The betweenness dictionary lists the nodes in the order of the graph *)

Lemma create_graph_well_formed events rows :
  well_formed (create_graph events rows).
Proof. intros u v. apply edges_between_nodes. Qed.

Lemma successors_In G v w : In w (successors G v) <-> In (v, w) (edges G).
Proof.
  unfold successors. rewrite in_map_iff. split.
  - intros ([a b] & <- & H). apply filter_In in H. destruct H as [H E].
    simpl in *. apply Z.eqb_eq in E. now subst.
  - intros H. exists (v, w). split; [reflexivity|].
    apply filter_In. split; [assumption|]. simpl. apply Z.eqb_refl.
Qed.

Lemma predecessors_In G v u : In u (predecessors G v) <-> In (u, v) (edges G).
Proof.
  unfold predecessors. rewrite in_map_iff. split.
  - intros ([a b] & <- & H). apply filter_In in H. destruct H as [H E].
    simpl in *. apply Z.eqb_eq in E. now subst.
  - intros H. exists (u, v). split; [reflexivity|].
    apply filter_In. split; [assumption|]. simpl. apply Z.eqb_refl.
Qed.

Section BfsStaysInGraph.
Variable G : DiGraph.
Hypothesis wf : well_formed G.

Lemma bfs_visit_in_graph v Dv sigmav st w :
  In w (successors G v) -> in_graph G st -> in_graph G (bfs_visit v Dv sigmav st w).
Proof using wf.
  intros Hw [HS HQ]. unfold bfs_visit.
  assert (Nw : In w (nodes G)).
  { apply successors_In in Hw. now apply wf in Hw. }
  destruct (dict_mem Z.eqb (bfs_D st) w);
    match goal with |- context [if ?c then _ else _] => destruct c end;
    split; simpl; try assumption;
    apply Forall_app; split; try assumption; repeat constructor; assumption.
Qed.

Lemma fold_bfs_visit_in_graph v Dv sigmav ws : forall st,
  (forall w, In w ws -> In w (successors G v)) ->
  in_graph G st -> in_graph G (fold_left (bfs_visit v Dv sigmav) ws st).
Proof using wf.
  induction ws as [|w r IH]; simpl; intros st H I; [assumption|].
  apply IH; [intros x Hx; apply H; now right|].
  apply bfs_visit_in_graph; [apply H; now left|assumption].
Qed.

Lemma bfs_loop_in_graph fuel : forall st,
  in_graph G st -> in_graph G (bfs_loop fuel G st).
Proof using wf.
  induction fuel as [|f IH]; simpl; intros st I; [assumption|].
  destruct (bfs_Q st) as [|v q] eqn:E; [assumption|].
  apply IH, fold_bfs_visit_in_graph; [auto|].
  destruct I as [HS HQ]. rewrite E in HQ. inversion HQ; subst.
  split; simpl; [|assumption].
  apply Forall_app. split; [assumption|]. repeat constructor. assumption.
Qed.

Lemma shortest_path_basic_in_graph s :
  In s (nodes G) ->
  Forall (fun x => In x (nodes G)) (bfs_S (single_source_shortest_path_basic G s)).
Proof using wf.
  intros H. apply bfs_loop_in_graph. split; simpl; repeat constructor.
  assumption.
Qed.
End BfsStaysInGraph.

Lemma keys_fold_accumulate_step P sigma s l : forall acc,
  Forall (fun w => In w (keys (fst acc))) l ->
  keys (fst (fold_left (accumulate_step P sigma s) l acc)) = keys (fst acc).
Proof.
  induction l as [|w r IH]; intros [b delta] H; [reflexivity|].
  inversion H; subst. cbn [fold_left].
  assert (E : keys (fst (accumulate_step P sigma s (b, delta) w)) = keys b).
  { unfold accumulate_step. destruct (w =? s); [reflexivity|]. simpl.
    now apply (keys_dict_set_old Z.eqb Z.eqb_spec). }
  rewrite IH.
  - exact E.
  - eapply Forall_impl; [|eassumption]. intros x Hx. rewrite E. exact Hx.
Qed.

Lemma keys_accumulate_basic b st s :
  Forall (fun w => In w (keys b)) (bfs_S st) ->
  keys (accumulate_basic b st s) = keys b.
Proof.
  intros H. unfold accumulate_basic.
  rewrite keys_fold_accumulate_step; [reflexivity|].
  apply Forall_rev. assumption.
Qed.

Lemma keys_rescale b n : keys (rescale b n) = keys b.
Proof.
  unfold rescale. destruct (n <=? 2)%nat; [reflexivity|].
  unfold keys. rewrite map_map. apply map_ext. now intros [v q].
Qed.

(** [betweenness.items()] comes in the order of [G.nodes()]. *)
Lemma keys_betweenness_centrality G :
  well_formed G -> keys (betweenness_centrality G) = nodes G.
Proof.
  intros wf. unfold betweenness_centrality. rewrite keys_rescale.
  assert (H : forall l b,
             (forall s, In s l -> In s (nodes G)) -> keys b = nodes G ->
             keys (fold_left
                     (fun betweenness s =>
                        accumulate_basic betweenness
                          (single_source_shortest_path_basic G s) s) l b)
             = nodes G).
  { induction l as [|s r IH]; simpl; intros b Hl Hb; [assumption|].
    apply IH; [intros x Hx; apply Hl; now right|].
    rewrite keys_accumulate_basic; [assumption|].
    rewrite Hb. apply shortest_path_basic_in_graph; [assumption|].
    apply Hl. now left. }
  apply H; [auto|].
  unfold keys. rewrite map_map. simpl. apply map_id.
Qed.

Lemma StronglySorted_weaken {A} (R R' : A -> A -> Prop) l :
  (forall a b, R a b -> R' a b) -> StronglySorted R l -> StronglySorted R' l.
Proof.
  intros H S. induction S; constructor; [assumption|].
  eapply Forall_impl; [|eassumption]. intros b. apply H.
Qed.

(** ** A date that cannot be parsed *)

(** [to_datetime] raises at the first cell that it cannot convert. *)
Lemma to_datetime_from_raises column : forall start i c,
  nth_error column i = Some c -> to_datetime_cell c = None ->
  exists first c',
    (first <= i)%nat /\
    nth_error column first = Some c' /\ to_datetime_cell c' = None /\
    to_datetime_from start column = inr (ValueError_time_data (start + first)).
Proof.
  induction column as [|c0 r IH]; intros start i c Hn Hc.
  - destruct i; discriminate.
  - simpl. destruct (to_datetime_cell c0) as [c0'|] eqn:E0.
    + destruct i as [|i]; [simpl in Hn; congruence|].
      simpl in Hn.
      destruct (IH (S start) i c Hn Hc) as (first & c' & L & N & C & R).
      exists (S first), c'. rewrite R.
      repeat split; [lia|assumption|assumption|].
      f_equal. f_equal. lia.
    + exists 0%nat, c0. repeat split; [lia|assumption|].
      f_equal. f_equal. lia.
Qed.

Lemma to_datetime_from_length column : forall start parsed,
  to_datetime_from start column = inl parsed -> length parsed = length column.
Proof.
  induction column as [|c r IH]; simpl; intros start parsed H.
  - now inversion H.
  - destruct (to_datetime_cell c); [|discriminate].
    destruct (to_datetime_from (S start) r) eqn:E; [|discriminate].
    inversion H; subst. simpl. f_equal. eapply IH. eassumption.
Qed.

(** The run until the temporal analysis raises. *)
Lemma main_raises_in_temporal events rows e :
  to_datetime (map Date events) = inr e ->
  main events rows start =
  (inr e, {| frame := events;
             report_file := Title :: Rule :: worlds_lines events |}).
Proof.
  intros H. unfold main, bind.
  cbn [write put_frame get_frame frame report_file start app].
  rewrite analyze_worlds_run.
  rewrite (analyze_temporal_patterns_raises _ e); [reflexivity|].
  exact H.
Qed.

(** ** The analyzers and the shared frame *)

Lemma same_columns_refl f : same_columns f f.
Proof. repeat split. Qed.

Lemma same_columns_trans f g h :
  same_columns f g -> same_columns g h -> same_columns f h.
Proof.
  unfold same_columns. intros (A1 & A2 & A3 & A4 & A5 & A6)
                              (B1 & B2 & B3 & B4 & B5 & B6).
  repeat split; congruence.
Qed.

Lemma same_columns_length f g : same_columns f g -> length f = length g.
Proof.
  intros (H & _). apply (f_equal (@length node)) in H.
  now rewrite !length_map in H.
Qed.

Lemma assign_Date_same_columns f : forall column,
  same_columns f (assign_Date f column).
Proof.
  induction f as [|e r IH]; intros [|c cs]; simpl;
    try apply same_columns_refl.
  destruct (IH cs) as (A1 & A2 & A3 & A4 & A5 & A6).
  unfold same_columns. simpl. repeat split; f_equal; assumption.
Qed.

Lemma map_Date_assign_Date f : forall column,
  length column = length f -> map Date (assign_Date f column) = column.
Proof.
  induction f as [|e r IH]; intros [|c cs] H; simpl in *;
    try reflexivity; try discriminate.
  f_equal. apply IH. lia.
Qed.

Lemma assign_Date_same f : assign_Date f (map Date f) = f.
Proof.
  induction f as [|e r IH]; simpl; [reflexivity|].
  rewrite IH. now destruct e.
Qed.

Lemma to_datetime_cell_idempotent c c' :
  to_datetime_cell c = Some c' -> to_datetime_cell c' = Some c'.
Proof.
  destruct c as [|text|y m d]; simpl.
  - intros H. now inversion H.
  - destruct (is_nat_string text); [intros H; now inversion H|].
    unfold strptime. intros H.
    repeat match type of H with
           | match ?x with _ => _ end = _ => destruct x; try discriminate
           | (if ?x then _ else _) = _ => destruct x; try discriminate
           end;
      now inversion H.
  - intros H. now inversion H.
Qed.

(** Parsing a parsed column changes nothing. *)
Lemma to_datetime_from_idempotent column : forall start start' parsed,
  to_datetime_from start column = inl parsed ->
  to_datetime_from start' parsed = inl parsed.
Proof.
  induction column as [|c r IH]; simpl; intros start start' parsed H.
  - now inversion H.
  - destruct (to_datetime_cell c) as [c'|] eqn:E; [|discriminate].
    destruct (to_datetime_from (S start) r) as [r'|] eqn:R; [|discriminate].
    inversion H; subst. simpl.
    rewrite (to_datetime_cell_idempotent _ _ E).
    now rewrite (IH _ (S start') _ R).
Qed.

(** What one analyzer does to the frame. *)
Lemma run_analyzer_frame a s :
  match run_analyzer a s with
  | (inl _, s1) =>
      same_columns (frame s) (frame s1) /\
      to_datetime (map Date (frame s1)) = to_datetime (map Date (frame s)) /\
      (a <> Pass_temporal -> frame s1 = frame s) /\
      (a = Pass_temporal ->
       to_datetime (map Date (frame s)) = inl (map Date (frame s1)))
  | (inr _, s1) => s1 = s
  end.
Proof.
  assert (Same : forall ls,
             same_columns (frame s) (frame (add_lines s ls)) /\
             to_datetime (map Date (frame (add_lines s ls))) =
               to_datetime (map Date (frame s)) /\
             (a <> Pass_temporal -> frame (add_lines s ls) = frame s)).
  { intros ls. repeat split. }
  destruct a; cbn [run_analyzer];
    rewrite ?analyze_worlds_run, ?analyze_character_involvement_run,
            ?analyze_important_events_run;
    try (destruct (Same (worlds_lines (frame s))) as (S1 & S2 & S3);
         repeat split; [discriminate]);
    try (destruct (Same (characters_lines (frame s))) as (S1 & S2 & S3);
         repeat split; [discriminate]);
    try (destruct (Same (important_lines (frame s))) as (S1 & S2 & S3);
         repeat split; [discriminate]).
  clear Same.
  destruct (to_datetime (map Date (frame s))) as [column|e] eqn:E.
  - rewrite (analyze_temporal_patterns_run s column E). cbn [add_lines frame].
    assert (L : length column = length (frame s)).
    { unfold to_datetime in E. apply to_datetime_from_length in E.
      now rewrite length_map in E. }
    rewrite (map_Date_assign_Date _ _ L).
    repeat split; try apply assign_Date_same_columns; try congruence.
    unfold to_datetime in *. eapply to_datetime_from_idempotent. eassumption.
  - now rewrite (analyze_temporal_patterns_raises s e E).
Qed.

(** What one analyzer reports depends on the columns other than [Date]
    and on the parsed dates only. *)
Lemma run_analyzer_report a s s' :
  same_columns (frame s) (frame s') ->
  to_datetime (map Date (frame s')) = to_datetime (map Date (frame s)) ->
  fst (run_analyzer a s') = fst (run_analyzer a s) /\
  written (run_analyzer a) s' = written (run_analyzer a) s.
Proof.
  intros C D. pose proof (same_columns_length _ _ C) as Len.
  destruct C as (C1 & C2 & C3 & C4 & C5 & C6).
  destruct a; cbn [run_analyzer].
  - rewrite !analyze_worlds_run. split; [reflexivity|].
    rewrite !(written_add_lines _ _ _ _ (analyze_worlds_run _)).
    unfold worlds_lines. now rewrite C6.
  - pose proof (eq_refl (to_datetime (map Date (frame s')))) as E'.
    rewrite D in E' at 2.
    destruct (to_datetime (map Date (frame s))) as [column|e] eqn:E.
    + assert (L : length column = length (frame s)).
      { unfold to_datetime in E. apply to_datetime_from_length in E.
        now rewrite length_map in E. }
      rewrite (written_of_report _ _ _ _ _
                 (analyze_temporal_patterns_run s column E) eq_refl).
      rewrite (written_of_report _ _ _ _ _
                 (analyze_temporal_patterns_run s' column E') eq_refl).
      rewrite (analyze_temporal_patterns_run s column E).
      rewrite (analyze_temporal_patterns_run s' column E').
      split; [reflexivity|].
      unfold temporal_lines.
      rewrite !map_Date_assign_Date by congruence. reflexivity.
    + rewrite (written_of_report _ _ _ _ []
                 (analyze_temporal_patterns_raises s e E))
        by now rewrite app_nil_r.
      rewrite (written_of_report _ _ _ _ []
                 (analyze_temporal_patterns_raises s' e E'))
        by now rewrite app_nil_r.
      rewrite (analyze_temporal_patterns_raises s e E).
      rewrite (analyze_temporal_patterns_raises s' e E').
      split; reflexivity.
  - rewrite !analyze_character_involvement_run. split; [reflexivity|].
    rewrite !(written_add_lines _ _ _ _ (analyze_character_involvement_run _)).
    unfold characters_lines. now rewrite C5.
  - rewrite !analyze_important_events_run. split; [reflexivity|].
    rewrite !(written_add_lines _ _ _ _ (analyze_important_events_run _)).
    unfold important_lines. now rewrite C3, C4.
Qed.

(** On a frame whose dates are parsed no analyzer changes anything. *)
Lemma run_analyzer_parsed a s r s1 :
  to_datetime (map Date (frame s)) = inl (map Date (frame s)) ->
  run_analyzer a s = (r, s1) -> frame s1 = frame s.
Proof.
  intros P H. pose proof (run_analyzer_frame a s) as F. rewrite H in F.
  destruct r as [u|e]; [|now subst].
  destruct F as (_ & _ & N & T).
  destruct a; try (apply N; discriminate).
  cbn [run_analyzer] in H.
  rewrite (analyze_temporal_patterns_run s _ P) in H.
  inversion H; subst. cbn [add_lines frame]. apply assign_Date_same.
Qed.

Lemma run_analyzers_parsed order : forall s s',
  to_datetime (map Date (frame s)) = inl (map Date (frame s)) ->
  run_analyzers order s = (inl tt, s') -> frame s' = frame s.
Proof.
  unfold run_analyzers.
  induction order as [|a r IH]; intros s s' P H.
  - simpl in H. now inversion H.
  - simpl in H. unfold bind in H.
    destruct (run_analyzer a s) as [[[]|e] s1] eqn:E; [|discriminate].
    pose proof (run_analyzer_parsed a s _ _ P E) as F.
    rewrite <- F. apply IH; [|assumption]. now rewrite F.
Qed.

(** What a sequence of analyzers that runs to its end does to the frame. *)
Lemma run_analyzers_frame order : forall s s',
  run_analyzers order s = (inl tt, s') ->
  same_columns (frame s) (frame s') /\
  to_datetime (map Date (frame s')) = to_datetime (map Date (frame s)) /\
  (~ In Pass_temporal order -> frame s' = frame s) /\
  (In Pass_temporal order ->
   to_datetime (map Date (frame s)) = inl (map Date (frame s'))).
Proof.
  unfold run_analyzers.
  induction order as [|a r IH]; intros s s' H.
  - simpl in H. inversion H; subst.
    split; [apply same_columns_refl|].
    split; [reflexivity|]. split; [reflexivity|intros []].
  - simpl in H. unfold bind in H.
    pose proof (run_analyzer_frame a s) as F.
    destruct (run_analyzer a s) as [[[]|e] s1]; [|discriminate].
    destruct F as (C & D & N & T).
    destruct (IH _ _ H) as (C' & D' & N' & T').
    split; [eapply same_columns_trans; eassumption|].
    split; [congruence|]. split.
    + intros NI. rewrite N', N; [reflexivity| |].
      * intros ->. apply NI. now left.
      * intros I. apply NI. now right.
    + intros [->|I].
      * specialize (T eq_refl). rewrite T. do 2 f_equal. symmetry.
        apply (run_analyzers_parsed r); [|exact H].
        rewrite D. exact T.
      * rewrite <- D. now apply T'.
Qed.

(** ** Self-loops *)

Lemma has_edge_In G u v : has_edge G u v = true <-> In (u, v) (edges G).
Proof. unfold has_edge, edges. apply (dict_mem_In pair_eqb pair_eqb_spec). Qed.

Lemma self_loop_out_degree G v : has_edge G v v = true -> out_degree G v <> 0%nat.
Proof.
  intros H. apply has_edge_In, successors_In in H. unfold out_degree.
  destruct (successors G v); [destruct H|discriminate].
Qed.

Lemma dead_ends_In G v :
  In v (dead_ends G) <-> In v (nodes G) /\ out_degree G v = 0%nat.
Proof. unfold dead_ends. now rewrite filter_In, Nat.eqb_eq. Qed.

Lemma circuits_from_length G allowed start fuel : forall path_rev v c,
  (1 <= length path_rev)%nat ->
  (v <> start -> 2 <= length path_rev)%nat ->
  In c (circuits_from fuel G allowed start path_rev v) ->
  (2 <= length c)%nat.
Proof.
  induction fuel as [|f IH]; simpl; intros path_rev v c L1 L2 H; [destruct H|].
  apply in_flat_map in H. destruct H as (w & _ & H).
  destruct (Z.eqb_spec w v) as [Ewv|Nwv]; [destruct H|].
  destruct (Z.eqb_spec w start) as [Ews|Nws].
  - destruct H as [<-|[]]. rewrite length_rev. apply L2. congruence.
  - destruct (mem w allowed && negb (mem w path_rev)); [|destruct H].
    apply (IH (w :: path_rev) w c); simpl; try lia. assumption.
Qed.

Lemma circuits_in_length G remaining c :
  In c (circuits_in G remaining) -> (2 <= length c)%nat.
Proof.
  induction remaining as [|s rest IH]; cbn [circuits_in]; [intros []|].
  rewrite in_app_iff. intros [H|H]; [|now apply IH].
  eapply circuits_from_length; [| |exact H]; simpl; [lia|congruence].
Qed.

Lemma NoDup_singletons (l : list node) :
  NoDup l -> NoDup (map (fun v => [v]) l).
Proof.
  induction 1 as [|x l Hx ND IH]; simpl; constructor; [|assumption].
  rewrite in_map_iff. intros (y & E & Hy). inversion E; subst. contradiction.
Qed.

Lemma self_loop_cycles_In G v :
  In [v] (self_loop_cycles G) <-> In v (nodes G) /\ has_edge G v v = true.
Proof.
  unfold self_loop_cycles. rewrite in_map_iff. split.
  - intros (x & E & H). inversion E; subst. now apply filter_In in H.
  - intros H. exists v. split; [reflexivity|]. now apply filter_In.
Qed.

(** A self-loop on a node of the graph is one of the cycles, once. *)
Lemma self_loop_counted_once G v :
  NoDup (nodes G) -> In v (nodes G) -> has_edge G v v = true ->
  count_occ (list_eq_dec Z.eq_dec) (simple_cycles G) [v] = 1%nat.
Proof.
  intros ND N H. unfold simple_cycles. rewrite count_occ_app.
  replace (count_occ _ (circuits_in G (nodes G)) [v]) with 0%nat.
  - rewrite Nat.add_0_r. apply NoDup_count_occ_1.
    + apply NoDup_singletons, NoDup_filter, ND.
    + now apply self_loop_cycles_In.
  - symmetry. apply count_occ_not_In. intros I.
    apply circuits_in_length in I. simpl in I. lia.
Qed.

Lemma In_structure_lines_counts G :
  In (Dead_end_count (length (dead_ends G))) (structure_lines G) /\
  In (Loop_count (length (simple_cycles G))) (structure_lines G).
Proof.
  unfold structure_lines. rewrite !in_app_iff. simpl. tauto.
Qed.

(** ** The topological sort ends within its fuel *)

Lemma length_dict_remove {V} (d : dict node V) k v :
  dict_get Z.eqb d k = Some v -> S (length (dict_remove d k)) = length d.
Proof.
  induction d as [|[k' v'] r IH]; simpl; [discriminate|].
  destruct (k =? k'); [reflexivity|]. intros H. simpl. f_equal. now apply IH.
Qed.

Lemma length_dict_set_old {V} (d : dict node V) k v v' :
  dict_get Z.eqb d k = Some v -> length (dict_set Z.eqb d k v') = length d.
Proof.
  induction d as [|[k0 v0] r IH]; simpl; [discriminate|].
  destruct (k =? k0); [reflexivity|]. intros H. simpl. f_equal. now apply IH.
Qed.

(** A node joins the next generation exactly when it leaves the map. *)
Lemma release_balance st child :
  (length (fst (release st child)) + length (snd (release st child)) =
   length (fst st) + length (snd st))%nat.
Proof.
  destruct st as [m z]. unfold release.
  destruct (dict_get Z.eqb m child) as [d|] eqn:E; [|reflexivity].
  destruct (d - 1 =? 0)%nat; simpl.
  - rewrite length_app. simpl.
    pose proof (length_dict_remove m child d E). lia.
  - now rewrite (length_dict_set_old m child d).
Qed.

Lemma fold_release_balance children : forall st,
  (length (fst (fold_left release children st))
   + length (snd (fold_left release children st)) =
   length (fst st) + length (snd st))%nat.
Proof.
  induction children as [|c r IH]; intros st; simpl; [reflexivity|].
  now rewrite IH, release_balance.
Qed.

Lemma next_generation_balance G m generation :
  (length (fst (next_generation G m generation))
   + length (snd (next_generation G m generation)) = length m)%nat.
Proof.
  unfold next_generation.
  assert (H : forall l st,
             (length (fst (fold_left
                             (fun st node =>
                                fold_left release (successors G node) st) l st))
              + length (snd (fold_left
                               (fun st node =>
                                  fold_left release (successors G node) st) l st))
              = length (fst st) + length (snd st))%nat).
  { induction l as [|x r IH]; intros st; simpl; [reflexivity|].
    now rewrite IH, fold_release_balance. }
  rewrite H. simpl. lia.
Qed.

Lemma generations_no_zero fuel G m :
  generations fuel G m [] <> Out_of_fuel.
Proof. destruct fuel, m; discriminate. Qed.

Lemma generations_terminates fuel G : forall m z,
  (length m < fuel)%nat -> generations fuel G m z <> Out_of_fuel.
Proof.
  induction fuel as [|f IH]; intros m z L; [lia|].
  destruct z as [|x z]; [apply generations_no_zero|].
  cbn [generations].
  pose proof (next_generation_balance G m (x :: z)) as B.
  destruct (next_generation G m (x :: z)) as [m' z']. simpl in B.
  assert (N : generations f G m' z' <> Out_of_fuel).
  { destruct z' as [|y z']; [apply generations_no_zero|].
    apply IH. simpl in B. lia. }
  destruct (generations f G m' z'); congruence.
Qed.

(** [topological_sort] returns an order or finds a cycle: the fuel of the
    model is never used up. *)
Lemma topological_sort_terminates G : topological_sort G <> Out_of_fuel.
Proof.
  unfold topological_sort. apply generations_terminates.
  set (degrees := map (fun v => (v, in_degree G v)) (nodes G)).
  pose proof (filter_length_le (fun vd => (0 <? snd vd)%nat) degrees) as L.
  unfold degrees in L at 2. rewrite length_map in L.
  unfold number_of_nodes. lia.
Qed.


(** ** Sums of centralities *)

Lemma Qsum_app l1 l2 : (Qsum (l1 ++ l2) == Qsum l1 + Qsum l2)%Q.
Proof.
  induction l1 as [|x r IH]; simpl.
  - now rewrite Qplus_0_l.
  - rewrite IH. apply Qplus_assoc.
Qed.

Lemma Qsum_scale {A} (f : A -> Q) (c : Q) l :
  (Qsum (map (fun x => f x * c) l) == Qsum (map f l) * c)%Q.
Proof.
  induction l as [|x r IH]; simpl.
  - now rewrite Qmult_0_l.
  - rewrite IH. now rewrite Qmult_plus_distr_l.
Qed.

Lemma Qplus_nonneg (a b : Q) : (0 <= a -> 0 <= b -> 0 <= a + b)%Q.
Proof.
  intros Ha Hb. apply Qle_trans with (0 + 0)%Q; [discriminate|].
  now apply Qplus_le_compat.
Qed.

Lemma Qsum_nonneg l : Forall (fun q => 0 <= q)%Q l -> (0 <= Qsum l)%Q.
Proof.
  induction 1 as [|x r Hx _ IH]; simpl; [apply Qle_refl|].
  rewrite <- (Qplus_0_l 0). now apply Qplus_le_compat.
Qed.

Lemma Qsum_member_le l x :
  Forall (fun q => 0 <= q)%Q l -> In x l -> (x <= Qsum l)%Q.
Proof.
  induction 1 as [|y r Hy Hr IH]; simpl; [tauto|].
  intros [->|H].
  - rewrite <- (Qplus_0_r x) at 1. apply Qplus_le_compat; [apply Qle_refl|].
    now apply Qsum_nonneg.
  - rewrite <- (Qplus_0_l x). apply Qplus_le_compat; [assumption|].
    now apply IH.
Qed.

Lemma Q_of_nat_plus a b : (Q_of_nat (a + b) == Q_of_nat a + Q_of_nat b)%Q.
Proof. unfold Q_of_nat. now rewrite Nat2Z.inj_add, inject_Z_plus. Qed.

Lemma Q_of_nat_le a b : (a <= b)%nat -> (Q_of_nat a <= Q_of_nat b)%Q.
Proof. intros H. unfold Q_of_nat. rewrite <- Zle_Qle. lia. Qed.

Lemma Q_of_nat_nonneg a : (0 <= Q_of_nat a)%Q.
Proof. apply (Q_of_nat_le 0). lia. Qed.

Lemma Q_of_nat_pred a : (1 <= a)%nat -> (Q_of_nat a - 1 == Q_of_nat (a - 1))%Q.
Proof.
  intros H. unfold Q_of_nat. rewrite Nat2Z.inj_sub by assumption.
  unfold Z.sub, Qminus. rewrite inject_Z_plus, inject_Z_opp. reflexivity.
Qed.

Lemma Qsum_Q_of_nat {A} (f : A -> nat) l :
  (Qsum (map (fun x => Q_of_nat (f x)) l) == Q_of_nat (list_sum (map f l)))%Q.
Proof.
  induction l as [|x r IH]; simpl; [reflexivity|].
  now rewrite IH, Q_of_nat_plus.
Qed.

(** *** Every edge is counted at its target *)

Lemma list_sum_indicator_absent (l : list node) x :
  ~ In x l ->
  list_sum (map (fun v => if Z.eqb x v then 1%nat else 0%nat) l) = 0%nat.
Proof.
  induction l as [|y r IH]; simpl; [reflexivity|]. intros H.
  destruct (Z.eqb_spec x y) as [->|N]; [tauto|]. apply IH. tauto.
Qed.

Lemma list_sum_indicator (l : list node) x :
  NoDup l -> In x l ->
  list_sum (map (fun v => if Z.eqb x v then 1%nat else 0%nat) l) = 1%nat.
Proof.
  induction 1 as [|y r Hy ND IH]; simpl; [tauto|].
  intros [->|H].
  - rewrite Z.eqb_refl. rewrite list_sum_indicator_absent by assumption.
    reflexivity.
  - destruct (Z.eqb_spec x y) as [->|N]; [contradiction|]. now apply IH.
Qed.

Lemma list_sum_map_plus {A} (f g : A -> nat) l :
  list_sum (map (fun x => (f x + g x)%nat) l) =
  (list_sum (map f l) + list_sum (map g l))%nat.
Proof. induction l as [|x r IH]; simpl; [reflexivity|]. rewrite IH. lia. Qed.

Lemma sum_of_counts (ns : list node) (targets : list node) :
  NoDup ns -> (forall t, In t targets -> In t ns) ->
  list_sum (map (fun v => length (filter (fun t => Z.eqb t v) targets)) ns)
  = length targets.
Proof.
  intros ND. induction targets as [|t r IH]; intros H; simpl.
  - clear. induction ns as [|n ns IH]; simpl; [reflexivity|exact IH].
  - rewrite (map_ext _ (fun v => ((if Z.eqb t v then 1 else 0)
                                  + length (filter (fun t => Z.eqb t v) r))%nat)).
    + rewrite list_sum_map_plus, list_sum_indicator, IH; auto.
      * intros x Hx. apply H. now right.
      * apply H. now left.
    + intros v. now destruct (Z.eqb t v).
Qed.

Lemma length_filter_map {A B} (f : B -> bool) (g : A -> B) l :
  length (filter f (map g l)) = length (filter (fun x => f (g x)) l).
Proof.
  induction l as [|a r IH]; simpl; [reflexivity|].
  destruct (f (g a)); simpl; now rewrite IH.
Qed.

Lemma in_degree_targets G v :
  in_degree G v = length (filter (fun t => Z.eqb t v) (map snd (edges G))).
Proof.
  unfold in_degree, predecessors.
  now rewrite length_map, length_filter_map.
Qed.

(** The in-degrees of the nodes add up to the number of edges. *)
Lemma sum_in_degree G :
  well_formed G -> NoDup (nodes G) ->
  list_sum (map (in_degree G) (nodes G)) = number_of_edges G.
Proof.
  intros wf ND. unfold number_of_edges.
  rewrite <- (length_map snd (edges G)).
  rewrite <- (sum_of_counts (nodes G) (map snd (edges G)) ND).
  - apply f_equal, map_ext, in_degree_targets.
  - intros t Ht. apply in_map_iff in Ht. destruct Ht as ([u v] & <- & He).
    now apply wf in He.
Qed.

(** In exact arithmetic the in-degree centralities add up to the number
    of edges divided by [n - 1]. *)
Lemma sum_in_degree_centrality G :
  well_formed G -> NoDup (nodes G) -> (2 <= number_of_nodes G)%nat ->
  (Qsum (values (in_degree_centrality G)) ==
   Q_of_nat (number_of_edges G) / (Q_of_nat (number_of_nodes G) - 1))%Q.
Proof.
  intros wf ND N. unfold in_degree_centrality, degree_centrality.
  destruct (Nat.leb_spec (number_of_nodes G) 1); [lia|].
  unfold values. rewrite map_map. cbn [snd].
  rewrite (Qsum_scale (fun n => Q_of_nat (in_degree G n))).
  rewrite Qsum_Q_of_nat, sum_in_degree by assumption.
  unfold Qdiv. now rewrite Qmult_1_l.
Qed.


(** ** The breadth-first search of the betweenness computation *)

Lemma lookup_set_same {V} (d : dict node V) k v default :
  lookup (dict_set Z.eqb d k v) k default = v.
Proof. unfold lookup. now rewrite (dict_get_set_same Z.eqb Z.eqb_spec). Qed.

Lemma lookup_set_other {V} (d : dict node V) k k' v default :
  k' <> k -> lookup (dict_set Z.eqb d k v) k' default = lookup d k' default.
Proof.
  intros N. unfold lookup.
  now rewrite (dict_get_set_other Z.eqb Z.eqb_spec).
Qed.

Lemma lookup_const {V} (l : list node) (c : V) w :
  lookup (map (fun v => (v, c)) l) w c = c.
Proof.
  unfold lookup. induction l as [|x r IH]; simpl; [reflexivity|].
  destruct (w =? x); [reflexivity|exact IH].
Qed.

Lemma dict_mem_set {V} (d : dict node V) k v x :
  dict_mem Z.eqb (dict_set Z.eqb d k v) x = true <->
  x = k \/ dict_mem Z.eqb d x = true.
Proof.
  rewrite !(dict_mem_In Z.eqb Z.eqb_spec), (keys_dict_set Z.eqb Z.eqb_spec).
  destruct (dict_mem Z.eqb d k) eqn:E.
  - apply (dict_mem_In Z.eqb Z.eqb_spec) in E. intuition congruence.
  - rewrite in_app_iff. simpl. intuition congruence.
Qed.

Lemma StronglySorted_le_snoc (l : list nat) x :
  StronglySorted le l -> Forall (fun a => (a <= x)%nat) l ->
  StronglySorted le (l ++ [x]).
Proof.
  induction 1 as [|a r Hr IH Ha]; intros F; simpl.
  - repeat constructor.
  - inversion F; subst. constructor; [now apply IH|].
    apply Forall_app. split; [assumption|]. now repeat constructor.
Qed.

Lemma snoc_split {A} (l : list A) a p x sfx :
  l ++ [a] = p ++ x :: sfx ->
  (sfx = [] /\ l = p /\ a = x) \/
  (exists sfx', sfx = sfx' ++ [a] /\ l = p ++ x :: sfx').
Proof.
  intros H. destruct sfx as [|b t].
  - left. apply app_inj_tail in H. tauto.
  - right.
    assert (N : b :: t <> []) by discriminate.
    destruct (exists_last N) as (sfx' & c & E). rewrite E in *.
    rewrite app_comm_cons, app_assoc in H. apply app_inj_tail in H.
    destruct H as [H1 H2]. subst. exists sfx'. split; reflexivity.
Qed.

Section Bfs.
Variable G : DiGraph.
Variable s : node.

Lemma pre_in_S L st w v :
  bfs_ok s L st -> In w (seen st) -> In v (pre st w) -> In v (bfs_S st).
Proof.
  intros ok Hw Hv. unfold seen in Hw. apply in_app_iff in Hw.
  destruct Hw as [Hw|Hw].
  - apply in_split in Hw. destruct Hw as (p & sfx & E).
    rewrite E. apply in_or_app. left. eapply (ok_pre_S s L st ok); eassumption.
  - eapply (ok_pre_Q s L st ok); eassumption.
Qed.

Lemma S_not_Q L st u : bfs_ok s L st -> In u (bfs_S st) -> In u (bfs_Q st) -> False.
Proof.
  intros ok HS HQ. pose proof (ok_nodup s L st ok) as ND. unfold seen in ND.
  apply in_split in HS. destruct HS as (p & sfx & E). rewrite E in ND.
  rewrite <- app_assoc in ND. simpl in ND. apply NoDup_remove_2 in ND.
  apply ND. rewrite !in_app_iff. tauto.
Qed.

Lemma sigsum_ext st st' l :
  (forall u, In u l -> sig st' u = sig st u) -> sigsum st' l = sigsum st l.
Proof. intros H. unfold sigsum. f_equal. now apply map_ext_in. Qed.

(** *** A node is discovered *)

Lemma level_discover_other L st w x :
  x <> w -> level (discover L st w) x = level st x.
Proof. intros N. unfold level. simpl. now apply lookup_set_other. Qed.

Lemma level_discover_same L st w : level (discover L st w) w = S L.
Proof. unfold level. simpl. apply lookup_set_same. Qed.

Lemma discover_ok L st w :
  bfs_ok s L st -> ~ In w (seen st) -> bfs_ok s L (discover L st w).
Proof.
  intros ok Nw.
  assert (Seen : seen (discover L st w) = seen st ++ [w]).
  { unfold seen. simpl. now rewrite app_assoc. }
  assert (Old : forall x, In x (seen st) -> x <> w) by (intros x Hx ->; tauto).
  constructor.
  - rewrite Seen. apply NoDup_app; [apply (ok_nodup s L st ok)| |].
    + repeat constructor. simpl. tauto.
    + intros x Hx [<-|[]]. contradiction.
  - intros x. rewrite Seen, in_app_iff. simpl bfs_D. rewrite dict_mem_set.
    rewrite (ok_D s L st ok). simpl. intuition congruence.
  - intros u Hu. simpl in Hu. rewrite level_discover_other.
    + now apply (ok_S_level s L st ok).
    + apply Old. unfold seen. apply in_or_app. now left.
  - intros x Hx. simpl in Hx. apply in_app_iff in Hx. destruct Hx as [Hx|[<-|[]]].
    + rewrite level_discover_other; [now apply (ok_Q_level s L st ok)|].
      apply Old. unfold seen. apply in_or_app. now right.
    + rewrite level_discover_same. lia.
  - simpl bfs_Q. rewrite map_app. simpl. rewrite level_discover_same.
    rewrite (map_ext_in _ (level st)).
    + apply StronglySorted_le_snoc; [apply (ok_Q_sorted s L st ok)|].
      apply Forall_map, Forall_forall. intros x Hx.
      now apply (ok_Q_level s L st ok).
    + intros x Hx. apply level_discover_other, Old.
      unfold seen. apply in_or_app. now right.
  - apply (ok_nonneg s L st ok).
  - intros x Hx. rewrite Seen in Hx. apply in_app_iff in Hx.
    destruct Hx as [Hx|[<-|[]]]; [now apply (ok_sum s L st ok)|].
    change (pre (discover L st w) w) with (pre st w).
    rewrite (ok_pre_new s L st ok w Nw). apply (ok_nonneg s L st ok).
  - intros x v Hx Hv. simpl in Hx. apply in_app_iff in Hx.
    destruct Hx as [Hx|[<-|[]]]; [eapply (ok_pre_Q s L st ok); eassumption|].
    change (pre (discover L st w) w) with (pre st w) in Hv.
    rewrite (ok_pre_new s L st ok w Nw) in Hv. destruct Hv.
  - apply (ok_pre_S s L st ok).
  - intros x Hx. apply (ok_pre_new s L st ok). rewrite Seen in Hx.
    intros H. apply Hx. apply in_or_app. now left.
  - destruct (ok_head s L st ok) as [rest E]. exists (rest ++ [w]).
    rewrite Seen, E. reflexivity.
Qed.


(** *** A shortest path through [v] reaches [w] *)

Lemma sig_relax_other st v w sigmav x :
  x <> w -> sig (relax st v w sigmav) x = sig st x.
Proof. intros N. unfold sig. simpl. now apply lookup_set_other. Qed.

Lemma sig_relax_same st v w sigmav :
  sig (relax st v w sigmav) w = (sig st w + sigmav)%Q.
Proof. unfold sig. simpl. apply lookup_set_same. Qed.

Lemma pre_relax_other st v w sigmav x :
  x <> w -> pre (relax st v w sigmav) x = pre st x.
Proof. intros N. unfold pre. simpl. now apply lookup_set_other. Qed.

Lemma pre_relax_same st v w sigmav :
  pre (relax st v w sigmav) w = pre st w ++ [v].
Proof. unfold pre. simpl. apply lookup_set_same. Qed.

Lemma relax_ok L st v w :
  bfs_ok s L st -> In v (bfs_S st) -> In w (bfs_Q st) ->
  bfs_ok s L (relax st v w (sig st v)).
Proof.
  intros ok Hv Hw.
  set (st' := relax st v w (sig st v)).
  assert (NS : forall u, In u (bfs_S st) -> u <> w).
  { intros u Hu ->. eapply S_not_Q; eassumption. }
  assert (Wseen : In w (seen st)) by (unfold seen; apply in_or_app; now right).
  assert (Pre : forall x u, In x (seen st) -> In u (pre st x) -> u <> w).
  { intros x u Hx Hu. apply NS. eapply pre_in_S; eassumption. }
  constructor.
  - apply (ok_nodup s L st ok).
  - apply (ok_D s L st ok).
  - apply (ok_S_level s L st ok).
  - apply (ok_Q_level s L st ok).
  - apply (ok_Q_sorted s L st ok).
  - intros x. destruct (Z.eq_dec x w) as [->|N].
    + unfold st'. rewrite sig_relax_same.
      apply Qplus_nonneg; apply (ok_nonneg s L st ok).
    + unfold st'. rewrite sig_relax_other by assumption.
      apply (ok_nonneg s L st ok).
  - intros x Hx. change (seen st') with (seen st) in Hx.
    destruct (Z.eq_dec x w) as [->|N].
    + unfold st'. rewrite pre_relax_same, sig_relax_same.
      unfold sigsum. rewrite map_app, Qsum_app. simpl.
      rewrite sig_relax_other by (now apply NS). rewrite Qplus_0_r.
      apply Qplus_le_compat; [|apply Qle_refl].
      rewrite (map_ext_in _ (sig st)).
      * now apply (ok_sum s L st ok).
      * intros u Hu. apply sig_relax_other. eapply Pre; eassumption.
    + unfold st'. rewrite pre_relax_other, sig_relax_other by assumption.
      rewrite (sigsum_ext st).
      * now apply (ok_sum s L st ok).
      * intros u Hu. apply sig_relax_other. eapply Pre; eassumption.
  - intros x u Hx Hu. change (bfs_Q st') with (bfs_Q st) in Hx.
    change (bfs_S st') with (bfs_S st).
    destruct (Z.eq_dec x w) as [->|N].
    + unfold st' in Hu. rewrite pre_relax_same in Hu.
      apply in_app_iff in Hu. destruct Hu as [Hu|[<-|[]]]; [|assumption].
      eapply (ok_pre_Q s L st ok); eassumption.
    + unfold st' in Hu. rewrite pre_relax_other in Hu by assumption.
      eapply (ok_pre_Q s L st ok); eassumption.
  - intros p x sfx E u Hu. change (bfs_S st') with (bfs_S st) in E.
    assert (N : x <> w).
    { apply NS. rewrite E. apply in_or_app. right. now left. }
    unfold st' in Hu. rewrite pre_relax_other in Hu by assumption.
    eapply (ok_pre_S s L st ok); eassumption.
  - intros x Hx. change (seen st') with (seen st) in Hx.
    assert (N : x <> w) by (intros ->; contradiction).
    unfold st'. rewrite pre_relax_other by assumption.
    now apply (ok_pre_new s L st ok).
  - apply (ok_head s L st ok).
Qed.

(** *** One turn of [for w in G[v]] *)

Lemma bfs_visit_cases v L st w :
  bfs_visit v L (sig st v) st w =
  let st1 := if dict_mem Z.eqb (bfs_D st) w then st else discover L st w in
  if (level st1 w =? S L)%nat then relax st1 v w (sig st v) else st1.
Proof. reflexivity. Qed.

Lemma bfs_visit_ok v L st w :
  bfs_ok s L st -> In v (bfs_S st) ->
  bfs_ok s L (bfs_visit v L (sig st v) st w) /\
  sig (bfs_visit v L (sig st v) st w) v = sig st v /\
  bfs_S (bfs_visit v L (sig st v) st w) = bfs_S st.
Proof.
  intros ok Hv. rewrite bfs_visit_cases. cbv zeta.
  destruct (dict_mem Z.eqb (bfs_D st) w) eqn:M.
  - destruct (Nat.eqb_spec (level st w) (S L)) as [E|N]; [|tauto].
    assert (Hw : In w (bfs_Q st)).
    { apply (ok_D s L st ok) in M. unfold seen in M. apply in_app_iff in M.
      destruct M as [M|M]; [|assumption].
      apply (ok_S_level s L st ok) in M. lia. }
    split; [now apply relax_ok|]. split; [|reflexivity].
    apply sig_relax_other. intros ->. eapply S_not_Q; eassumption.
  - assert (Nw : ~ In w (seen st)).
    { rewrite <- (ok_D s L st ok). congruence. }
    pose proof (discover_ok L st w ok Nw) as ok1.
    rewrite level_discover_same, Nat.eqb_refl.
    assert (Nvw : v <> w).
    { intros ->. apply Nw. unfold seen. apply in_or_app. now left. }
    split; [|split; [|reflexivity]].
    + refine (relax_ok L (discover L st w) v w ok1 Hv _).
      simpl. apply in_or_app. right. now left.
    + rewrite sig_relax_other by assumption. reflexivity.
Qed.

Lemma fold_bfs_visit_ok v L sigmav ws : forall st,
  bfs_ok s L st -> In v (bfs_S st) -> sig st v = sigmav ->
  bfs_ok s L (fold_left (bfs_visit v L sigmav) ws st) /\
  bfs_S (fold_left (bfs_visit v L sigmav) ws st) = bfs_S st.
Proof.
  induction ws as [|w r IH]; simpl; intros st ok Hv E; [tauto|].
  subst sigmav.
  destruct (bfs_visit_ok v L st w ok Hv) as (ok1 & Sg & HS).
  destruct (IH (bfs_visit v L (sig st v) st w)) as (ok2 & HS2);
    [assumption|now rewrite HS|assumption|].
  split; [assumption|congruence].
Qed.

(** *** [v = Q.popleft(); S.append(v)] *)

Lemma pop_ok L st v q :
  bfs_ok s L st -> bfs_Q st = v :: q -> bfs_ok s (level st v) (pop st v q).
Proof.
  intros ok E.
  assert (Seen : seen (pop st v q) = seen st).
  { unfold seen. simpl. rewrite E, <- app_assoc. reflexivity. }
  pose proof (ok_Q_sorted s L st ok) as Srt. rewrite E in Srt. simpl in Srt.
  inversion Srt as [|? ? Srt' Hd]; subst.
  assert (Lv : (L <= level st v <= S L)%nat).
  { apply (ok_Q_level s L st ok). rewrite E. now left. }
  constructor.
  - rewrite Seen. apply (ok_nodup s L st ok).
  - intros w. rewrite Seen. apply (ok_D s L st ok).
  - intros u Hu. simpl in Hu. apply in_app_iff in Hu.
    destruct Hu as [Hu|[<-|[]]]; [|apply Nat.le_refl].
    apply (ok_S_level s L st ok) in Hu. unfold level in *. simpl. lia.
  - intros x Hx. simpl in Hx.
    assert (HxQ : In x (bfs_Q st)) by (rewrite E; now right).
    apply (ok_Q_level s L st ok) in HxQ.
    rewrite Forall_forall in Hd.
    specialize (Hd (level st x) (in_map _ _ _ Hx)).
    unfold level in *. simpl. lia.
  - exact Srt'.
  - apply (ok_nonneg s L st ok).
  - intros w Hw. rewrite Seen in Hw. now apply (ok_sum s L st ok).
  - intros w u Hw Hu. simpl in Hw. simpl. apply in_or_app. left.
    eapply (ok_pre_Q s L st ok); [|eassumption]. rewrite E. now right.
  - intros p x sfx Ex u Hu. simpl in Ex.
    apply snoc_split in Ex. destruct Ex as [(_ & <- & <-)|(sfx' & _ & Ex)].
    + eapply (ok_pre_Q s L st ok); [|eassumption]. rewrite E. now left.
    + eapply (ok_pre_S s L st ok); eassumption.
  - intros w Hw. rewrite Seen in Hw. now apply (ok_pre_new s L st ok).
  - rewrite Seen. apply (ok_head s L st ok).
Qed.

(** *** [while Q] *)

Lemma bfs_loop_ok fuel : forall L st,
  bfs_ok s L st -> exists L', bfs_ok s L' (bfs_loop fuel G st).
Proof.
  induction fuel as [|f IH]; simpl; intros L st ok; [now exists L|].
  destruct (bfs_Q st) as [|v q] eqn:E; [now exists L|].
  pose proof (pop_ok L st v q ok E) as ok0.
  destruct (fold_bfs_visit_ok v (level st v) (sig st v) (successors G v)
              (pop st v q) ok0) as (ok1 & _).
  - simpl. apply in_or_app. right. now left.
  - reflexivity.
  - eapply IH. exact ok1.
Qed.


(** *** The search from [s] *)

Lemma bfs_start_ok : bfs_ok s 0 (bfs_start G s).
Proof.
  assert (Pre : forall w, pre (bfs_start G s) w = []).
  { intros w. unfold pre. simpl. apply lookup_const. }
  assert (Sig : forall w, (0 <= sig (bfs_start G s) w)%Q).
  { intros w. unfold sig. simpl. destruct (Z.eq_dec w s) as [->|N].
    - rewrite lookup_set_same. discriminate.
    - rewrite lookup_set_other by assumption. rewrite lookup_const.
      apply Qle_refl. }
  constructor.
  - repeat constructor. simpl. tauto.
  - intros w. unfold dict_mem, seen. simpl.
    destruct (Z.eqb_spec w s); simpl; intuition congruence.
  - intros u [].
  - intros x [<-|[]]. unfold level, lookup. simpl. rewrite Z.eqb_refl. lia.
  - simpl. repeat constructor.
  - exact Sig.
  - intros w _. rewrite Pre. apply Sig.
  - intros w v _ H. rewrite Pre in H. destruct H.
  - intros p w sfx E. destruct p; discriminate.
  - intros w _. apply Pre.
  - now exists [].
Qed.

(** What the accumulation needs of the search. *)
Lemma shortest_path_basic_facts :
  let st := single_source_shortest_path_basic G s in
  NoDup (bfs_S st) /\
  (forall w, (0 <= sig st w)%Q) /\
  (forall w, In w (bfs_S st) -> (sigsum st (pre st w) <= sig st w)%Q) /\
  (forall p w sfx, bfs_S st = p ++ w :: sfx ->
                   forall v, In v (pre st w) -> In v p) /\
  (forall x r, bfs_S st = x :: r -> x = s).
Proof.
  cbv zeta.
  destruct (bfs_loop_ok (number_of_nodes G) 0 (bfs_start G s) bfs_start_ok)
    as [L ok].
  change (bfs_loop (number_of_nodes G) G (bfs_start G s))
    with (single_source_shortest_path_basic G s) in ok.
  set (st := single_source_shortest_path_basic G s) in *.
  repeat split.
  - pose proof (ok_nodup s L st ok) as ND. unfold seen in ND.
    now apply NoDup_app_remove_r in ND.
  - apply (ok_nonneg s L st ok).
  - intros w Hw. apply (ok_sum s L st ok). unfold seen. apply in_or_app. now left.
  - apply (ok_pre_S s L st ok).
  - intros x r E. destruct (ok_head s L st ok) as [rest H].
    unfold seen in H. rewrite E in H. simpl in H. now inversion H.
Qed.
End Bfs.


(** ** The accumulation of the dependencies *)

Lemma frac_bound (a t g : Q) :
  (0 <= a)%Q -> (0 <= t)%Q -> (t <= g)%Q -> (t * (a / g) <= a)%Q.
Proof.
  intros Ha Ht Htg.
  destruct (Qeq_dec g 0) as [E|N].
  - assert (T : (t == 0)%Q).
    { apply Qle_antisym; [now rewrite <- E|assumption]. }
    rewrite T, Qmult_0_l. assumption.
  - assert (G0 : (0 < g)%Q).
    { assert (H : (0 <= g)%Q) by (eapply Qle_trans; eassumption).
      apply Qle_lteq in H. destruct H as [H|H]; [assumption|].
      exfalso. apply N. now symmetry. }
    assert (D : (0 <= a / g)%Q).
    { unfold Qdiv. apply Qmult_le_0_compat; [assumption|].
      apply Qlt_le_weak, Qinv_lt_0_compat, G0. }
    apply Qle_trans with (g * (a / g))%Q.
    + now apply Qmult_le_compat_r.
    + rewrite Qmult_div_r by assumption. apply Qle_refl.
Qed.

Lemma Qsum_zeros {A} (l : list A) : (Qsum (map (fun _ => 0) l) == 0)%Q.
Proof.
  induction l as [|x r IH]; simpl; [reflexivity|]. now rewrite IH.
Qed.

Lemma add_all_other f vs : forall delta x,
  ~ In x vs -> lookup (add_all f vs delta) x 0%Q = lookup delta x 0%Q.
Proof.
  induction vs as [|v r IH]; intros delta x H; [reflexivity|].
  unfold add_all in *. cbn [fold_left]. rewrite IH by (simpl in H; tauto).
  apply lookup_set_other. intros ->. simpl in H. tauto.
Qed.

Lemma add_all_nonneg f vs : forall delta,
  (forall x, 0 <= lookup delta x 0)%Q -> (forall v, 0 <= f v)%Q ->
  forall x, (0 <= lookup (add_all f vs delta) x 0)%Q.
Proof.
  induction vs as [|v r IH]; intros delta Hd Hf x; [apply Hd|].
  unfold add_all in *. cbn [fold_left]. apply IH; [|assumption].
  intros y. destruct (Z.eq_dec y v) as [->|N].
  - rewrite lookup_set_same. apply Qplus_nonneg; [apply Hd|apply Hf].
  - rewrite lookup_set_other by assumption. apply Hd.
Qed.

Lemma Qsum_set (delta : dict node Q) v c p :
  NoDup p -> In v p ->
  (Qsum (map (fun x => lookup (dict_set Z.eqb delta v c) x 0) p) ==
   Qsum (map (fun x => lookup delta x 0) p) - lookup delta v 0 + c)%Q.
Proof.
  induction 1 as [|y r Hy ND IH]; simpl; [tauto|].
  intros [->|H].
  - rewrite lookup_set_same.
    rewrite (map_ext_in _ (fun x => lookup delta x 0%Q)).
    + ring.
    + intros x Hx. apply lookup_set_other. intros ->. contradiction.
  - rewrite lookup_set_other by (intros ->; contradiction).
    rewrite IH by assumption. ring.
Qed.

Lemma Qsum_add_all f vs p : forall delta,
  NoDup p -> (forall v, In v vs -> In v p) ->
  (Qsum (map (fun x => lookup (add_all f vs delta) x 0) p) ==
   Qsum (map (fun x => lookup delta x 0) p) + Qsum (map f vs))%Q.
Proof.
  induction vs as [|v r IH]; intros delta ND H.
  - simpl. now rewrite Qplus_0_r.
  - unfold add_all in *. simpl fold_left. rewrite IH; [|assumption|].
    + rewrite Qsum_set; [|assumption|apply H; now left].
      simpl. ring.
    + intros x Hx. apply H. now right.
Qed.

Section Accumulate.
Variable P : dict node (list node).
Variable sigma : dict node Q.
Variable s : node.
Variable S_ : list node.
Variable b0 : dict node Q.

Let sg (x : node) : Q := lookup sigma x 0%Q.
Let pr (x : node) : list node := lookup P x [].

Hypothesis S_nodup : NoDup S_.
Hypothesis sigma_nonneg : forall w, (0 <= sg w)%Q.
Hypothesis sigma_sum :
  forall w, In w S_ -> (Qsum (map sg (pr w)) <= sg w)%Q.
Hypothesis pre_before :
  forall p w sfx, S_ = p ++ w :: sfx -> forall v, In v (pr w) -> In v p.
Hypothesis S_head : forall x r, S_ = x :: r -> x = s.

Lemma accumulate_step_eq acc w :
  accumulate_step P sigma s acc w =
  let coeff := ((1 + dl acc w) / sg w)%Q in
  let delta := add_all (fun v => sg v * coeff)%Q (pr w) (snd acc) in
  if Z.eqb w s then (fst acc, delta)
  else (dict_set Z.eqb (fst acc) w (bt acc w + lookup delta w 0)%Q, delta).
Proof. destruct acc as [b d]. reflexivity. Qed.

Lemma processed_invariant : forall sfx p,
  S_ = p ++ sfx ->
  (forall x, 0 <= dl (processed P sigma s S_ b0 sfx) x)%Q /\
  (Qsum (map (dl (processed P sigma s S_ b0 sfx)) p) <= Q_of_nat (length sfx))%Q /\
  (forall x, lookup b0 x 0 <= bt (processed P sigma s S_ b0 sfx) x /\
             bt (processed P sigma s S_ b0 sfx) x
             <= lookup b0 x 0 + gain s S_ x sfx)%Q.
Proof using S_nodup sigma_nonneg sigma_sum pre_before S_head.
  induction sfx as [|w rest IH]; intros p E.
  - simpl. split; [|split].
    + intros x. unfold dl. simpl. rewrite lookup_const. apply Qle_refl.
    + unfold dl. cbn [processed fold_right snd length].
      rewrite (map_ext _ (fun _ => 0%Q)) by (intros; apply lookup_const).
      rewrite Qsum_zeros. apply Qle_refl.
    + intros x. unfold bt, gain.
      cbn [processed fold_right fst mem existsb andb]. rewrite Qplus_0_r.
      split; apply Qle_refl.
  - assert (E' : S_ = (p ++ [w]) ++ rest) by (now rewrite <- app_assoc).
    destruct (IH (p ++ [w]) E') as (J1 & J2 & J3).
    set (acc := processed P sigma s S_ b0 rest) in *.
    change (processed P sigma s S_ b0 (w :: rest)) with (accumulate_step P sigma s acc w).
    rewrite accumulate_step_eq. cbv zeta.
    set (coeff := ((1 + dl acc w) / sg w)%Q).
    set (delta := add_all (fun v => sg v * coeff)%Q (pr w) (snd acc)).
    assert (ND := S_nodup). rewrite E in ND.
    assert (NDp : NoDup p) by (now apply NoDup_app_remove_r in ND).
    assert (Wp : ~ In w p).
    { apply NoDup_remove_2 in ND. intros H. apply ND.
      apply in_or_app. now left. }
    assert (Wr : ~ In w rest).
    { apply NoDup_remove_2 in ND. intros H. apply ND.
      apply in_or_app. now right. }
    assert (Pp : forall v, In v (pr w) -> In v p) by (now apply (pre_before p w rest)).
    assert (C0 : (0 <= coeff)%Q).
    { unfold coeff, Qdiv. apply Qmult_le_0_compat.
      - apply Qplus_nonneg; [discriminate|apply J1].
      - destruct (Qeq_dec (sg w) 0) as [Z0|NZ].
        + rewrite Z0. discriminate.
        + apply Qlt_le_weak, Qinv_lt_0_compat.
          pose proof (sigma_nonneg w) as H. apply Qle_lteq in H.
          destruct H as [H|H]; [assumption|]. exfalso. apply NZ. now symmetry. }
    assert (D1 : forall x, (0 <= lookup delta x 0)%Q).
    { apply add_all_nonneg; [apply J1|].
      intros v. apply Qmult_le_0_compat; [apply sigma_nonneg|exact C0]. }
    assert (Dw : lookup delta w 0%Q = dl acc w).
    { unfold delta. apply add_all_other. intros H. apply Wp, Pp, H. }
    assert (Sum : (Qsum (map (fun x => lookup delta x 0) p)
                   <= Q_of_nat (length (w :: rest)))%Q).
    { unfold delta. rewrite Qsum_add_all by assumption.
      rewrite (Qsum_scale sg coeff).
      assert (F : (Qsum (map sg (pr w)) * coeff <= 1 + dl acc w)%Q).
      { apply frac_bound.
        - apply Qplus_nonneg; [discriminate|apply J1].
        - apply Qsum_nonneg, Forall_map, Forall_forall.
          intros v _. apply sigma_nonneg.
        - apply sigma_sum. rewrite E. apply in_or_app. right. now left. }
      rewrite map_app, Qsum_app in J2. simpl in J2. rewrite Qplus_0_r in J2.
      simpl length. replace (S (length rest)) with (length rest + 1)%nat by lia.
      rewrite Q_of_nat_plus. change (Q_of_nat 1) with 1%Q.
      apply Qle_trans with
        (Qsum (map (fun x => lookup (snd acc) x 0) p) + (1 + dl acc w))%Q.
      - apply Qplus_le_compat; [apply Qle_refl|exact F].
      - unfold dl in *.
        apply Qle_trans with
          (Qsum (map (fun x => lookup (snd acc) x 0) p)
           + lookup (snd acc) w 0 + 1)%Q.
        + apply Qle_lteq. right. ring.
        + now apply Qplus_le_compat; [|apply Qle_refl]. }
    assert (Gw : (dl acc w <= Q_of_nat (length rest))%Q).
    { eapply Qle_trans; [|exact J2].
      apply Qsum_member_le.
      - apply Forall_map, Forall_forall. intros x _. apply J1.
      - apply in_map. apply in_or_app. right. now left. }
    destruct (Z.eqb_spec w s) as [Ews|Nws].
    + split; [exact D1|]. split; [exact Sum|].
      intros x. destruct (J3 x) as [Lo Hi]. split; [exact Lo|].
      eapply Qle_trans; [exact Hi|].
      apply Qplus_le_compat; [apply Qle_refl|].
      unfold gain. simpl mem. subst w.
      destruct (Z.eqb_spec x s) as [->|N]; simpl.
      * rewrite !andb_false_r. apply Qle_refl.
      * apply Qle_refl.
    + split; [exact D1|]. split; [exact Sum|].
      intros x. unfold bt. cbn [fst].
      destruct (Z.eq_dec x w) as [->|N].
      * rewrite lookup_set_same, Dw. destruct (J3 w) as [Lo Hi].
        split.
        -- eapply Qle_trans; [exact Lo|].
           rewrite <- (Qplus_0_r (bt acc w)) at 1.
           apply Qplus_le_compat; [apply Qle_refl|apply J1].
        -- unfold gain in *.
           assert (M : mem w rest = false).
           { unfold mem. apply not_true_iff_false. intros H.
             apply (existsb_eqb_In Z.eqb Z.eqb_spec) in H. contradiction. }
           rewrite M in Hi. simpl in Hi. rewrite Qplus_0_r in Hi.
           simpl mem. rewrite Z.eqb_refl. simpl.
           destruct (Z.eqb_spec w s); [contradiction|]. simpl.
           apply Qplus_le_compat; [exact Hi|].
           eapply Qle_trans; [exact Gw|].
           apply Q_of_nat_le.
           assert (Pn : p <> []).
           { intros ->. simpl in E. apply S_head in E. contradiction. }
           rewrite E, length_app. simpl.
           destruct p; [congruence|]. simpl. lia.
      * rewrite lookup_set_other by assumption.
        destruct (J3 x) as [Lo Hi]. split; [exact Lo|].
        eapply Qle_trans; [exact Hi|].
        apply Qplus_le_compat; [apply Qle_refl|].
        unfold gain. simpl mem.
        destruct (Z.eqb_spec x w); [contradiction|]. simpl. apply Qle_refl.
Qed.

(** After the accumulation from [s] a node other than [s] has gained at
    most [len(S) - 2], and no node has lost. *)
Lemma accumulate_basic_bound x :
  let b := fst (fold_left (accumulate_step P sigma s) (rev S_)
                          (b0, map (fun v => (v, 0%Q)) S_)) in
  (lookup b0 x 0 <= lookup b x 0 /\
   lookup b x 0 <=
     lookup b0 x 0 + (if Z.eqb x s then 0 else Q_of_nat (length S_ - 2)))%Q.
Proof using S_nodup sigma_nonneg sigma_sum pre_before S_head.
  cbv zeta.
  pose proof (fold_left_rev_right
                (fun w acc => accumulate_step P sigma s acc w) (rev S_)
                (b0, map (fun v => (v, 0%Q)) S_)) as F.
  rewrite rev_involutive in F. symmetry in F.
  change (fold_left (accumulate_step P sigma s) (rev S_)
                    (b0, map (fun v => (v, 0%Q)) S_) = processed P sigma s S_ b0 S_) in F.
  rewrite F.
  destruct (processed_invariant S_ [] eq_refl) as (_ & _ & J3).
  destruct (J3 x) as [Lo Hi]. split; [exact Lo|].
  eapply Qle_trans; [exact Hi|].
  apply Qplus_le_compat; [apply Qle_refl|].
  unfold gain. destruct (Z.eqb x s); simpl.
  - rewrite andb_false_r. apply Qle_refl.
  - rewrite andb_true_r. destruct (mem x S_); [apply Qle_refl|].
    apply Q_of_nat_nonneg.
Qed.
End Accumulate.


(** ** Betweenness lies between 0 and 1 *)

Lemma lookup_In {V} (d : dict node V) x v default :
  NoDup (keys d) -> In (x, v) d -> lookup d x default = v.
Proof.
  unfold lookup. induction d as [|[k u] r IH]; simpl; [tauto|].
  intros ND [H|H].
  - inversion H; subst. now rewrite Z.eqb_refl.
  - inversion ND; subst. destruct (Z.eqb_spec x k) as [->|N].
    + exfalso. apply H2. change k with (fst (k, v)). now apply in_map.
    + now apply IH.
Qed.

Lemma length_filter_remove (l : list node) x :
  NoDup l -> In x l ->
  length (filter (fun s => negb (Z.eqb x s)) l) = (length l - 1)%nat.
Proof.
  induction 1 as [|y r Hy ND IH]; simpl; [tauto|].
  intros [->|H].
  - rewrite Z.eqb_refl. simpl. rewrite Nat.sub_0_r.
    clear IH ND. induction r as [|z r IH]; simpl; [reflexivity|].
    simpl in Hy. destruct (Z.eqb_spec x z) as [->|N]; [tauto|].
    simpl. f_equal. apply IH. tauto.
  - destruct (Z.eqb_spec x y) as [->|N]; [contradiction|]. simpl.
    rewrite IH by assumption. destruct r; [destruct H|simpl; lia].
Qed.

Section Betweenness.
Variable G : DiGraph.
Hypothesis wf : well_formed G.

Let n := number_of_nodes G.

(** One source adds at most [n - 2] to the betweenness of another node. *)
Lemma accumulate_basic_gain b s x :
  In s (nodes G) ->
  let b' := accumulate_basic b (single_source_shortest_path_basic G s) s in
  (lookup b x 0 <= lookup b' x 0 /\
   lookup b' x 0 <=
     lookup b x 0 + (if Z.eqb x s then 0 else Q_of_nat (n - 2)))%Q.
Proof using wf.
  intros Hs. cbv zeta.
  destruct (shortest_path_basic_facts G s) as (ND & NN & SM & PB & HD).
  set (st := single_source_shortest_path_basic G s) in *.
  pose proof (accumulate_basic_bound (bfs_P st) (bfs_sigma st) s (bfs_S st) b
                ND NN SM PB HD x) as [Lo Hi].
  split; [exact Lo|].
  eapply Qle_trans; [exact Hi|].
  apply Qplus_le_compat; [apply Qle_refl|].
  destruct (Z.eqb x s); [apply Qle_refl|].
  apply Q_of_nat_le.
  assert (L : (length (bfs_S st) <= n)%nat).
  { apply NoDup_incl_length; [exact ND|].
    intros w Hw.
    pose proof (shortest_path_basic_in_graph G wf s Hs) as F.
    rewrite Forall_forall in F. now apply F. }
  lia.
Qed.

Lemma sources_gain sources x : forall b,
  (forall s, In s sources -> In s (nodes G)) ->
  let b' := fold_left (fun betweenness s =>
                         accumulate_basic betweenness
                           (single_source_shortest_path_basic G s) s)
                      sources b in
  (lookup b x 0 <= lookup b' x 0 /\
   lookup b' x 0 <=
     lookup b x 0
     + Q_of_nat (n - 2)
       * Q_of_nat (length (filter (fun s => negb (Z.eqb x s)) sources)))%Q.
Proof using wf.
  induction sources as [|s r IH]; intros b H; cbv zeta.
  - cbn [fold_left filter length]. change (Q_of_nat 0) with 0%Q.
    rewrite Qmult_0_r, Qplus_0_r. split; apply Qle_refl.
  - cbn [fold_left].
    destruct (accumulate_basic_gain b s x (H s (or_introl eq_refl)))
      as [Lo1 Hi1].
    set (b1 := accumulate_basic b (single_source_shortest_path_basic G s) s)
      in *.
    destruct (IH b1 (fun t Ht => H t (or_intror Ht))) as [Lo2 Hi2].
    split; [eapply Qle_trans; eassumption|].
    eapply Qle_trans; [exact Hi2|].
    cbn [filter]. destruct (Z.eqb x s); cbn [negb].
    + rewrite Qplus_0_r in Hi1.
      apply Qplus_le_compat; [exact Hi1|apply Qle_refl].
    + cbn [length].
      set (k := length (filter (fun s0 => negb (Z.eqb x s0)) r)) in *.
      replace (S k) with (1 + k)%nat by lia.
      rewrite Q_of_nat_plus. change (Q_of_nat 1) with 1%Q.
      apply Qle_trans with
        (lookup b x 0 + Q_of_nat (n - 2) + Q_of_nat (n - 2) * Q_of_nat k)%Q.
      * apply Qplus_le_compat; [exact Hi1|apply Qle_refl].
      * apply Qle_lteq. right. ring.
Qed.

Hypothesis nodes_nodup : NoDup (nodes G).

(** Before the rescaling the betweenness of a node is at most
    [(n - 2) (n - 1)]. *)
Lemma betweenness_raw_bound x q :
  In (x, q)
     (fold_left (fun betweenness s =>
                   accumulate_basic betweenness
                     (single_source_shortest_path_basic G s) s)
                (nodes G) (map (fun v => (v, 0%Q)) (nodes G))) ->
  (0 <= q /\ q <= Q_of_nat (n - 2) * Q_of_nat (n - 1))%Q.
Proof using wf nodes_nodup.
  intros H.
  set (b0 := map (fun v => (v, 0%Q)) (nodes G)) in *.
  set (b := fold_left
              (fun betweenness s =>
                 accumulate_basic betweenness
                   (single_source_shortest_path_basic G s) s)
              (nodes G) b0) in *.
  assert (K : keys b = nodes G).
  { pose proof (keys_betweenness_centrality G wf) as K.
    unfold betweenness_centrality in K. now rewrite keys_rescale in K. }
  assert (Hx : In x (nodes G)).
  { rewrite <- K. change x with (fst (x, q)). now apply in_map. }
  assert (E : lookup b x 0%Q = q).
  { apply lookup_In; [now rewrite K|assumption]. }
  destruct (sources_gain (nodes G) x b0 (fun s Hs => Hs)) as [Lo Hi].
  fold b in Lo, Hi. rewrite E in Lo, Hi.
  unfold b0 in Lo, Hi. rewrite lookup_const in Lo, Hi.
  rewrite Qplus_0_l in Hi.
  rewrite length_filter_remove in Hi by assumption.
  split; assumption.
Qed.

(** [nx.betweenness_centrality] returns values between 0 and 1. *)
Lemma betweenness_centrality_bounds x q :
  In (x, q) (betweenness_centrality G) -> (0 <= q /\ q <= 1)%Q.
Proof using wf nodes_nodup.
  unfold betweenness_centrality, rescale. fold n.
  destruct (Nat.leb_spec n 2) as [Le|Gt].
  - intros H. apply betweenness_raw_bound in H. destruct H as [Lo Hi].
    split; [exact Lo|].
    eapply Qle_trans; [exact Hi|].
    replace (n - 2)%nat with 0%nat by lia. change (Q_of_nat 0) with 0%Q.
    rewrite Qmult_0_l. discriminate.
  - intros H. apply in_map_iff in H. destruct H as ([y q0] & E & H).
    inversion E; subst. clear E.
    apply betweenness_raw_bound in H. destruct H as [Lo Hi].
    assert (A : (Q_of_nat n - 1 == Q_of_nat (n - 1))%Q)
      by (apply Q_of_nat_pred; lia).
    assert (B : (Q_of_nat n - 2 == Q_of_nat (n - 2))%Q).
    { unfold Q_of_nat. rewrite Nat2Z.inj_sub by lia.
      unfold Z.sub, Qminus. rewrite inject_Z_plus, inject_Z_opp. reflexivity. }
    assert (P1 : (0 < Q_of_nat (n - 1))%Q).
    { unfold Q_of_nat. rewrite <- (Zlt_Qlt 0). lia. }
    assert (P2 : (0 < Q_of_nat (n - 2))%Q).
    { unfold Q_of_nat. rewrite <- (Zlt_Qlt 0). lia. }
    assert (Pos : (0 < Q_of_nat (n - 1) * Q_of_nat (n - 2))%Q).
    { rewrite <- (Qmult_0_l (Q_of_nat (n - 2))).
      apply Qmult_lt_compat_r; assumption. }
    rewrite A, B. split.
    + apply Qmult_le_0_compat; [exact Lo|].
      unfold Qdiv. rewrite Qmult_1_l.
      apply Qlt_le_weak, Qinv_lt_0_compat, Pos.
    + unfold Qdiv. rewrite Qmult_1_l.
      apply Qle_shift_div_r; [exact Pos|].
      rewrite Qmult_1_l. rewrite (Qmult_comm (Q_of_nat (n - 1))). exact Hi.
Qed.
End Betweenness.

(* ===================================================================== *)
(** * Further properties of the embedding *)
(* ===================================================================== *)

(** ** [Counter], [value_counts] and [most_common] *)

Section CounterFacts.
Context {K : Type}.
Variable eqb : K -> K -> bool.
Hypothesis eqb_spec : forall x y, reflect (x = y) (eqb x y).

Lemma dict_get_In (d : dict K nat) k v :
  dict_get eqb d k = Some v -> In (k, v) d.
Proof using eqb_spec.
  induction d as [|[k' v'] r IH]; simpl; [discriminate|].
  destruct (eqb_spec k k') as [->|N].
  - intros H. inversion H. now left.
  - intros H. right. now apply IH.
Qed.

Lemma In_dict_get (d : dict K nat) k v :
  NoDup (keys d) -> In (k, v) d -> dict_get eqb d k = Some v.
Proof using eqb_spec.
  induction d as [|[k' v'] r IH]; simpl; [tauto|].
  intros ND [H|H].
  - inversion H; subst. destruct (eqb_spec k k); congruence.
  - inversion ND; subst. destruct (eqb_spec k k') as [->|N].
    + exfalso. apply H2. change k' with (fst (k', v)). now apply in_map.
    + now apply IH.
Qed.

Lemma keys_count_one (counts : dict K nat) k :
  keys (count_one eqb counts k) = touch eqb (keys counts) k.
Proof using eqb_spec.
  unfold touch. induction counts as [|[k' c] r IH]; simpl; [reflexivity|].
  destruct (eqb k k'); simpl; [reflexivity|].
  rewrite IH. now destruct (existsb (eqb k) (keys r)).
Qed.

Lemma get_count_one (counts : dict K nat) k q :
  get_count eqb (count_one eqb counts k) q =
  ((if eqb q k then 1 else 0) + get_count eqb counts q)%nat.
Proof using eqb_spec.
  unfold get_count. induction counts as [|[k' c] r IH]; simpl.
  - now destruct (eqb q k).
  - destruct (eqb_spec k k') as [->|N]; simpl.
    + destruct (eqb q k'); reflexivity.
    + destruct (eqb_spec q k') as [->|N'].
      * destruct (eqb_spec k' k); [congruence|reflexivity].
      * exact IH.
Qed.

Lemma count_one_positive (counts : dict K nat) k :
  Forall (fun kc => 0 < snd kc)%nat counts ->
  Forall (fun kc => 0 < snd kc)%nat (count_one eqb counts k).
Proof.
  induction 1 as [|[k' c] r H F IH]; simpl.
  - repeat constructor.
  - destruct (eqb k k'); constructor; simpl in *; auto; lia.
Qed.

Lemma keys_fold_count_one l : forall counts,
  keys (fold_left (count_one eqb) l counts) =
  fold_left (touch eqb) l (keys counts).
Proof using eqb_spec.
  induction l as [|x r IH]; simpl; intros counts; [reflexivity|].
  now rewrite IH, keys_count_one.
Qed.

Lemma get_count_fold_count_one l q : forall counts,
  get_count eqb (fold_left (count_one eqb) l counts) q =
  (get_count eqb counts q + occurrences eqb q l)%nat.
Proof using eqb_spec.
  unfold occurrences.
  induction l as [|x r IH]; simpl; intros counts; [lia|].
  rewrite IH, get_count_one. destruct (eqb q x); simpl; lia.
Qed.

Lemma fold_count_one_positive l : forall counts,
  Forall (fun kc => 0 < snd kc)%nat counts ->
  Forall (fun kc => 0 < snd kc)%nat (fold_left (count_one eqb) l counts).
Proof.
  induction l as [|x r IH]; simpl; intros counts H; [assumption|].
  apply IH, count_one_positive, H.
Qed.

(** [Counter(l)] has its keys in the order of first occurrence. *)
Lemma keys_Counter l : keys (Counter eqb l) = first_seen eqb l.
Proof using eqb_spec. apply keys_fold_count_one. Qed.

Lemma Counter_NoDup l : NoDup (keys (Counter eqb l)).
Proof using eqb_spec.
  rewrite keys_Counter. apply (fold_touch_NoDup eqb eqb_spec). constructor.
Qed.

Lemma get_count_Counter l q : get_count eqb (Counter eqb l) q = occurrences eqb q l.
Proof using eqb_spec. apply get_count_fold_count_one. Qed.

Lemma occurrences_positive q l : (0 < occurrences eqb q l)%nat <-> In q l.
Proof using eqb_spec.
  unfold occurrences. induction l as [|x r IH]; simpl; [split; [lia|tauto]|].
  destruct (eqb_spec q x) as [->|N]; simpl.
  - split; [tauto|lia].
  - rewrite IH. intuition congruence.
Qed.

(** The entries of [Counter(l)]: every element of [l] with the number of
    its occurrences. *)
Lemma In_Counter l k c :
  In (k, c) (Counter eqb l) <-> c = occurrences eqb k l /\ (0 < c)%nat.
Proof using eqb_spec.
  split.
  - intros H. split.
    + rewrite <- get_count_Counter. unfold get_count.
      now rewrite (In_dict_get _ _ _ (Counter_NoDup l) H).
    + pose proof (fold_count_one_positive l [] (Forall_nil _)) as F.
      rewrite Forall_forall in F. apply (F (k, c) H).
  - intros [-> P]. apply occurrences_positive in P.
    assert (Hk : In k (keys (Counter eqb l))).
    { rewrite keys_Counter. apply (fold_touch_In eqb eqb_spec). now right. }
    apply in_map_iff in Hk. destruct Hk as ([k' c'] & E & H). simpl in E.
    subst k'. replace (occurrences eqb k l) with c'; [assumption|].
    rewrite <- get_count_Counter. unfold get_count.
    now rewrite (In_dict_get _ _ _ (Counter_NoDup l) H).
Qed.

Lemma count_lt_asym (a b : K * nat) :
  count_lt a b = true -> count_lt b a = false.
Proof.
  unfold count_lt. rewrite Nat.ltb_lt, Nat.ltb_ge. lia.
Qed.

Lemma count_lt_negtrans (a b c : K * nat) :
  count_lt a b = false -> count_lt b c = false -> count_lt a c = false.
Proof. unfold count_lt. rewrite !Nat.ltb_ge. lia. Qed.

(** A ranking [sorted(counts.items(), key=count, reverse=True)]: the
    entries of [counts], larger counts first, ties in the order of
    [counts]. *)
Lemma ranking_spec (counts : dict K nat) :
  let ranking := sorted_reverse count_lt counts in
  Permutation ranking counts /\
  StronglySorted (count_ranked (keys counts)) ranking.
Proof.
  cbv zeta. split; [apply sorted_reverse_Permutation|].
  apply (StronglySorted_weaken (ranks_before count_lt counts)).
  - intros a b [H1 H2]. unfold count_lt in *. apply Nat.ltb_ge in H1.
    split; [assumption|].
    destruct H2 as [H2|H2]; [left; now apply Nat.ltb_lt|right].
    now apply precedes_map.
  - apply sorted_reverse_sorted.
    + apply count_lt_asym.
    + apply count_lt_negtrans.
Qed.

Lemma Permutation_keys_NoDup (d d' : dict K nat) :
  Permutation d' d -> NoDup (keys d) -> NoDup (keys d').
Proof.
  intros P ND. eapply Permutation_NoDup; [|exact ND].
  apply Permutation_map. now symmetry.
Qed.

(** Looking a key up in a ranking of [counts] is looking it up in
    [counts]. *)
Lemma get_count_ranking (counts : dict K nat) q :
  NoDup (keys counts) ->
  get_count eqb (sorted_reverse count_lt counts) q = get_count eqb counts q.
Proof using eqb_spec.
  intros ND.
  pose proof (sorted_reverse_Permutation count_lt counts) as P.
  pose proof (Permutation_keys_NoDup _ _ P ND) as ND'.
  unfold get_count.
  destruct (dict_get eqb counts q) as [c|] eqn:E.
  - apply dict_get_In in E.
    rewrite (In_dict_get _ q c ND'); [reflexivity|].
    eapply Permutation_in; [symmetry; exact P|exact E].
  - destruct (dict_get eqb (sorted_reverse count_lt counts) q) as [c|] eqn:E';
      [|reflexivity].
    apply dict_get_In in E'.
    rewrite (In_dict_get _ q c ND) in E; [discriminate|].
    eapply Permutation_in; [exact P|exact E'].
Qed.

(** [value_counts().get(k, 0)] is the number of cells that hold [k]. *)
Lemma get_count_value_counts column q :
  get_count eqb (value_counts eqb column) q = occurrences eqb q (dropna column).
Proof using eqb_spec.
  unfold value_counts.
  now rewrite get_count_ranking, get_count_Counter by apply Counter_NoDup.
Qed.

(** What [value_counts] returns: one entry per value that occurs, with
    the number of its occurrences, larger counts first. *)
Lemma value_counts_spec column :
  let counts := value_counts eqb column in
  NoDup (keys counts) /\
  (forall k c, In (k, c) counts <->
               c = occurrences eqb k (dropna column) /\ (0 < c)%nat) /\
  StronglySorted (fun a b => (snd b <= snd a)%nat) counts.
Proof using eqb_spec.
  cbv zeta. unfold value_counts.
  destruct (ranking_spec (Counter eqb (dropna column))) as [P S].
  repeat apply conj.
  - apply (Permutation_keys_NoDup _ _ P), Counter_NoDup.
  - intros k c. rewrite <- In_Counter. split; apply Permutation_in;
      [exact P|symmetry; exact P].
  - apply (StronglySorted_weaken _ _ _ (fun a b H => proj1 H) S).
Qed.
End CounterFacts.

Lemma occurrences_flagged (column : list (option bool)) :
  occurrences Bool.eqb true (dropna column) = length (filter flagged column).
Proof.
  unfold occurrences.
  induction column as [|[[|]|] r IH]; simpl; auto.
Qed.

(** ** [str.split] and [str.strip] *)

Lemma split_not_nil sep s : split sep s <> [].
Proof.
  destruct s as [|c r]; simpl; [discriminate|].
  destruct (Ascii.eqb c sep); [discriminate|].
  destruct (split sep r); discriminate.
Qed.

Lemma concat_cons sep x xs :
  xs <> [] ->
  String.concat sep (x :: xs) = (x ++ sep ++ String.concat sep xs)%string.
Proof. destruct xs; [congruence|reflexivity]. Qed.

Lemma concat_split sep s : String.concat (String sep "") (split sep s) = s.
Proof.
  induction s as [|c r IH]; simpl; [reflexivity|].
  pose proof (split_not_nil sep r) as NE.
  destruct (Ascii.eqb_spec c sep) as [->|N].
  - rewrite concat_cons, IH by assumption. reflexivity.
  - destruct (split sep r) as [|h t]; [congruence|].
    destruct t as [|h' t].
    + simpl in *. now rewrite IH.
    + rewrite concat_cons in * by discriminate. now rewrite <- IH.
Qed.

Lemma length_split sep s : length (split sep s) = S (count_char sep s).
Proof.
  unfold count_char, occurrences.
  induction s as [|c r IH]; simpl; [reflexivity|].
  rewrite (Ascii.eqb_sym sep c).
  destruct (Ascii.eqb c sep); simpl; [now rewrite IH|].
  pose proof (split_not_nil sep r) as NE.
  destruct (split sep r) as [|h t]; [congruence|]. exact IH.
Qed.

Lemma split_pieces_free sep s :
  Forall (fun piece => count_char sep piece = 0%nat) (split sep s).
Proof.
  unfold count_char, occurrences.
  induction s as [|c r IH]; simpl; [repeat constructor|].
  destruct (Ascii.eqb c sep) eqn:E.
  - constructor; [reflexivity|exact IH].
  - pose proof (split_not_nil sep r) as NE.
    destruct (split sep r) as [|h t]; [congruence|].
    inversion IH; subst. constructor; [|assumption].
    simpl. rewrite (Ascii.eqb_sym sep c), E. assumption.
Qed.

Lemma lstrip_chars_split l :
  exists ws, l = ws ++ lstrip_chars l /\ forallb is_space ws = true.
Proof.
  induction l as [|c r (ws & E & F)]; [exists []; now split|].
  simpl. destruct (is_space c) eqn:S.
  - exists (c :: ws). simpl. rewrite S, F. split; [now f_equal|reflexivity].
  - exists []. now split.
Qed.

Lemma lstrip_chars_no_lead l : no_leading_space (lstrip_chars l).
Proof.
  induction l as [|c r IH]; simpl; [exact I|].
  destruct (is_space c) eqn:S; [exact IH|exact S].
Qed.

Lemma lstrip_chars_fix l : no_leading_space l -> lstrip_chars l = l.
Proof. destruct l as [|c r]; simpl; [reflexivity|]. now intros ->. Qed.

Lemma list_of_strip s :
  list_ascii_of_string (strip s) =
  rev (lstrip_chars (rev (lstrip_chars (list_ascii_of_string s)))).
Proof. unfold strip. apply list_ascii_of_string_of_list_ascii. Qed.

Lemma no_lead_prefix (l r : list ascii) :
  l <> [] -> no_leading_space (l ++ r) -> no_leading_space l.
Proof. destruct l; [congruence|]. simpl. auto. Qed.

(** What [strip] returns neither begins nor ends with whitespace. *)
Lemma strip_trimmed s : trimmed (strip s).
Proof.
  unfold trimmed. rewrite list_of_strip, rev_involutive.
  split; [|apply lstrip_chars_no_lead].
  set (m := lstrip_chars (list_ascii_of_string s)).
  destruct (lstrip_chars_split (rev m)) as (ws & E & _).
  destruct (lstrip_chars (rev m)) as [|c t] eqn:T; [exact I|].
  apply (no_lead_prefix _ (rev ws)).
  { simpl. intros H. apply app_eq_nil in H. destruct H; discriminate. }
  rewrite <- rev_app_distr, <- E, rev_involutive. apply lstrip_chars_no_lead.
Qed.

Lemma trimmed_strip s : trimmed s -> strip s = s.
Proof.
  intros [H1 H2]. unfold strip.
  rewrite (lstrip_chars_fix _ H1), (lstrip_chars_fix _ H2), rev_involutive.
  apply string_of_list_ascii_of_string.
Qed.

Lemma strip_idempotent s : strip (strip s) = strip s.
Proof. apply trimmed_strip, strip_trimmed. Qed.

(** [strip] removes whitespace only, from the two ends. *)
Lemma strip_decompose s :
  exists l r,
    list_ascii_of_string s = l ++ list_ascii_of_string (strip s) ++ r /\
    forallb is_space l = true /\ forallb is_space r = true.
Proof.
  rewrite list_of_strip.
  destruct (lstrip_chars_split (list_ascii_of_string s)) as (l & E & F).
  set (m := lstrip_chars (list_ascii_of_string s)) in *.
  destruct (lstrip_chars_split (rev m)) as (ws & E' & F').
  exists l, (rev ws). repeat split; [|assumption|].
  - rewrite <- rev_app_distr, <- E', rev_involutive. exact E.
  - rewrite forallb_forall in *. intros x H. apply F'. now apply in_rev.
Qed.

Lemma count_char_app_list c (l r : list ascii) :
  occurrences Ascii.eqb c (l ++ r) =
  (occurrences Ascii.eqb c l + occurrences Ascii.eqb c r)%nat.
Proof. unfold occurrences. now rewrite filter_app, length_app. Qed.

Lemma count_char_strip c s : (count_char c (strip s) <= count_char c s)%nat.
Proof.
  unfold count_char. destruct (strip_decompose s) as (l & r & E & _).
  rewrite E, !count_char_app_list. lia.
Qed.

Lemma all_characters_cons_Some chars (events : list (option string)) :
  flat_map (fun chars => map strip (split "," chars)) (dropna (Some chars :: events)) =
  map strip (split "," chars) ++
  flat_map (fun chars => map strip (split "," chars)) (dropna events).
Proof. reflexivity. Qed.

(** ** [sorted] and [sort_index] *)

Section SortedFacts.
Context {A : Type}.
Variable lt : A -> A -> bool.
Hypothesis lt_asym : forall a b, lt a b = true -> lt b a = false.
Hypothesis lt_negtrans :
  forall a b c, lt a b = false -> lt b c = false -> lt a c = false.

Lemma insert_asc_Permutation x l : Permutation (insert_asc lt x l) (x :: l).
Proof.
  induction l as [|y r IH]; simpl; [reflexivity|].
  destruct (lt y x); [|reflexivity].
  rewrite IH. apply perm_swap.
Qed.

Lemma sorted_Permutation l : Permutation (sorted lt l) l.
Proof.
  induction l as [|x r IH]; simpl; [reflexivity|].
  rewrite insert_asc_Permutation. now constructor.
Qed.

Lemma insert_asc_sorted x l :
  StronglySorted (fun a b => lt b a = false) l ->
  StronglySorted (fun a b => lt b a = false) (insert_asc lt x l).
Proof using lt_asym lt_negtrans.
  induction 1 as [|y r S IH F]; simpl; [repeat constructor|].
  destruct (lt y x) eqn:E.
  - constructor; [exact IH|].
    rewrite Forall_forall in *. intros z Hz.
    apply (Permutation_in _ (insert_asc_Permutation x r)) in Hz.
    destruct Hz as [<-|Hz]; [now apply lt_asym|now apply F].
  - constructor; [now constructor|].
    constructor; [exact E|].
    rewrite Forall_forall in *. intros z Hz.
    apply (lt_negtrans z y x); [now apply F|exact E].
Qed.

Lemma sorted_sorted l : StronglySorted (fun a b => lt b a = false) (sorted lt l).
Proof using lt_asym lt_negtrans.
  induction l as [|x r IH]; simpl; [constructor|].
  now apply insert_asc_sorted.
Qed.
End SortedFacts.

Lemma StronglySorted_keys_strict {V} (d : dict Z V) :
  StronglySorted (fun a b => (fst b <? fst a) = false) d ->
  NoDup (keys d) ->
  StronglySorted Z.lt (keys d).
Proof.
  induction 1 as [|a r S IH F]; simpl; intros ND; [constructor|].
  inversion ND; subst. constructor; [now apply IH|].
  rewrite Forall_forall in *. intros k Hk.
  apply in_map_iff in Hk. destruct Hk as (b & <- & Hb).
  pose proof (F b Hb) as L. apply Z.ltb_ge in L.
  assert (fst b <> fst a).
  { intros E. apply H1. rewrite <- E. now apply in_map. }
  lia.
Qed.

(** [sort_index] of a series with distinct integer labels: the same
    entries, the labels strictly ascending. *)
Lemma sort_index_spec {V} (d : dict Z V) :
  NoDup (keys d) ->
  Permutation (sort_index d) d /\ StronglySorted Z.lt (keys (sort_index d)).
Proof.
  intros ND. unfold sort_index.
  pose proof (sorted_Permutation (fun a b : Z * V => fst a <? fst b) d) as P.
  split; [exact P|].
  apply StronglySorted_keys_strict.
  - apply (sorted_sorted (fun a b : Z * V => fst a <? fst b)).
    + intros a b. rewrite Z.ltb_lt, Z.ltb_ge. lia.
    + intros a b c. rewrite !Z.ltb_ge. lia.
  - eapply Permutation_NoDup; [|exact ND].
    apply Permutation_map. now symmetry.
Qed.

Lemma fold_max_ascending (l : list Z) : forall d,
  StronglySorted Z.lt l -> Forall (fun y => d <= y) l ->
  fold_right Z.max d l = last l d.
Proof.
  induction l as [|y r IH]; intros d S F; [reflexivity|].
  inversion S; subst. inversion F; subst.
  cbn [fold_right]. rewrite IH by assumption.
  destruct r as [|z r']; [simpl; lia|].
  change (last (y :: z :: r') d) with (last (z :: r') d).
  assert (In (last (z :: r') d) (z :: r')).
  { clear. generalize z. induction r' as [|a r IH]; intros z0; [now left|].
    right. apply (IH a). }
  rewrite Forall_forall in H2. specialize (H2 _ H). lia.
Qed.

Lemma fold_min_lower (l : list Z) d :
  Forall (fun y => d <= y) l -> fold_right Z.min d l = d.
Proof.
  induction 1 as [|y r H F IH]; [reflexivity|].
  cbn [fold_right]. rewrite IH. lia.
Qed.

(** [max(index) - min(index)] of an ascending index is its last label
    minus its first. *)
Lemma span_ascending (index : list Z) :
  StronglySorted Z.lt index ->
  fold_right Z.max (hd 0 index) index - fold_right Z.min (hd 0 index) index =
  last index 0 - hd 0 index.
Proof.
  intros S. destruct index as [|x r]; [reflexivity|].
  assert (F : Forall (fun y => x <= y) (x :: r)).
  { inversion S; subst. constructor; [lia|].
    eapply Forall_impl; [|eassumption]. simpl. intros; lia. }
  cbn [hd]. rewrite fold_max_ascending, fold_min_lower by assumption.
  f_equal. destruct r; [reflexivity|]. 
  change (last (x :: z :: r) ?d) with (last (z :: r) d).
  clear. generalize z. induction r as [|a r IH]; intros z0; [reflexivity|].
  apply (IH a).
Qed.

Lemma last_ascending (x y : Z) r :
  StronglySorted Z.lt (x :: y :: r) -> x < last (x :: y :: r) 0.
Proof.
  intros S. inversion S; subst.
  assert (In (last (x :: y :: r) 0) (y :: r)).
  { change (last (x :: y :: r) 0) with (last (y :: r) 0).
    clear. generalize y. induction r as [|a r IH]; intros z0; [now left|].
    right. apply (IH a). }
  rewrite Forall_forall in H2. now apply H2.
Qed.

(** ** The run of [main] *)

Lemma components_grow (component : node -> list node) (ns : list node) :
  forall components,
  components <> [] ->
  fold_left
    (fun components v =>
       if existsb (mem v) components then components
       else components ++ [component v])
    ns components <> [].
Proof.
  induction ns as [|n r IH]; intros components NE; [exact NE|].
  cbn [fold_left]. apply IH.
  destruct (existsb (mem n) components); [exact NE|].
  destruct components; discriminate.
Qed.

(** There is no component exactly when there is no node. *)
Lemma strongly_connected_components_nil G :
  strongly_connected_components G = [] <-> nodes G = [].
Proof.
  unfold strongly_connected_components. split.
  - set (component := fun v =>
           filter (fun w => reaches G v w && reaches G w v) (nodes G)).
    destruct (nodes G) as [|n r]; [reflexivity|].
    cbn [fold_left existsb app]. intros H. exfalso.
    revert H. apply (components_grow component). discriminate.
  - intros ->. reflexivity.
Qed.

Lemma structure_outcome_spec G :
  structure_outcome G =
  match nodes G with [] => inr ValueError_max_empty | _ => inl tt end.
Proof.
  unfold structure_outcome.
  pose proof (strongly_connected_components_nil G) as H.
  destruct (strongly_connected_components G), (nodes G); try reflexivity.
  - destruct H as [H _]. specialize (H eq_refl). discriminate.
  - destruct H as [_ H]. specialize (H eq_refl). discriminate.
Qed.

Lemma worlds_lines_same f f' : same_columns f f' -> worlds_lines f = worlds_lines f'.
Proof. intros (_ & _ & _ & _ & _ & E). unfold worlds_lines. now rewrite E. Qed.

Lemma characters_lines_same f f' :
  same_columns f f' -> characters_lines f = characters_lines f'.
Proof. intros (_ & _ & _ & _ & E & _). unfold characters_lines. now rewrite E. Qed.

Lemma important_lines_same f f' :
  same_columns f f' -> important_lines f = important_lines f'.
Proof.
  intros (_ & _ & E1 & E2 & _ & _). unfold important_lines. now rewrite E1, E2.
Qed.

(** The run of [main] once the dates have been converted. *)
Lemma main_run events rows column :
  to_datetime (map Date events) = inl column ->
  main events rows start =
  (structure_outcome (create_graph events rows),
   {| frame := assign_Date events column;
      report_file :=
        Title :: Rule ::
        worlds_lines events ++
        temporal_lines (assign_Date events column) ++
        characters_lines events ++
        important_lines events ++
        structure_lines (create_graph events rows) |}).
Proof.
  intros H. unfold main, bind.
  cbn [write put_frame get_frame frame report_file start app].
  rewrite analyze_worlds_run.
  rewrite (analyze_temporal_patterns_run _ column) by exact H.
  rewrite analyze_character_involvement_run, analyze_important_events_run.
  rewrite analyze_graph_structure_run.
  unfold add_lines. cbn [frame report_file].
  rewrite <- (characters_lines_same _ _ (assign_Date_same_columns events column)).
  rewrite <- (important_lines_same _ _ (assign_Date_same_columns events column)).
  rewrite <- !app_assoc. reflexivity.
Qed.

Lemma nodes_create_graph_nil events rows :
  nodes (create_graph events rows) = [] <->
  events = [] /\ inserted_rows rows = [].
Proof.
  split.
  - intros H. split.
    + destruct events as [|e r]; [reflexivity|]. exfalso.
      assert (I : In (ID e) (nodes (create_graph (e :: r) rows)))
        by (apply In_nodes_create_graph; left; now left).
      rewrite H in I. exact I.
    + destruct (inserted_rows rows) as [|e r] eqn:E; [reflexivity|]. exfalso.
      assert (Ie : In e (inserted_rows rows)) by (rewrite E; now left).
      apply filter_In in Ie. destruct Ie as [Ie C].
      unfold complete in C.
      destruct (Source e) as [u|] eqn:Su; [|discriminate].
      destruct (Target e) as [v|] eqn:Tv; [|discriminate].
      assert (I : In u (nodes (create_graph events rows))).
      { apply In_nodes_create_graph. right. unfold endpoints.
        apply in_flat_map. exists e. split; [assumption|].
        unfold row_endpoints. rewrite Su, Tv. now left. }
      rewrite H in I. exact I.
  - intros [-> E]. rewrite create_graph_inserted, E. reflexivity.
Qed.

(** ** The structure section *)

Lemma In_enumerate {A} (l : list A) : forall k i x,
  In (i, x) (enumerate k l) <->
  (k <= i)%nat /\ nth_error l (i - k) = Some x.
Proof.
  induction l as [|y r IH]; intros k i x; cbn [enumerate In].
  - split; [tauto|]. intros [_ H]. now destruct (i - k)%nat.
  - rewrite IH. split.
    + intros [E|[L H]].
      * inversion E; subst. rewrite Nat.sub_diag. split; [lia|reflexivity].
      * split; [lia|]. replace (i - k)%nat with (S (i - S k)) by lia. exact H.
    + intros [L H]. destruct (Nat.eq_dec i k) as [->|N].
      * rewrite Nat.sub_diag in H. inversion H. now left.
      * right. split; [lia|].
        replace (i - k)%nat with (S (i - S k)) in H by lia. exact H.
Qed.

Lemma In_Loop_structure_lines G i c :
  In (Loop i c) (structure_lines G) <-> In (Loop i c) (loop_lines G).
Proof.
  unfold structure_lines. rewrite !in_app_iff. split; [|tauto].
  intros [H|[H|[H|[H|[H|H]]]]]; try assumption; exfalso.
  - simpl in H. intuition discriminate.
  - apply in_map_iff in H. destruct H as ([v b] & E & _). discriminate.
  - simpl in H. intuition discriminate.
  - unfold chain_lines in H. destruct (longest_path G) as [[|v p]|]; simpl in H;
      intuition discriminate.
  - unfold component_lines in H.
    destruct (strongly_connected_components G); simpl in H;
      intuition discriminate.
Qed.

Lemma In_Notable_structure_lines G :
  In Notable_header (structure_lines G) <-> In Notable_header (loop_lines G).
Proof.
  unfold structure_lines. rewrite !in_app_iff. split; [|tauto].
  intros [H|[H|[H|[H|[H|H]]]]]; try assumption; exfalso.
  - simpl in H. intuition discriminate.
  - apply in_map_iff in H. destruct H as ([v b] & E & _). discriminate.
  - simpl in H. intuition discriminate.
  - unfold chain_lines in H. destruct (longest_path G) as [[|v p]|]; simpl in H;
      intuition discriminate.
  - unfold component_lines in H.
    destruct (strongly_connected_components G); simpl in H;
      intuition discriminate.
Qed.

Lemma In_Loop_loop_lines G i c :
  In (Loop i c) (loop_lines G) <->
  (1 <= i <= 3)%nat /\ nth_error (simple_cycles G) (i - 1) = Some c.
Proof.
  unfold loop_lines.
  assert (E : In (Loop i c)
                (map (fun '(i, cycle) => Loop i cycle)
                     (enumerate 1 (firstn 3 (simple_cycles G)))) <->
              (1 <= i <= 3)%nat /\ nth_error (simple_cycles G) (i - 1) = Some c).
  { rewrite in_map_iff. split.
    - intros ([j d] & E & H). inversion E; subst.
      apply In_enumerate in H. destruct H as [L H].
      rewrite nth_error_firstn in H.
      destruct (Nat.ltb_spec (i - 1) 3); [|discriminate].
      split; [lia|assumption].
    - intros [L H]. exists (i, c). split; [reflexivity|].
      apply In_enumerate. split; [lia|]. rewrite nth_error_firstn.
      destruct (Nat.ltb_spec (i - 1) 3); [assumption|lia]. }
  destruct (simple_cycles G) as [|c0 r] eqn:C.
  - split; [intros []|]. intros [_ H]. now destruct (i - 1)%nat.
  - cbn [In]. rewrite E. split; [|tauto]. intros [H|H]; [discriminate|exact H].
Qed.

Lemma In_Notable_loop_lines G :
  In Notable_header (loop_lines G) <-> simple_cycles G <> [].
Proof.
  unfold loop_lines. destruct (simple_cycles G) as [|c0 r].
  - split; [intros []|congruence].
  - split; [discriminate|]. intros _. now left.
Qed.

Lemma NoDup_firstn {A} n (l : list A) : NoDup l -> NoDup (firstn n l).
Proof.
  intros H. rewrite <- (firstn_skipn n l) in H.
  now apply NoDup_app_remove_r in H.
Qed.

(** ** Dead ends and the edge table *)

Lemma In_linked_pairs rows u v :
  In (u, v) (linked_pairs rows) <->
  exists e, In e rows /\ Source e = Some u /\ Target e = Some v.
Proof.
  unfold linked_pairs. rewrite in_flat_map. split.
  - intros (e & He & H). exists e. split; [assumption|].
    unfold row_pair in H.
    destruct (Source e), (Target e); simpl in H; try tauto.
    destruct H as [H|[]]. inversion H. now split.
  - intros (e & He & S & T). exists e. split; [assumption|].
    unfold row_pair. rewrite S, T. now left.
Qed.

Lemma out_degree_zero G v :
  out_degree G v = 0%nat <-> forall w, ~ In (v, w) (edges G).
Proof.
  unfold out_degree. split.
  - intros H w I. apply successors_In in I.
    destruct (successors G v); [exact I|discriminate].
  - intros H. destruct (successors G v) as [|w r] eqn:E; [reflexivity|].
    exfalso. apply (H w), successors_In. rewrite E. now left.
Qed.

(** ** The attributes of the nodes *)

Lemma dict_get_None {V} (d : dict node V) k :
  dict_get Z.eqb d k = None <-> ~ In k (keys d).
Proof.
  induction d as [|[k' v] r IH]; simpl; [tauto|].
  destruct (Z.eqb_spec k k') as [->|N].
  - split; [discriminate|tauto].
  - rewrite IH. intuition congruence.
Qed.

Lemma dict_get_setdefault_new {V} (d : dict node V) k v n :
  ~ In k (keys d) ->
  dict_get Z.eqb (dict_setdefault Z.eqb d k v) n =
  match dict_get Z.eqb d n with
  | Some x => Some x
  | None => if Z.eqb n k then Some v else None
  end.
Proof.
  intros H. unfold dict_setdefault.
  apply (dict_mem_false Z.eqb Z.eqb_spec) in H. rewrite H. clear H.
  induction d as [|[k' v'] r IH]; simpl; [reflexivity|].
  destruct (Z.eqb n k'); [reflexivity|exact IH].
Qed.

Lemma node_attr_add_edge_row_fresh G e n a :
  node_attr (add_edge_row G e) n = Some (Some a) ->
  node_attr G n = Some (Some a).
Proof.
  unfold add_edge_row.
  destruct (Source e) as [u|], (Target e) as [v|]; try tauto.
  unfold node_attr, add_edge. cbn [G_node].
  assert (S : forall (d : dict node (option node_attrs)) k,
             dict_get Z.eqb (dict_setdefault Z.eqb d k None) n = Some (Some a) ->
             dict_get Z.eqb d n = Some (Some a)).
  { intros d k. destruct (in_dec Z.eq_dec k (keys d)) as [I|I].
    - unfold dict_setdefault.
      apply (dict_mem_In Z.eqb Z.eqb_spec) in I. now rewrite I.
    - rewrite (dict_get_setdefault_new _ _ _ _ I).
      destruct (dict_get Z.eqb d n); [tauto|].
      destruct (Z.eqb n k); discriminate. }
  intros H. now apply S in H; apply S in H.
Qed.

Lemma node_attr_fold_add_edge_row_fresh rows : forall G n a,
  node_attr (fold_left add_edge_row rows G) n = Some (Some a) ->
  node_attr G n = Some (Some a).
Proof.
  induction rows as [|e r IH]; simpl; intros G n a H; [exact H|].
  apply IH in H. now apply node_attr_add_edge_row_fresh in H.
Qed.

Lemma last_event_None events n :
  last_event events n = None <-> ~ In n (map ID events).
Proof.
  split.
  - intros H I. apply last_event_Some in I. destruct I as (e & E & _).
    congruence.
  - intros H. unfold last_event. apply find_none_iff. intros e He.
    apply in_rev in He. destruct (Z.eqb_spec (ID e) n) as [<-|]; [|reflexivity].
    exfalso. apply H. now apply in_map.
Qed.

(** ** [has_degree_2] *)

Lemma occurrences_names n (column : list (option node)) :
  occurrences Z.eqb n (dropna column) = length (filter (names n) column).
Proof.
  unfold occurrences.
  induction column as [|[m|] r IH]; simpl; auto.
  destruct (Z.eqb n m); simpl; now rewrite IH.
Qed.

Lemma first_seen_NoDup_fold {K} (eqb : K -> K -> bool)
      (eqb_spec : forall x y, reflect (x = y) (eqb x y)) (l : list K) :
  forall acc, NoDup (acc ++ l) -> fold_left (touch eqb) l acc = acc ++ l.
Proof.
  induction l as [|x r IH]; intros acc ND; simpl; [now rewrite app_nil_r|].
  assert (T : touch eqb acc x = acc ++ [x]).
  { unfold touch. destruct (existsb (eqb x) acc) eqn:E; [|reflexivity].
    exfalso. apply (existsb_eqb_In eqb eqb_spec) in E.
    apply NoDup_remove_2 in ND. apply ND, in_or_app. now left. }
  rewrite T, IH; rewrite <- app_assoc; [reflexivity|exact ND].
Qed.

(** Without repeated pairs the edges of the built graph are the pairs of
    the rows, in the order of the rows. *)
Lemma edges_create_graph_NoDup events rows :
  NoDup (linked_pairs rows) -> edges (create_graph events rows) = linked_pairs rows.
Proof.
  intros ND. rewrite edges_create_graph.
  now rewrite (first_seen_NoDup_fold pair_eqb pair_eqb_spec).
Qed.

Lemma filter_linked_pairs_complete (p : node * node -> bool) rows :
  Forall (fun e => complete e = true) rows ->
  length (filter p (linked_pairs rows)) =
  length (filter (fun e => match Source e, Target e with
                           | Some u, Some v => p (u, v)
                           | _, _ => false
                           end) rows).
Proof.
  induction 1 as [|e r C F IH]; [reflexivity|].
  unfold linked_pairs in *. cbn [flat_map filter].
  rewrite filter_app, length_app, IH. unfold row_pair.
  destruct (Source e) as [u|], (Target e) as [v|]; try reflexivity.
  cbn [filter]. destruct (p (u, v)); reflexivity.
Qed.

Lemma filter_linked_pairs_le (p : node * node -> bool) rows :
  (length (filter p (linked_pairs rows)) <=
   length (filter (fun e => match Source e, Target e with
                            | Some u, Some v => p (u, v)
                            | _, _ => false
                            end) rows))%nat.
Proof.
  induction rows as [|e r IH]; [reflexivity|].
  unfold linked_pairs in *. cbn [flat_map filter].
  rewrite filter_app, length_app. unfold row_pair at 1.
  destruct (Source e) as [u|], (Target e) as [v|]; simpl; try lia.
  destruct (p (u, v)); simpl; lia.
Qed.

Lemma filter_le {A} (p q : A -> bool) (l : list A) :
  (forall x, p x = true -> q x = true) ->
  (length (filter p l) <= length (filter q l))%nat.
Proof.
  intros H. induction l as [|x r IH]; simpl; [lia|].
  destruct (p x) eqn:P.
  - rewrite (H x P). simpl. lia.
  - destruct (q x); simpl; lia.
Qed.

Lemma filter_edges_le events rows (p : node * node -> bool) :
  (length (filter p (edges (create_graph events rows))) <=
   length (filter p (linked_pairs rows)))%nat.
Proof.
  apply NoDup_incl_length.
  - apply NoDup_filter, edges_NoDup.
  - intros x H. apply filter_In in H. destruct H as [H1 H2].
    apply filter_In. split; [|exact H2].
    apply (proj1 (In_edges_create_graph events rows x) H1).
Qed.

Lemma in_degree_filter G n :
  in_degree G n = length (filter (fun e => Z.eqb n (snd e)) (edges G)).
Proof.
  unfold in_degree, predecessors. rewrite length_map.
  f_equal. apply filter_ext. intros e. apply Z.eqb_sym.
Qed.

Lemma out_degree_filter G n :
  out_degree G n = length (filter (fun e => Z.eqb n (fst e)) (edges G)).
Proof.
  unfold out_degree, successors. rewrite length_map.
  f_equal. apply filter_ext. intros e. apply Z.eqb_sym.
Qed.

Lemma incoming_count rows n :
  get_count Z.eqb (value_counts Z.eqb (map Target rows)) n =
  length (filter (fun e => names n (Target e)) rows).
Proof.
  rewrite (get_count_value_counts Z.eqb Z.eqb_spec), occurrences_names.
  apply length_filter_map.
Qed.

Lemma outgoing_count rows n :
  get_count Z.eqb (value_counts Z.eqb (map Source rows)) n =
  length (filter (fun e => names n (Source e)) rows).
Proof.
  rewrite (get_count_value_counts Z.eqb Z.eqb_spec), occurrences_names.
  apply length_filter_map.
Qed.

(** With complete rows and no repeated pair [has_degree_2] reads the
    degrees of the built graph. *)
Lemma has_degree_2_graph_degree events rows n :
  Forall (fun e => complete e = true) rows ->
  NoDup (linked_pairs rows) ->
  has_degree_2 rows n =
  ((in_degree (create_graph events rows) n =? 1)%nat
   && (out_degree (create_graph events rows) n =? 1)%nat).
Proof.
  intros C ND. unfold has_degree_2.
  rewrite incoming_count, outgoing_count.
  rewrite in_degree_filter, out_degree_filter.
  rewrite (edges_create_graph_NoDup events rows ND).
  rewrite !(filter_linked_pairs_complete _ rows C).
  f_equal; f_equal; f_equal; apply filter_ext_in; intros e He;
    rewrite Forall_forall in C; specialize (C e He); unfold complete in C;
    destruct (Source e), (Target e); simpl in *; congruence.
Qed.

(** ** Dates *)

Lemma to_datetime_cell_converted c c' :
  to_datetime_cell c = Some c' -> converted c' = true.
Proof.
  destruct c as [|text|y m d]; simpl.
  - intros H. now inversion H.
  - destruct (is_nat_string text); [intros H; now inversion H|].
    unfold strptime. intros H.
    repeat match type of H with
           | match ?x with _ => _ end = _ => destruct x; try discriminate
           | (if ?x then _ else _) = _ => destruct x; try discriminate
           end.
    now inversion H.
  - intros H. now inversion H.
Qed.

Lemma to_datetime_from_cells column : forall start parsed,
  to_datetime_from start column = inl parsed ->
  map to_datetime_cell column = map Some parsed /\
  forallb converted parsed = true.
Proof.
  induction column as [|c r IH]; simpl; intros start parsed H.
  - inversion H. now split.
  - destruct (to_datetime_cell c) as [c'|] eqn:E; [|discriminate].
    destruct (to_datetime_from (S start) r) as [r'|] eqn:R; [|discriminate].
    inversion H; subst. destruct (IH _ _ R) as [I1 I2]. simpl.
    rewrite I1, I2, (to_datetime_cell_converted _ _ E). now split.
Qed.

Lemma to_datetime_from_first column : forall start e,
  to_datetime_from start column = inr e ->
  exists i c,
    e = ValueError_time_data (start + i) /\
    nth_error column i = Some c /\ to_datetime_cell c = None /\
    forall j c', (j < i)%nat -> nth_error column j = Some c' ->
                 to_datetime_cell c' <> None.
Proof.
  induction column as [|c r IH]; simpl; intros start e H; [discriminate|].
  destruct (to_datetime_cell c) as [c'|] eqn:E.
  - destruct (to_datetime_from (S start) r) as [r'|e'] eqn:R; [discriminate|].
    inversion H; subst. destruct (IH _ _ R) as (i & c0 & -> & N & T & F).
    exists (S i), c0. repeat split; try assumption.
    + f_equal. lia.
    + intros [|j] c1 L Hj; simpl in Hj.
      * inversion Hj; subst. congruence.
      * apply (F j); [lia|assumption].
  - inversion H; subst. exists 0%nat, c. repeat split; try assumption.
    + f_equal. lia.
    + intros j c1 L. lia.
Qed.

Lemma is_digit_value c : is_digit c = true -> 0 <= digit_value c <= 9.
Proof.
  unfold is_digit, digit_value. cbv zeta.
  rewrite andb_true_iff, !Nat.leb_le. lia.
Qed.

Lemma days_in_month_bound y m : 28 <= days_in_month y m <= 31.
Proof.
  unfold days_in_month.
  destruct (m =? 2); [destruct (is_leap y); lia|].
  destruct ((m =? 4) || (m =? 6) || (m =? 9) || (m =? 11)); lia.
Qed.

Lemma length_list_ascii_of_string s :
  String.length s = length (list_ascii_of_string s).
Proof. induction s as [|c s IH]; simpl; [reflexivity|now rewrite IH]. Qed.

Lemma Some_inj {A} (a b : A) : Some a = Some b -> a = b.
Proof. congruence. Qed.

Lemma directive_d_spec token d :
  directive_d token = Some d ->
  1 <= d <= 31 /\ (1 <= String.length token <= 2)%nat.
Proof.
  unfold directive_d. rewrite length_list_ascii_of_string.
  destruct (list_ascii_of_string token) as [|c1 [|c2 [|c3 r]]];
    try discriminate.
  - destruct (is_digit c1) eqn:D1; [|discriminate]. cbn [andb].
    destruct (Z.leb_spec 1 (digit_value c1)) as [L|L]; [|discriminate].
    intros H; apply Some_inj in H; rewrite <- H. apply is_digit_value in D1. cbn [length]. lia.
  - destruct (Ascii.eqb c1 " ").
    + destruct (is_digit c2) eqn:D2; [|discriminate]. cbn [andb].
      destruct (Z.leb_spec 1 (digit_value c2)) as [L|L]; [|discriminate].
      intros H; apply Some_inj in H; rewrite <- H. apply is_digit_value in D2. cbn [length]. lia.
    + cbv zeta.
      destruct (is_digit c1 && is_digit c2
                && (1 <=? 10 * digit_value c1 + digit_value c2)
                && (10 * digit_value c1 + digit_value c2 <=? 31)) eqn:C;
        [|discriminate].
      intros H; apply Some_inj in H; rewrite <- H.
      rewrite !andb_true_iff, Z.leb_le, Z.leb_le in C. cbn [length]. lia.
Qed.

Lemma directive_m_spec token m :
  directive_m token = Some m ->
  1 <= m <= 12 /\ (1 <= String.length token <= 2)%nat.
Proof.
  unfold directive_m. rewrite length_list_ascii_of_string.
  destruct (list_ascii_of_string token) as [|c1 [|c2 [|c3 r]]];
    try discriminate.
  - destruct (is_digit c1) eqn:D1; [|discriminate]. cbn [andb].
    destruct (Z.leb_spec 1 (digit_value c1)) as [L|L]; [|discriminate].
    intros H; apply Some_inj in H; rewrite <- H. apply is_digit_value in D1. cbn [length]. lia.
  - cbv zeta.
    destruct (is_digit c1 && is_digit c2
              && (1 <=? 10 * digit_value c1 + digit_value c2)
              && (10 * digit_value c1 + digit_value c2 <=? 12)) eqn:C;
      [|discriminate].
    intros H; apply Some_inj in H; rewrite <- H.
    rewrite !andb_true_iff, Z.leb_le, Z.leb_le in C. cbn [length]. lia.
Qed.

Lemma directive_Y_spec token y :
  directive_Y token = Some y ->
  0 <= y <= 9999 /\ String.length token = 4%nat.
Proof.
  unfold directive_Y. rewrite length_list_ascii_of_string.
  destruct (list_ascii_of_string token) as [|c1 [|c2 [|c3 [|c4 [|c5 r]]]]];
    try discriminate.
  destruct (is_digit c1) eqn:D1; [|discriminate].
  destruct (is_digit c2) eqn:D2; [|discriminate].
  destruct (is_digit c3) eqn:D3; [|discriminate].
  destruct (is_digit c4) eqn:D4; [|discriminate].
  cbn [andb]. intros H; apply Some_inj in H; rewrite <- H.
  apply is_digit_value in D1, D2, D3, D4. cbn [length]. lia.
Qed.

Lemma length_append (a b : string) :
  String.length (a ++ b) = (String.length a + String.length b)%nat.
Proof. induction a as [|c a IH]; simpl; [reflexivity|now rewrite IH]. Qed.

Lemma digit_char_spec k :
  0 <= k <= 9 ->
  is_digit (digit_char k) = true /\
  digit_value (digit_char k) = k /\
  Ascii.eqb (digit_char k) "-" = false /\
  Ascii.eqb (digit_char k) " " = false.
Proof.
  intros H.
  assert (C : k = 0 \/ k = 1 \/ k = 2 \/ k = 3 \/ k = 4 \/
              k = 5 \/ k = 6 \/ k = 7 \/ k = 8 \/ k = 9) by lia.
  repeat (destruct C as [->|C]); try subst k; vm_compute; auto.
Qed.

Lemma split_date (a b c e f g h i : ascii) :
  Ascii.eqb a "-" = false -> Ascii.eqb b "-" = false ->
  Ascii.eqb c "-" = false -> Ascii.eqb e "-" = false ->
  Ascii.eqb f "-" = false -> Ascii.eqb g "-" = false ->
  Ascii.eqb h "-" = false -> Ascii.eqb i "-" = false ->
  split "-"
    (String a (String b (String "-" (String c (String e (String "-"
       (String f (String g (String h (String i "")))))))))) =
  [String a (String b ""); String c (String e "");
   String f (String g (String h (String i "")))].
Proof.
  intros Ha Hb Hc He Hf Hg Hh Hi.
  cbn [split]. rewrite Ha, Hb, Hc, He, Hf, Hg, Hh, Hi.
  reflexivity.
Qed.

(** ** Degrees *)

Lemma out_degree_sources G v :
  out_degree G v = length (filter (fun t => Z.eqb t v) (map fst (edges G))).
Proof.
  unfold out_degree, successors.
  now rewrite length_map, length_filter_map.
Qed.

Lemma sum_out_degree G :
  well_formed G -> NoDup (nodes G) ->
  list_sum (map (out_degree G) (nodes G)) = number_of_edges G.
Proof.
  intros wf ND. unfold number_of_edges.
  rewrite <- (length_map fst (edges G)).
  rewrite <- (sum_of_counts (nodes G) (map fst (edges G)) ND).
  - apply f_equal, map_ext, out_degree_sources.
  - intros t H. apply in_map_iff in H. destruct H as ([u v] & <- & H).
    now apply wf in H.
Qed.

Lemma is_nat_string_short text :
  is_nat_string text = true -> (String.length text <= 3)%nat.
Proof.
  unfold is_nat_string. rewrite existsb_exists.
  intros (s & H & E). apply String.eqb_eq in E. subst s.
  simpl in H.
  repeat (destruct H as [<-|H]; [simpl; lia|]). destruct H.
Qed.

Lemma strptime_split text d m y :
  split "-" text = [d; m; y] ->
  String.length text =
  (String.length d + String.length m + String.length y + 2)%nat.
Proof.
  intros H. rewrite <- (concat_split "-" text), H.
  cbn [String.concat]. rewrite !length_append. simpl. lia.
Qed.

(** ** Betweenness of the nodes at the ends *)

Section BfsEdges.
Variable G : DiGraph.
Variable s : node.

Lemma bfs_visit_by_edge v Dv sigmav st w :
  In w (successors G v) ->
  pre_by_edge G st /\ met_by_edge G s st ->
  pre_by_edge G (bfs_visit v Dv sigmav st w) /\
  met_by_edge G s (bfs_visit v Dv sigmav st w).
Proof.
  intros E [HP HM]. unfold bfs_visit.
  set (st1 := if dict_mem Z.eqb (bfs_D st) w then st
              else {| bfs_S := bfs_S st; bfs_P := bfs_P st;
                      bfs_sigma := bfs_sigma st;
                      bfs_D := dict_set Z.eqb (bfs_D st) w (S Dv);
                      bfs_Q := bfs_Q st ++ [w] |}).
  assert (P1 : pre_by_edge G st1 /\ met_by_edge G s st1).
  { unfold st1. destruct (dict_mem Z.eqb (bfs_D st) w); [now split|].
    split; [exact HP|].
    intros x Hx. unfold seen in Hx. cbn [bfs_S bfs_Q] in Hx.
    rewrite app_assoc in Hx. apply in_app_or in Hx.
    destruct Hx as [Hx|[<-|[]]]; [now apply HM|].
    right. now exists v. }
  destruct P1 as [HP1 HM1].
  destruct (lookup (bfs_D st1) w 0 =? S Dv)%nat; [|now split].
  split.
  - intros x u. unfold pre. cbn [bfs_P].
    destruct (Z.eq_dec x w) as [->|N].
    + rewrite lookup_set_same. intros H. apply in_app_or in H.
      destruct H as [H|[<-|[]]]; [now apply HP1|exact E].
    + rewrite lookup_set_other by assumption. apply HP1.
  - exact HM1.
Qed.

Lemma fold_bfs_visit_by_edge v Dv sigmav ws : forall st,
  (forall w, In w ws -> In w (successors G v)) ->
  pre_by_edge G st /\ met_by_edge G s st ->
  pre_by_edge G (fold_left (bfs_visit v Dv sigmav) ws st) /\
  met_by_edge G s (fold_left (bfs_visit v Dv sigmav) ws st).
Proof.
  induction ws as [|w r IH]; intros st H I; [exact I|].
  cbn [fold_left]. apply IH.
  - intros x Hx. apply H. now right.
  - apply bfs_visit_by_edge; [apply H; now left|exact I].
Qed.

Lemma bfs_loop_by_edge fuel : forall st,
  pre_by_edge G st /\ met_by_edge G s st ->
  pre_by_edge G (bfs_loop fuel G st) /\ met_by_edge G s (bfs_loop fuel G st).
Proof.
  induction fuel as [|fuel IH]; intros st I; [exact I|].
  cbn [bfs_loop]. destruct (bfs_Q st) as [|v q] eqn:Q; [exact I|].
  cbv zeta. apply IH. apply fold_bfs_visit_by_edge; [auto|].
  destruct I as [HP HM]. split; [exact HP|].
  intros x Hx. apply HM. unfold seen in *. cbn [bfs_S bfs_Q] in Hx.
  rewrite Q. rewrite <- app_assoc in Hx. exact Hx.
Qed.

Lemma shortest_path_basic_by_edge :
  let st := single_source_shortest_path_basic G s in
  (forall w u, In u (lookup (bfs_P st) w []) -> In w (successors G u)) /\
  (forall x, In x (bfs_S st) -> x = s \/ exists u, In x (successors G u)).
Proof.
  cbv zeta.
  destruct (bfs_loop_by_edge (number_of_nodes G)
              {| bfs_S := [];
                 bfs_P := map (fun v => (v, [])) (nodes G);
                 bfs_sigma :=
                   dict_set Z.eqb (map (fun v => (v, 0%Q)) (nodes G)) s 1%Q;
                 bfs_D := [(s, 0%nat)];
                 bfs_Q := [s] |}) as [HP HM].
  - split.
    + intros w u. unfold pre. cbn [bfs_P]. rewrite lookup_const. intros [].
    + intros x. unfold seen. cbn [bfs_S bfs_Q app]. intros [<-|[]]. now left.
  - split; [exact HP|].
    intros x Hx. apply HM. unfold seen. apply in_or_app. now left.
Qed.
End BfsEdges.

(** The accumulation leaves alone a node that is the predecessor of no
    node, up to the addition of 0, and a node that is not taken from [S]
    but as the source. *)
Lemma accumulate_fold_end P sigma s v ws : forall acc,
  (forall w, ~ In v (lookup P w [])) ->
  lookup (snd acc) v 0%Q = 0%Q ->
  lookup (snd (fold_left (accumulate_step P sigma s) ws acc)) v 0%Q = 0%Q /\
  (lookup (fst (fold_left (accumulate_step P sigma s) ws acc)) v 0
   == lookup (fst acc) v 0)%Q.
Proof.
  induction ws as [|w r IH]; intros acc HP Hd; [split; [exact Hd|reflexivity]|].
  cbn [fold_left]. rewrite accumulate_step_eq. cbv zeta.
  set (delta := add_all _ (lookup P w []) (snd acc)).
  assert (D : lookup delta v 0%Q = 0%Q).
  { unfold delta. rewrite add_all_other by apply HP. exact Hd. }
  destruct (Z.eqb w s).
  - destruct (IH (fst acc, delta) HP D) as [I1 I2]. split; assumption.
  - destruct (IH (dict_set Z.eqb (fst acc) w
                           (bt acc w + lookup delta w 0)%Q, delta) HP D)
      as [I1 I2].
    split; [exact I1|]. rewrite I2. cbn [fst].
    destruct (Z.eq_dec v w) as [<-|N].
    + rewrite lookup_set_same, D. unfold bt. ring.
    + rewrite lookup_set_other by assumption. reflexivity.
Qed.

Lemma accumulate_fold_source P sigma s v ws : forall acc,
  (forall w, In w ws -> w = v -> w = s) ->
  lookup (fst (fold_left (accumulate_step P sigma s) ws acc)) v 0%Q =
  lookup (fst acc) v 0%Q.
Proof.
  induction ws as [|w r IH]; intros acc H; [reflexivity|].
  cbn [fold_left]. rewrite IH by (intros x Hx; apply H; now right).
  rewrite accumulate_step_eq. cbv zeta.
  destruct (Z.eqb_spec w s) as [->|N]; [reflexivity|]. cbn [fst].
  apply lookup_set_other. intros ->. apply N, H; [now left|reflexivity].
Qed.

Lemma out_degree_0_successors G v : out_degree G v = 0%nat -> successors G v = [].
Proof. unfold out_degree. now destruct (successors G v). Qed.

Lemma in_degree_0_successors G v u :
  in_degree G v = 0%nat -> ~ In v (successors G u).
Proof.
  unfold in_degree. intros H I. apply successors_In, predecessors_In in I.
  destruct (predecessors G v); [exact I|discriminate].
Qed.

(** One source adds nothing to the betweenness of a node without
    outgoing or without incoming edges. *)
Lemma accumulate_basic_end G b s v :
  out_degree G v = 0%nat \/ in_degree G v = 0%nat ->
  (lookup (accumulate_basic b (single_source_shortest_path_basic G s) s) v 0
   == lookup b v 0)%Q.
Proof.
  intros H. unfold accumulate_basic.
  destruct (shortest_path_basic_by_edge G s) as [HP HM].
  set (st := single_source_shortest_path_basic G s) in *.
  destruct H as [H|H].
  - apply (accumulate_fold_end (bfs_P st) (bfs_sigma st) s v (rev (bfs_S st))
             (b, map (fun x => (x, 0%Q)) (bfs_S st))).
    + intros w I. apply HP in I.
      rewrite (out_degree_0_successors G v H) in I. exact I.
    + cbn [snd]. apply lookup_const.
  - rewrite accumulate_fold_source; [reflexivity|].
    intros w I ->. apply in_rev in I. apply HM in I.
    destruct I as [I|[u I]]; [exact I|].
    exfalso. apply (in_degree_0_successors G v u H I).
Qed.

Lemma sources_end G v sources : forall b,
  out_degree G v = 0%nat \/ in_degree G v = 0%nat ->
  (lookup (fold_left (fun betweenness s =>
                        accumulate_basic betweenness
                          (single_source_shortest_path_basic G s) s)
                     sources b) v 0
   == lookup b v 0)%Q.
Proof.
  induction sources as [|s r IH]; intros b H; [reflexivity|].
  cbn [fold_left]. rewrite IH by assumption.
  now apply accumulate_basic_end.
Qed.

(** ** Reachability and the strongly connected components *)

Lemma connects_trans G u v w : connects G u v -> connects G v w -> connects G u w.
Proof.
  intros H1 H2. induction H2 as [|x y H IH E]; [exact H1|].
  now apply (connects_step G u x y).
Qed.

Lemma mem_In x l : mem x l = true <-> In x l.
Proof. apply (existsb_eqb_In Z.eqb Z.eqb_spec). Qed.

Lemma mem_false x l : mem x l = false <-> ~ In x l.
Proof. rewrite <- mem_In. destruct (mem x l); intuition congruence. Qed.

Lemma expand_In G seen x :
  In x (expand G seen) <->
  In x seen \/ exists y, In y seen /\ In x (successors G y).
Proof.
  unfold expand. rewrite (fold_touch_In Z.eqb Z.eqb_spec), in_flat_map.
  reflexivity.
Qed.

Lemma reachable_incl k G : forall seen x,
  In x seen -> In x (reachable k G seen).
Proof.
  induction k as [|k IH]; intros seen x H; [exact H|].
  cbn [reachable]. apply IH. apply expand_In. now left.
Qed.

Lemma reachable_sound k G : forall seen x,
  In x (reachable k G seen) -> exists u, In u seen /\ connects G u x.
Proof.
  induction k as [|k IH]; intros seen x H.
  - exists x. split; [exact H|constructor].
  - cbn [reachable] in H. apply IH in H. destruct H as (u & Hu & C).
    apply expand_In in Hu. destruct Hu as [Hu|(y & Hy & E)].
    + now exists u.
    + exists y. split; [exact Hy|].
      apply (connects_trans G y u x); [|exact C].
      apply (connects_step G y y u); [constructor|now apply successors_In].
Qed.

Lemma closedb_spec G seen : closedb G seen = true <-> closed G seen.
Proof.
  unfold closedb, closed. rewrite forallb_forall. split.
  - intros H x w Hx Hw. apply mem_In, H, in_flat_map. now exists x.
  - intros H w Hw. apply in_flat_map in Hw. destruct Hw as (x & Hx & Hw).
    apply mem_In. now apply (H x).
Qed.

Lemma fold_touch_present (ws : list node) : forall l,
  (forall w, In w ws -> In w l) -> fold_left (touch Z.eqb) ws l = l.
Proof.
  induction ws as [|w r IH]; intros l H; [reflexivity|].
  cbn [fold_left].
  assert (T : touch Z.eqb l w = l).
  { unfold touch. replace (existsb (Z.eqb w) l) with true; [reflexivity|].
    symmetry. apply mem_In, H. now left. }
  rewrite T. apply IH. intros x Hx. apply H. now right.
Qed.

Lemma closed_expand G seen : closed G seen -> expand G seen = seen.
Proof.
  intros H. unfold expand. apply fold_touch_present.
  intros w Hw. apply in_flat_map in Hw. destruct Hw as (x & Hx & Hw).
  now apply (H x).
Qed.

Lemma closed_reachable k G : forall seen,
  closed G seen -> reachable k G seen = seen.
Proof.
  induction k as [|k IH]; intros seen H; [reflexivity|].
  cbn [reachable]. fold (expand G seen). rewrite (closed_expand G seen H).
  now apply IH.
Qed.

Lemma forallb_false {A} (f : A -> bool) l :
  forallb f l = false -> exists x, In x l /\ f x = false.
Proof.
  induction l as [|a r IH]; simpl; [discriminate|].
  destruct (f a) eqn:E.
  - intros H. destruct (IH H) as (x & Hx & Fx). exists x. now split; [right|].
  - intros _. exists a. now split; [left|].
Qed.

Lemma filter_length_lt {A} (p q : A -> bool) (l : list A) w :
  (forall x, q x = true -> p x = true) ->
  In w l -> p w = true -> q w = false ->
  (length (filter q l) < length (filter p l))%nat.
Proof.
  intros H. induction l as [|a r IH]; simpl; [tauto|].
  intros [->|I] Pw Qw.
  - rewrite Pw, Qw. simpl. pose proof (filter_le q p r H). lia.
  - specialize (IH I Pw Qw). destruct (q a) eqn:Qa.
    + rewrite (H a Qa). simpl. lia.
    + destruct (p a); simpl; lia.
Qed.

Section Reachability.
Variable G : DiGraph.
Hypothesis wf : well_formed G.

Lemma successors_nodes x w : In w (successors G x) -> In w (nodes G).
Proof using wf. intros H. apply successors_In in H. now apply wf in H. Qed.

Lemma unseen_shrinks seen :
  closedb G seen = false ->
  (length (unseen G (expand G seen)) < length (unseen G seen))%nat.
Proof using wf.
  intros H. apply forallb_false in H. destruct H as (w & Hw & M).
  apply in_flat_map in Hw. destruct Hw as (x & Hx & Hw).
  unfold unseen. apply (filter_length_lt _ _ _ w).
  - intros y. rewrite !negb_true_iff, !mem_false. intros N I. apply N.
    apply expand_In. now left.
  - now apply (successors_nodes x).
  - now rewrite M.
  - rewrite negb_false_iff. apply mem_In, expand_In. right. now exists x.
Qed.

Lemma unseen_nil_closed seen : unseen G seen = [] -> closed G seen.
Proof using wf.
  intros H x w Hx Hw. apply successors_nodes in Hw.
  destruct (mem w seen) eqn:M; [now apply mem_In|].
  assert (I : In w (unseen G seen)).
  { unfold unseen. apply filter_In. split; [exact Hw|now rewrite M]. }
  rewrite H in I. destruct I.
Qed.

Lemma reachable_closed k : forall seen,
  (length (unseen G seen) <= k)%nat -> closed G (reachable k G seen).
Proof using wf.
  induction k as [|k IH]; intros seen L.
  - cbn [reachable]. apply unseen_nil_closed.
    destruct (unseen G seen); [reflexivity|simpl in L; lia].
  - destruct (closedb G seen) eqn:C.
    + apply closedb_spec in C. now rewrite closed_reachable.
    + cbn [reachable]. fold (expand G seen). apply IH.
      pose proof (unseen_shrinks seen C). lia.
Qed.

Lemma closed_connects seen u v :
  closed G seen -> In u seen -> connects G u v -> In v seen.
Proof.
  intros C Hu H. induction H as [|x y H IH E]; [exact Hu|].
  apply (C x y IH). now apply successors_In.
Qed.

(** [reaches] decides whether a walk leads from [u] to [v]. *)
Lemma reaches_spec u v : reaches G u v = true <-> connects G u v.
Proof using wf.
  unfold reaches. rewrite mem_In. split.
  - intros H. apply reachable_sound in H. destruct H as (x & [<-|[]] & C).
    exact C.
  - intros H.
    apply (closed_connects (reachable (number_of_nodes G) G [u]) u v).
    + apply reachable_closed. unfold unseen, number_of_nodes.
      apply filter_length_le.
    + apply reachable_incl. now left.
    + exact H.
Qed.

Lemma In_component v w :
  In w (component G v) <->
  In w (nodes G) /\ connects G v w /\ connects G w v.
Proof using wf.
  unfold component. rewrite filter_In, andb_true_iff, !reaches_spec.
  reflexivity.
Qed.

Lemma component_same v v' :
  connects G v v' -> connects G v' v -> component G v = component G v'.
Proof using wf.
  intros H1 H2. unfold component. apply filter_ext. intros w.
  apply eq_true_iff_eq. rewrite !andb_true_iff, !reaches_spec.
  split; intros [A B]; split; eauto using connects_trans.
Qed.

Hypothesis nodes_nodup : NoDup (nodes G).

Lemma components_invariant (p : list node) : forall components,
  (forall v, In v p -> In v (nodes G)) ->
  (forall c, In c components -> exists v, In v (nodes G) /\ c = component G v) ->
  NoDup (concat components) ->
  let components' :=
    fold_left (fun components v =>
                 if existsb (mem v) components then components
                 else components ++ [component G v]) p components in
  (forall c, In c components' -> exists v, In v (nodes G) /\ c = component G v) /\
  NoDup (concat components') /\
  (forall v, In v (concat components) \/ In v p -> In v (concat components')).
Proof using wf nodes_nodup.
  induction p as [|x r IH]; intros components Hp Hc ND; cbv zeta.
  - cbn [fold_left]. repeat split; try assumption. intros v [H|[]]. exact H.
  - cbn [fold_left].
    assert (Hx : In x (nodes G)) by (apply Hp; now left).
    assert (Hr : forall v, In v r -> In v (nodes G))
      by (intros v Hv; apply Hp; now right).
    destruct (existsb (mem x) components) eqn:E.
    + destruct (IH components Hr Hc ND) as (I1 & I2 & I3).
      repeat split; try assumption.
      intros v [H|[<-|H]]; apply I3; [now left| |now right].
      left. apply existsb_exists in E. destruct E as (c & Hc' & M).
      apply in_concat. exists c. split; [exact Hc'|now apply mem_In].
    + assert (Nx : ~ In x (concat components)).
      { intros I. apply in_concat in I. destruct I as (c & Hc' & I).
        assert (T : existsb (mem x) components = true).
        { apply existsb_exists. exists c. split; [exact Hc'|now apply mem_In]. }
        congruence. }
      destruct (IH (components ++ [component G x]) Hr) as (I1 & I2 & I3).
      * intros c Hc'. apply in_app_or in Hc'.
        destruct Hc' as [Hc'|[<-|[]]]; [now apply Hc|]. now exists x.
      * rewrite concat_app. cbn [concat]. rewrite app_nil_r.
        apply NoDup_app; [exact ND|apply NoDup_filter, nodes_nodup|].
        intros w Hw Hw'. apply Nx.
        apply in_concat in Hw. destruct Hw as (c & Hc' & Hw).
        destruct (Hc c Hc') as (v0 & Hv0 & ->).
        apply in_concat. exists (component G v0). split; [exact Hc'|].
        apply In_component in Hw. apply In_component in Hw'.
        apply In_component. destruct Hw as (_ & A1 & A2).
        destruct Hw' as (_ & B1 & B2).
        repeat split; [exact Hx| |]; eauto using connects_trans.
      * repeat split; try assumption.
        intros v H. apply I3. rewrite concat_app. cbn [concat].
        rewrite app_nil_r.
        destruct H as [H|[<-|H]]; [left; apply in_or_app; now left| |now right].
        left. apply in_or_app. right. apply In_component.
        repeat split; [exact Hx|constructor|constructor].
Qed.

(** The components are the classes of the nodes that reach each other. *)
Lemma components_spec :
  let components := strongly_connected_components G in
  Permutation (concat components) (nodes G) /\
  (forall c, In c components -> exists v, In v (nodes G) /\ c = component G v).
Proof using wf nodes_nodup.
  cbv zeta.
  destruct (components_invariant (nodes G) [] (fun v H => H))
    as (I1 & I2 & I3).
  - intros c [].
  - constructor.
  - change (fold_left _ (nodes G) []) with (strongly_connected_components G)
      in I1, I2, I3.
    split; [|exact I1].
    apply NoDup_Permutation; [exact I2|exact nodes_nodup|].
    intros v. split.
    + intros H. apply in_concat in H. destruct H as (c & Hc & Hv).
      destruct (I1 c Hc) as (v0 & _ & ->). now apply In_component in Hv.
    + intros H. apply I3. now right.
Qed.
End Reachability.

Lemma max_by_spec {A} (key : A -> nat) (r : list A) : forall x,
  In (max_by key x r) (x :: r) /\
  forall y, In y (x :: r) -> (key y <= key (max_by key x r))%nat.
Proof.
  unfold max_by. induction r as [|a r IH]; intros x; cbn [fold_left].
  - split; [now left|]. intros y [<-|[]]. lia.
  - destruct (IH (if (key x <? key a)%nat then a else x)) as [I1 I2].
    split.
    + destruct I1 as [I1|I1]; [|right; now right].
      rewrite <- I1. destruct (key x <? key a)%nat; [right|]; now left.
    + intros y [->|[->|H]].
      * etransitivity; [|apply I2; now left].
        destruct (Nat.ltb_spec (key y) (key a)); lia.
      * etransitivity; [|apply I2; now left].
        destruct (Nat.ltb_spec (key x) (key y)); lia.
      * apply I2. now right.
Qed.

Lemma In_Largest_structure_lines G size :
  In (Largest_component size) (structure_lines G) <->
  exists c r, strongly_connected_components G = c :: r /\
              size = length (max_by (@length node) c r).
Proof.
  unfold structure_lines. rewrite !in_app_iff. split.
  - intros [H|[H|[H|[H|[H|H]]]]].
    + simpl in H. exfalso. intuition discriminate.
    + apply in_map_iff in H. destruct H as ([v b] & E & _). discriminate.
    + simpl in H. exfalso. intuition discriminate.
    + unfold loop_lines in H. destruct (simple_cycles G); [destruct H|].
      destruct H as [H|H]; [discriminate|].
      apply in_map_iff in H. destruct H as ([i c] & E & _). discriminate.
    + unfold chain_lines in H.
      destruct (longest_path G) as [[|v p]|]; simpl in H;
        exfalso; intuition discriminate.
    + unfold component_lines in H.
      destruct (strongly_connected_components G) as [|c r]; simpl in H.
      * exfalso. intuition discriminate.
      * destruct H as [H|[H|[]]]; [discriminate|].
        inversion H. now exists c, r.
  - intros (c & r & E & ->). do 5 right. unfold component_lines.
    rewrite E. right. now left.
Qed.

Lemma In_Component_count_structure_lines G :
  In (Component_count (length (strongly_connected_components G)))
     (structure_lines G).
Proof.
  unfold structure_lines. rewrite !in_app_iff. do 5 right.
  unfold component_lines. now left.
Qed.

Lemma length_concat_sum {A} (ls : list (list A)) :
  length (concat ls) = list_sum (map (@length A) ls).
Proof.
  induction ls as [|l r IH]; simpl; [reflexivity|].
  now rewrite length_app, IH.
Qed.

Lemma list_sum_ge_length (ns : list nat) :
  Forall (fun k => 1 <= k)%nat ns -> (length ns <= list_sum ns)%nat.
Proof. induction 1; simpl; lia. Qed.

Lemma list_sum_member (ns : list nat) k : In k ns -> (k <= list_sum ns)%nat.
Proof.
  induction ns as [|a r IH]; simpl; [tauto|].
  intros [->|H]; [lia|]. specialize (IH H). lia.
Qed.

(** ** The topological sort *)

Lemma fold_left_flat_map {A B C} (f : A -> B -> A) (g : C -> list B) l :
  forall a,
  fold_left (fun a x => fold_left f (g x) a) l a = fold_left f (flat_map g l) a.
Proof.
  induction l as [|x r IH]; intros a; simpl; [reflexivity|].
  now rewrite fold_left_app, IH.
Qed.

Lemma next_generation_flat G m z :
  next_generation G m z =
  fold_left release (flat_map (successors G) z) (m, []).
Proof. unfold next_generation. apply fold_left_flat_map. Qed.

Lemma occurrences_app (v : node) l r :
  occurrences Z.eqb v (l ++ r) =
  (occurrences Z.eqb v l + occurrences Z.eqb v r)%nat.
Proof. unfold occurrences. now rewrite filter_app, length_app. Qed.

Lemma keys_dict_remove {V} (d : dict node V) k v :
  dict_get Z.eqb d k = Some v ->
  Permutation (keys (dict_remove d k) ++ [k]) (keys d).
Proof.
  induction d as [|[k' v'] r IH]; simpl; [discriminate|].
  destruct (Z.eqb_spec k k') as [->|N].
  - intros _. rewrite Permutation_app_comm. reflexivity.
  - intros H. simpl. constructor. now apply IH.
Qed.

Lemma dict_get_remove_other {V} (d : dict node V) k x :
  x <> k -> dict_get Z.eqb (dict_remove d k) x = dict_get Z.eqb d x.
Proof.
  intros N. induction d as [|[k' v'] r IH]; simpl; [reflexivity|].
  destruct (Z.eqb_spec k k') as [->|N'].
  - destruct (Z.eqb_spec x k'); [congruence|reflexivity].
  - simpl. destruct (Z.eqb x k'); [reflexivity|exact IH].
Qed.

Lemma dict_get_remove_same {V} (d : dict node V) k :
  NoDup (keys d) -> dict_get Z.eqb (dict_remove d k) k = None.
Proof.
  induction d as [|[k' v'] r IH]; simpl; intros ND; [reflexivity|].
  inversion ND; subst.
  destruct (Z.eqb_spec k k') as [->|N'].
  - now apply dict_get_None.
  - simpl. destruct (Z.eqb_spec k k'); [congruence|now apply IH].
Qed.

Section Release.
Variable base : node -> nat.
Variable indeg : node -> nat.

(** The children of a generation are released one after the other. *)
Lemma fold_release_ok (rest : list node) : forall done m z,
  (forall v, base v + occurrences Z.eqb v (done ++ rest) <= indeg v)%nat ->
  NoDup (keys m) ->
  (forall v d, dict_get Z.eqb m v = Some d ->
               (1 <= d)%nat /\
               (d + (base v + occurrences Z.eqb v done) = indeg v)%nat) ->
  (forall v, In v rest -> ~ In v (keys m) ->
             (base v + occurrences Z.eqb v done = indeg v)%nat) ->
  NoDup (keys (fst (fold_left release rest (m, z)))) /\
  (forall v d,
     dict_get Z.eqb (fst (fold_left release rest (m, z))) v = Some d ->
     (1 <= d)%nat /\
     (d + (base v + occurrences Z.eqb v (done ++ rest)) = indeg v)%nat) /\
  Permutation (keys (fst (fold_left release rest (m, z)))
               ++ snd (fold_left release rest (m, z)))
              (keys m ++ z) /\
  (forall v, In v (snd (fold_left release rest (m, z))) ->
             In v z \/
             (base v + occurrences Z.eqb v (done ++ rest) = indeg v)%nat).
Proof.
  induction rest as [|c r IH]; intros done m z H ND Hm Hz.
  - cbn [fold_left fst snd]. rewrite app_nil_r in *.
    split; [exact ND|]. split; [exact Hm|]. split; [reflexivity|].
    intros v Hv. now left.
  - cbn [fold_left].
    assert (Oc : occurrences Z.eqb c (done ++ c :: r) =
                 S (occurrences Z.eqb c done + occurrences Z.eqb c r)).
    { rewrite occurrences_app. unfold occurrences at 2. cbn [filter].
      rewrite Z.eqb_refl. cbn [length]. unfold occurrences. lia. }
    pose proof (H c) as Hc. rewrite Oc in Hc.
    destruct (dict_get Z.eqb m c) as [d|] eqn:E.
    2:{ exfalso. apply dict_get_None in E.
        specialize (Hz c (or_introl eq_refl) E). lia. }
    destruct (Hm c d E) as [D1 D2].
    assert (A : forall v, occurrences Z.eqb v (done ++ c :: r) =
                          occurrences Z.eqb v ((done ++ [c]) ++ r))
      by (intros v; now rewrite <- app_assoc).
    assert (B : forall v, v <> c ->
                          occurrences Z.eqb v (done ++ [c]) =
                          occurrences Z.eqb v done).
    { intros v N. rewrite occurrences_app. unfold occurrences at 2.
      cbn [filter]. destruct (Z.eqb_spec v c); [congruence|]. simpl. lia. }
    assert (B' : occurrences Z.eqb c (done ++ [c]) =
                 S (occurrences Z.eqb c done)).
    { rewrite occurrences_app. unfold occurrences at 2. cbn [filter].
      rewrite Z.eqb_refl. simpl. lia. }
    assert (R : release (m, z) c =
                if (d - 1 =? 0)%nat
                then (dict_remove m c, z ++ [c])
                else (dict_set Z.eqb m c (d - 1)%nat, z))
      by (unfold release; now rewrite E).
    rewrite R. clear R.
    destruct (Nat.eqb_spec (d - 1) 0) as [Z0|NZ].
    + (* the child leaves the map *)
      destruct (IH (done ++ [c]) (dict_remove m c) (z ++ [c])) as (I1 & I2 & I3 & I4).
      * intros v. rewrite <- A. apply H.
      * eapply Permutation_NoDup in ND;
          [|symmetry; apply (keys_dict_remove m c d E)].
        now apply NoDup_app_remove_r in ND.
      * intros v d' Hv. destruct (Z.eq_dec v c) as [->|N].
        -- rewrite dict_get_remove_same in Hv by assumption. discriminate.
        -- rewrite dict_get_remove_other in Hv by assumption.
           rewrite (B v N). now apply Hm.
      * intros v Hv Nv. destruct (Z.eq_dec v c) as [->|N].
        -- rewrite B'. lia.
        -- rewrite (B v N). apply Hz; [now right|].
           intros I. apply Nv.
           assert (P := keys_dict_remove m c d E).
           apply (Permutation_in v (Permutation_sym P)) in I.
           apply in_app_or in I. destruct I as [I|[I|[]]]; [exact I|congruence].
      * split; [exact I1|].
        split; [intros v d' Hv; rewrite A; now apply I2|]. split.
        -- rewrite I3.
           transitivity ((keys (dict_remove m c) ++ [c]) ++ z).
           ++ rewrite <- !app_assoc.
              apply Permutation_app_head, Permutation_app_comm.
           ++ apply Permutation_app_tail, (keys_dict_remove m c d E).
        -- intros v Hv. rewrite A. destruct (I4 v Hv) as [I|I]; [|now right].
           apply in_app_or in I. destruct I as [I|[<-|[]]]; [now left|].
           right. rewrite <- A, Oc.
           assert (occurrences Z.eqb c r = 0)%nat by lia. lia.
    + (* the count of the child goes down *)
      assert (Kc : In c (keys m)) by (eapply dict_get_Some_In; [apply Z.eqb_spec|exact E]).
      destruct (IH (done ++ [c]) (dict_set Z.eqb m c (d - 1)%nat) z)
        as (I1 & I2 & I3 & I4).
      * intros v. rewrite <- A. apply H.
      * now rewrite (keys_dict_set_old Z.eqb Z.eqb_spec).
      * intros v d' Hv. destruct (Z.eq_dec v c) as [->|N].
        -- rewrite (dict_get_set_same Z.eqb Z.eqb_spec) in Hv.
           apply Some_inj in Hv. subst d'. rewrite B'. lia.
        -- rewrite (dict_get_set_other Z.eqb Z.eqb_spec) in Hv by assumption.
           rewrite (B v N). now apply Hm.
      * intros v Hv Nv.
        rewrite (keys_dict_set_old Z.eqb Z.eqb_spec) in Nv by assumption.
        destruct (Z.eq_dec v c) as [->|N]; [contradiction|].
        rewrite (B v N). apply Hz; [now right|exact Nv].
      * split; [exact I1|].
        split; [intros v d' Hv; rewrite A; now apply I2|]. split.
        -- rewrite I3. now rewrite (keys_dict_set_old Z.eqb Z.eqb_spec).
        -- intros v Hv. rewrite A. now apply I4.
Qed.
End Release.

Lemma filter_and_full {A} (p q : A -> bool) (l : list A) :
  length (filter (fun x => p x && q x) l) = length (filter q l) ->
  forall x, In x l -> q x = true -> p x = true.
Proof.
  induction l as [|a r IH]; simpl; [tauto|].
  assert (L : (length (filter (fun x => p x && q x) r) <= length (filter q r))%nat).
  { apply filter_le. intros x H. now apply andb_true_iff in H. }
  destruct (q a) eqn:Qa, (p a) eqn:Pa; simpl; intros E x [<-|H] Qx;
    try congruence; try (apply IH; [lia|assumption..]); lia.
Qed.

Lemma filter_and_lt {A} (p q : A -> bool) (l : list A) :
  (length (filter (fun x => p x && q x) l) < length (filter q l))%nat ->
  exists x, In x l /\ q x = true /\ p x = false.
Proof.
  induction l as [|a r IH]; simpl; [lia|].
  destruct (q a) eqn:Qa, (p a) eqn:Pa; simpl; intros L.
  - destruct IH as (x & H); [lia|]. exists x. tauto.
  - exists a. tauto.
  - destruct IH as (x & H); [lia|]. exists x. tauto.
  - destruct IH as (x & H); [lia|]. exists x. tauto.
Qed.

Lemma mem_app x l r : mem x (l ++ r) = mem x l || mem x r.
Proof. apply existsb_app. Qed.

Section Kahn.
Variable G : DiGraph.
Hypothesis wf : well_formed G.
Hypothesis nodes_nodup : NoDup (nodes G).

Lemma from_nil v : edges_from G [] v = 0%nat.
Proof. unfold edges_from. induction (edges G); simpl; auto. Qed.

Lemma from_le D v : (edges_from G D v <= in_degree G v)%nat.
Proof.
  rewrite in_degree_filter. unfold edges_from. apply filter_le.
  intros e H. now apply andb_true_iff in H.
Qed.

Lemma from_full D v :
  edges_from G D v = in_degree G v -> forall u, In (u, v) (edges G) -> In u D.
Proof.
  rewrite in_degree_filter. unfold edges_from. intros E u H.
  apply mem_In.
  apply (filter_and_full (fun e => mem (fst e) D) (fun e => Z.eqb v (snd e))
                         (edges G) E (u, v) H).
  apply Z.eqb_refl.
Qed.

Lemma from_not_full D v :
  (edges_from G D v < in_degree G v)%nat ->
  exists u, In (u, v) (edges G) /\ ~ In u D.
Proof.
  rewrite in_degree_filter. unfold edges_from. intros L.
  apply filter_and_lt in L. destruct L as ([u w] & H & Q & P).
  cbn [fst snd] in *. apply Z.eqb_eq in Q. subst w.
  exists u. split; [exact H|]. now apply mem_false.
Qed.

Lemma forward_from D v : forward G D -> In v D -> edges_from G D v = in_degree G v.
Proof.
  intros F H. rewrite in_degree_filter. unfold edges_from. f_equal.
  apply filter_ext_in. intros [u w] He. cbn [fst snd].
  destruct (Z.eqb_spec v w) as [<-|N]; [|apply andb_false_r].
  rewrite andb_true_r. apply in_split in H. destruct H as (l1 & l2 & ->).
  apply mem_In, in_or_app. left. now apply (F l1 v l2 eq_refl).
Qed.

Lemma from_snoc D x v :
  ~ In x D ->
  edges_from G (D ++ [x]) v =
  (edges_from G D v + occurrences Z.eqb v (successors G x))%nat.
Proof.
  intros N. unfold edges_from, successors, occurrences.
  induction (edges G) as [|[a b] r IH]; [reflexivity|].
  cbn [filter fst snd]. rewrite mem_app.
  change (mem a [x]) with (Z.eqb a x || false). rewrite orb_false_r.
  destruct (Z.eqb_spec a x) as [->|Na].
  - replace (mem x D) with false by (symmetry; now apply mem_false).
    cbn [orb andb map filter fst snd].
    destruct (Z.eqb v b); cbn [length]; rewrite IH; lia.
  - rewrite orb_false_r.
    destruct (mem a D && Z.eqb v b); cbn [length]; rewrite IH; lia.
Qed.

Lemma from_generation z : forall D v,
  NoDup (D ++ z) ->
  edges_from G (D ++ z) v =
  (edges_from G D v + occurrences Z.eqb v (flat_map (successors G) z))%nat.
Proof.
  induction z as [|x r IH]; intros D v ND.
  - rewrite app_nil_r. unfold occurrences. simpl. lia.
  - replace (D ++ x :: r) with ((D ++ [x]) ++ r) in *
      by now rewrite <- app_assoc.
    rewrite IH by assumption. rewrite from_snoc.
    + cbn [flat_map]. rewrite occurrences_app. lia.
    + apply NoDup_app_remove_r in ND. intros I.
      apply NoDup_remove_2 in ND. apply ND. rewrite app_nil_r. exact I.
Qed.

Lemma forward_app D z :
  forward G D ->
  (forall v, In v z -> forall u, In (u, v) (edges G) -> In u D) ->
  forward G (D ++ z).
Proof.
  intros F H l1 v l2 E u He.
  apply app_eq_app in E. destruct E as (l & [[E1 E2]|[E1 E2]]).
  - destruct l as [|a l'].
    + rewrite app_nil_r in E1. subst l1. apply (H v); [|exact He].
      simpl in E2. rewrite <- E2. now left.
    + inversion E2; subst. now apply (F l1 a l' eq_refl).
  - subst l1. apply in_or_app. left. apply (H v); [|exact He].
    rewrite E2. apply in_or_app. right. now left.
Qed.

Lemma In_keys_dict_get {V} (d : dict node V) k :
  In k (keys d) -> exists v, dict_get Z.eqb d k = Some v.
Proof.
  intros H. destruct (dict_get Z.eqb d k) as [v|] eqn:E; [now exists v|].
  apply dict_get_None in E. contradiction.
Qed.

(** A generation is handled. *)
Lemma next_generation_ok D m z :
  kahn_ok G D m z ->
  kahn_ok G (D ++ z) (fst (next_generation G m z)) (snd (next_generation G m z)).
Proof using wf nodes_nodup.
  intros [P C Zr F]. rewrite next_generation_flat.
  assert (ND : NoDup (D ++ z ++ keys m))
    by (apply (Permutation_NoDup (Permutation_sym P) nodes_nodup)).
  assert (NDm : NoDup (keys m))
    by (now apply NoDup_app_remove_l, NoDup_app_remove_l in ND).
  assert (NDz : NoDup (D ++ z))
    by (rewrite app_assoc in ND; now apply NoDup_app_remove_r in ND).
  destruct (fold_release_ok (edges_from G D) (in_degree G)
              (flat_map (successors G) z) [] m [])
    as (I1 & I2 & I3 & I4).
  - intros v. cbn [app]. rewrite <- from_generation by assumption.
    apply from_le.
  - exact NDm.
  - intros v d H. unfold occurrences. cbn [filter length].
    rewrite Nat.add_0_r. now apply C.
  - intros v Hv Nv. unfold occurrences. cbn [filter length].
    rewrite Nat.add_0_r.
    apply in_flat_map in Hv. destruct Hv as (x & _ & Hv).
    apply successors_In, wf in Hv. destruct Hv as [_ Hv].
    apply (Permutation_in v (Permutation_sym P)) in Hv.
    apply in_app_or in Hv. destruct Hv as [Hv|Hv]; [now apply forward_from|].
    apply in_app_or in Hv. destruct Hv as [Hv|Hv]; [now apply Zr|contradiction].
  - cbn [app] in I2, I4. rewrite app_nil_r in I3.
    set (st := fold_left release (flat_map (successors G) z) (m, [])) in *.
    constructor.
    + rewrite <- P, <- app_assoc. apply Permutation_app_head.
      apply Permutation_app_head. rewrite Permutation_app_comm. exact I3.
    + intros v d H. rewrite from_generation by assumption. now apply I2.
    + intros v H. rewrite from_generation by assumption.
      destruct (I4 v H) as [[]|E]. exact E.
    + apply forward_app; [exact F|].
      intros v Hv. apply from_full. now apply Zr.
Qed.

(** The order that the sort returns holds every node once, and the
    source of every edge before its target. *)
Lemma generations_sound fuel : forall D m z order,
  kahn_ok G D m z ->
  generations fuel G m z = Topo_order order ->
  Permutation (D ++ order) (nodes G) /\ forward G (D ++ order).
Proof using wf nodes_nodup.
  induction fuel as [|fuel IH]; intros D m z order K H.
  - destruct z as [|x z]; [|discriminate].
    destruct m as [|kv m]; [|discriminate]. inversion H; subst.
    destruct K as [P _ _ F]. cbn [keys map app] in P.
    rewrite app_nil_r in *. now split.
  - destruct z as [|x z].
    + destruct m as [|kv m]; [|discriminate]. inversion H; subst.
      destruct K as [P _ _ F]. cbn [keys map app] in P.
      rewrite app_nil_r in *. now split.
    + cbn [generations] in H.
      pose proof (next_generation_ok D m (x :: z) K) as K'.
      destruct (next_generation G m (x :: z)) as [m' z']. cbn [fst snd] in K'.
      destruct (generations fuel G m' z') as [order'| |] eqn:R;
        try discriminate.
      inversion H; subst.
      replace (D ++ x :: z ++ order') with ((D ++ x :: z) ++ order')
        by (now rewrite <- app_assoc).
      now apply (IH _ m' z').
Qed.

Lemma list_argmin {A} (f : A -> nat) (l : list A) :
  l <> [] -> exists x, In x l /\ forall y, In y l -> (f x <= f y)%nat.
Proof.
  induction l as [|a r IH]; [congruence|]. intros _.
  destruct r as [|b r'].
  - exists a. split; [now left|]. intros y [<-|[]]. lia.
  - destruct IH as (x & Hx & M); [discriminate|].
    destruct (Nat.le_gt_cases (f a) (f x)).
    + exists a. split; [now left|]. intros y [<-|Hy]; [lia|].
      specialize (M y Hy). lia.
    + exists x. split; [now right|]. intros y [<-|Hy]; [lia|]. now apply M.
Qed.

(** Along an edge of an acyclic graph the ancestors grow. *)
Lemma ancestors_grow u v :
  acyclic G -> In (u, v) (edges G) ->
  (length (filter (fun a => reaches G a u) (nodes G)) <
   length (filter (fun a => reaches G a v) (nodes G)))%nat.
Proof using wf.
  intros A E. apply (filter_length_lt _ _ _ v).
  - intros a. rewrite !(reaches_spec G wf). intros C.
    now apply (connects_step G a u v).
  - now apply wf in E.
  - apply (reaches_spec G wf). constructor.
  - destruct (reaches G v u) eqn:R; [|reflexivity].
    apply (reaches_spec G wf) in R. now apply A in E.
Qed.

(** On a graph without cycles the sort does not get stuck. *)
Lemma kahn_not_stuck D m :
  acyclic G -> kahn_ok G D m [] -> m = [].
Proof using wf nodes_nodup.
  intros A [P C _ _].
  destruct m as [|kv m']; [reflexivity|]. exfalso.
  set (m := kv :: m') in *.
  assert (NE : keys m <> []) by discriminate.
  destruct (list_argmin
              (fun v => length (filter (fun a => reaches G a v) (nodes G)))
              (keys m) NE) as (v & Hv & Min).
  destruct (In_keys_dict_get m v Hv) as (d & Ed).
  destruct (C v d Ed) as [D1 D2].
  destruct (from_not_full D v) as (u & E & Nu); [lia|].
  assert (Hu : In u (keys m)).
  { pose proof (proj1 (wf u v E)) as I.
    apply (Permutation_in u (Permutation_sym P)) in I.
    apply in_app_or in I. destruct I as [I|I]; [contradiction|exact I]. }
  pose proof (Min u Hu). pose proof (ancestors_grow u v A E). lia.
Qed.

Lemma generations_complete fuel : forall D m z,
  acyclic G -> kahn_ok G D m z -> generations fuel G m z <> Unfeasible.
Proof using wf nodes_nodup.
  induction fuel as [|fuel IH]; intros D m z A K.
  - destruct z as [|x z]; [|discriminate].
    rewrite (kahn_not_stuck D m A K). discriminate.
  - destruct z as [|x z].
    + rewrite (kahn_not_stuck D m A K). discriminate.
    + cbn [generations].
      pose proof (next_generation_ok D m (x :: z) K) as K'.
      destruct (next_generation G m (x :: z)) as [m' z']. cbn [fst snd] in K'.
      pose proof (IH _ m' z' A K') as N.
      destruct (generations fuel G m' z'); congruence.
Qed.

Lemma kahn_start :
  let degrees := map (fun v => (v, in_degree G v)) (nodes G) in
  kahn_ok G [] (filter (fun vd => (0 <? snd vd)%nat) degrees)
          (keys (filter (fun vd => (snd vd =? 0)%nat) degrees)).
Proof.
  cbv zeta. set (degrees := map (fun v => (v, in_degree G v)) (nodes G)).
  constructor.
  - cbn [app].
    assert (E : nodes G = keys degrees).
    { unfold degrees, keys. rewrite map_map. cbn [fst]. now rewrite map_id. }
    rewrite E. unfold keys. rewrite <- map_app. apply Permutation_map.
    clear E. induction degrees as [|[v d] r IH]; [constructor|].
    cbn [filter snd]. destruct d as [|d]; cbn [Nat.eqb Nat.ltb Nat.leb].
    + cbn [app]. now constructor.
    + rewrite <- Permutation_middle. now constructor.
  - intros v d H. apply (dict_get_In Z.eqb Z.eqb_spec) in H.
    apply filter_In in H. destruct H as [H L]. cbn [snd] in L.
    apply Nat.ltb_lt in L. unfold degrees in H. apply in_map_iff in H.
    destruct H as (x & E & _). injection E as E1 E2. subst x.
    rewrite from_nil. lia.
  - intros v H. apply in_map_iff in H. destruct H as ([x d] & E & H).
    cbn [fst] in E. subst x. apply filter_In in H. destruct H as [H L].
    cbn [snd] in L. apply Nat.eqb_eq in L.
    unfold degrees in H. apply in_map_iff in H.
    destruct H as (x & E & _). injection E as E1 E2. subst x.
    rewrite from_nil. lia.
  - intros l1 v l2 E. destruct l1; discriminate.
Qed.

Lemma index_before l1 : forall u r, In u l1 -> (index u (l1 ++ r) < length l1)%nat.
Proof.
  induction l1 as [|a l IH]; intros u r H; [destruct H|].
  cbn [app index length]. destruct (Z.eqb_spec u a) as [->|N]; [lia|].
  destruct H as [H|H]; [congruence|]. specialize (IH u r H). lia.
Qed.

Lemma index_at l1 : forall v l2, ~ In v l1 -> index v (l1 ++ v :: l2) = length l1.
Proof.
  induction l1 as [|a l IH]; intros v l2 H.
  - cbn [app index length]. now rewrite Z.eqb_refl.
  - cbn [app index length]. destruct (Z.eqb_spec v a) as [->|N].
    + exfalso. apply H. now left.
    + f_equal. apply IH. intros I. apply H. now right.
Qed.

Lemma forward_index order u v :
  forward G order -> NoDup order -> In v order ->
  In (u, v) (edges G) -> (index u order < index v order)%nat.
Proof.
  intros F ND Hv E. apply in_split in Hv. destruct Hv as (l1 & l2 & ->).
  rewrite index_at by (now apply NoDup_remove_2 in ND;
                       intros I; apply ND, in_or_app; left).
  apply index_before. now apply (F l1 v l2 eq_refl).
Qed.

(** A graph whose nodes can be listed with every edge forward has no
    cycle. *)
Lemma forward_acyclic order :
  Permutation order (nodes G) -> forward G order -> acyclic G.
Proof using wf nodes_nodup.
  intros P F.
  assert (ND : NoDup order)
    by (apply (Permutation_NoDup (Permutation_sym P) nodes_nodup)).
  assert (Step : forall a b, In (a, b) (edges G) ->
                             (index a order < index b order)%nat).
  { intros a b E. apply forward_index; try assumption.
    apply (Permutation_in b (Permutation_sym P)). now apply wf in E. }
  assert (Walk : forall a b, connects G a b ->
                             (index a order <= index b order)%nat).
  { intros a b C. induction C as [|x y C IH E]; [lia|].
    specialize (Step x y E). lia. }
  intros u v E C. specialize (Step u v E). specialize (Walk v u C). lia.
Qed.

(** [nx.is_directed_acyclic_graph] holds exactly of the graphs without a
    cycle, and the topological sort of such a graph lists every node
    once, the source of every edge before its target. *)
Lemma topological_sort_spec :
  match topological_sort G with
  | Topo_order order =>
      Permutation order (nodes G) /\ forward G order /\ acyclic G
  | _ => ~ acyclic G
  end.
Proof using wf nodes_nodup.
  pose proof kahn_start as K. cbv zeta in K.
  pose proof (topological_sort_terminates G) as T.
  unfold topological_sort in *.
  set (m := filter _ _) in *. set (z := keys _) in *.
  destruct (generations (S (number_of_nodes G)) G m z) as [order| |] eqn:E.
  - destruct (generations_sound _ [] m z order K E) as [P F].
    cbn [app] in P, F. repeat split; try assumption.
    now apply (forward_acyclic order).
  - intros A. now apply (generations_complete _ [] m z A K) in E.
  - congruence.
Qed.

Lemma is_directed_acyclic_graph_spec :
  is_directed_acyclic_graph G = true <-> acyclic G.
Proof using wf nodes_nodup.
  unfold is_directed_acyclic_graph. pose proof topological_sort_spec as S.
  destruct (topological_sort G); split; try tauto; try discriminate.
Qed.
End Kahn.

(** ** The enumeration of the loops *)

Lemma connects_edge G u v : In (u, v) (edges G) -> connects G u v.
Proof. intros E. apply (connects_step G u u v); [constructor|exact E]. Qed.

Lemma circuits_from_sound G allowed start fuel : forall path_rev v c,
  connects G start v ->
  In c (circuits_from fuel G allowed start path_rev v) ->
  on_cycle G start.
Proof.
  induction fuel as [|fuel IH]; intros path_rev v c C H; [destruct H|].
  cbn [circuits_from] in H. apply in_flat_map in H.
  destruct H as (w & Hw & H). apply successors_In in Hw.
  destruct (Z.eqb w v); [destruct H|].
  destruct (Z.eqb_spec w start) as [->|N].
  - exists v. now split.
  - destruct (mem w allowed && negb (mem w path_rev)); [|destruct H].
    apply (IH (w :: path_rev) w c); [|exact H].
    now apply (connects_step G start v w).
Qed.

Lemma circuits_in_sound G remaining c :
  In c (circuits_in G remaining) -> exists s, on_cycle G s.
Proof.
  induction remaining as [|s rest IH]; cbn [circuits_in]; [intros []|].
  intros H. apply in_app_or in H. destruct H as [H|H]; [|now apply IH].
  exists s.
  apply (circuits_from_sound G rest s (length (s :: rest)) [s] s c);
    [constructor|exact H].
Qed.

(** A loop that the enumeration yields lies on a cycle of the graph. *)
Lemma simple_cycles_sound G c :
  In c (simple_cycles G) -> exists s, on_cycle G s.
Proof.
  unfold simple_cycles. intros H. apply in_app_or in H.
  destruct H as [H|H]; [|now apply (circuits_in_sound G (nodes G) c)].
  unfold self_loop_cycles in H. apply in_map_iff in H.
  destruct H as (v & _ & H). apply filter_In in H. destruct H as [_ H].
  apply has_edge_In in H. exists v, v. split; [exact H|constructor].
Qed.

Lemma on_cycle_not_acyclic G s : on_cycle G s -> acyclic G -> False.
Proof. intros (u & E & C) A. now apply (A u s E). Qed.

Lemma path_connects G ws : forall a b, path G a ws b -> connects G a b.
Proof.
  induction ws as [|w r IH]; intros a b H; cbn [path] in H.
  - now apply connects_edge.
  - destruct H as [E H]. apply (connects_trans G a w b); [|now apply IH].
    now apply connects_edge.
Qed.

Lemma path_snoc G ws : forall a x y,
  path G a ws x -> In (x, y) (edges G) -> path G a (ws ++ [x]) y.
Proof.
  induction ws as [|w r IH]; intros a x y H E; cbn [path app] in *.
  - now split.
  - destruct H as [E1 H]. split; [exact E1|now apply IH].
Qed.

Lemma connects_path G a b :
  connects G a b -> a = b \/ exists ws, path G a ws b.
Proof.
  induction 1 as [|x y C IH E]; [now left|]. right.
  destruct IH as [->|(ws & P)].
  - now exists [].
  - exists (ws ++ [x]). now apply path_snoc.
Qed.

Lemma path_split G l1 : forall a w l2 b,
  path G a (l1 ++ w :: l2) b ->
  (exists x, In (x, w) (edges G) /\ connects G a x) /\ path G w l2 b.
Proof.
  induction l1 as [|c r IH]; intros a w l2 b H; cbn [app path] in H.
  - destruct H as [E H]. split; [|exact H]. exists a. split; [exact E|constructor].
  - destruct H as [E H]. destruct (IH c w l2 b H) as [(x & Ex & C) P].
    split; [|exact P]. exists x. split; [exact Ex|].
    apply (connects_trans G a c x); [now apply connects_edge|exact C].
Qed.

Lemma path_app_inv G l1 : forall a w l2 b,
  path G a (l1 ++ w :: l2) b -> path G a l1 w /\ path G w l2 b.
Proof.
  induction l1 as [|c r IH]; intros a w l2 b H; cbn [app path] in *.
  - exact H.
  - destruct H as [E H]. destruct (IH c w l2 b H) as [P1 P2]. now repeat split.
Qed.

(** A walk can be cut down to one that passes no node twice. *)
Lemma path_simple G n : forall ws a b,
  (length ws <= n)%nat -> path G a ws b ->
  exists ws', path G a ws' b /\ NoDup ws' /\ ~ In a ws' /\ ~ In b ws' /\
              incl ws' ws.
Proof.
  induction n as [|n IH]; intros ws a b L P.
  - destruct ws; [|simpl in L; lia].
    exists []. repeat split; auto using NoDup_nil, incl_refl.
  - destruct ws as [|w r].
    + exists []. repeat split; auto using NoDup_nil, incl_refl.
    + cbn [length] in L.
      destruct (in_dec Z.eq_dec a (w :: r)) as [Ia|Na].
      { apply in_split in Ia. destruct Ia as (l1 & l2 & E).
        rewrite E in P. apply path_split in P. destruct P as [_ P].
        destruct (IH l2 a b) as (ws' & P' & ND & A & B & I); [|exact P|].
        - assert (length (w :: r) = length (l1 ++ a :: l2)) by now rewrite E.
          rewrite length_app in H. cbn [length] in H. unfold node in *. lia.
        - exists ws'. repeat split; try assumption.
          intros x Hx. rewrite E. apply in_or_app. right. right. now apply I. }
      destruct (in_dec Z.eq_dec b (w :: r)) as [Ib|Nb].
      { apply in_split in Ib. destruct Ib as (l1 & l2 & E).
        rewrite E in P. apply path_app_inv in P. destruct P as [P _].
        destruct (IH l1 a b) as (ws' & P' & ND & A & B & I); [|exact P|].
        - assert (length (w :: r) = length (l1 ++ b :: l2)) by now rewrite E.
          rewrite length_app in H. cbn [length] in H. unfold node in *. lia.
        - exists ws'. repeat split; try assumption.
          intros x Hx. rewrite E. apply in_or_app. left. now apply I. }
      cbn [path] in P. destruct P as [E P].
      destruct (IH r w b) as (ws' & P' & ND & A & B & I); [lia|exact P|].
      exists (w :: ws'). split; [|split; [|split; [|split]]].
      * cbn [path]. now split.
      * constructor; assumption.
      * intros [H|H]; [apply Na; now left|]. apply Na. right. now apply I.
      * intros [H|H]; [apply Nb; now left|exact (B H)].
      * intros x [<-|Hx]; [now left|right; now apply I].
Qed.

Lemma flat_map_not_nil {A B} (f : A -> list B) (l : list A) x :
  In x l -> f x <> [] -> flat_map f l <> [].
Proof.
  intros H N E. apply N.
  destruct (f x) as [|b r] eqn:F; [reflexivity|].
  assert (I : In b (flat_map f l)).
  { apply in_flat_map. exists x. split; [exact H|]. rewrite F. now left. }
  rewrite E in I. destruct I.
Qed.

(** The search follows a walk that passes no node twice to its end. *)
Lemma circuits_from_complete G allowed start ws : forall fuel path_rev v,
  path G v ws start ->
  NoDup ws ->
  (forall w, In w ws -> In w allowed /\ ~ In w path_rev) ->
  In v path_rev ->
  (ws = [] -> v <> start) ->
  (length ws < fuel)%nat ->
  circuits_from fuel G allowed start path_rev v <> [].
Proof.
  induction ws as [|w1 r IH]; intros fuel path_rev v P ND A Hv Hs L;
    (destruct fuel as [|fuel]; [simpl in L; lia|]); cbn [circuits_from].
  - cbn [path] in P. apply (flat_map_not_nil _ _ start).
    + now apply successors_In.
    + destruct (Z.eqb_spec start v) as [E|_]; [now elim (Hs eq_refl)|].
      rewrite Z.eqb_refl. discriminate.
  - cbn [path] in P. destruct P as [E P].
    destruct (A w1 (or_introl eq_refl)) as [A1 A2].
    apply (flat_map_not_nil _ _ w1); [now apply successors_In|].
    destruct (Z.eqb_spec w1 v) as [->|_]; [contradiction|].
    destruct (Z.eqb_spec w1 start) as [_|N]; [discriminate|].
    replace (mem w1 allowed) with true by (symmetry; now apply mem_In).
    replace (mem w1 path_rev) with false by (symmetry; now apply mem_false).
    cbn [andb negb]. inversion ND; subst.
    apply IH; try assumption.
    + intros w Hw. destruct (A w (or_intror Hw)) as [B1 B2].
      split; [exact B1|]. intros [<-|I]; contradiction.
    + now left.
    + intros _. exact N.
    + cbn [length] in L. lia.
Qed.

Lemma circuits_in_app G pre : forall l c,
  In c (circuits_in G l) -> In c (circuits_in G (pre ++ l)).
Proof.
  induction pre as [|x r IH]; intros l c H; [exact H|].
  cbn [app circuits_in]. apply in_or_app. right. now apply IH.
Qed.

Lemma first_such {A} (p : A -> bool) (l : list A) x :
  In x l -> p x = true ->
  exists before s after,
    l = before ++ s :: after /\ p s = true /\
    forall y, In y before -> p y = false.
Proof.
  induction l as [|a r IH]; [intros []|]. intros H Px.
  destruct (p a) eqn:Pa.
  - exists [], a, r. repeat split; [exact Pa|intros y []].
  - destruct H as [->|H]; [congruence|].
    destruct (IH H Px) as (before & s & after & -> & Ps & B).
    exists (a :: before), s, after. repeat split; [exact Ps|].
    intros y [<-|Hy]; [exact Pa|now apply B].
Qed.

Section Cycles.
Variable G : DiGraph.
Hypothesis wf : well_formed G.
Hypothesis nodes_nodup : NoDup (nodes G).

Lemma on_cycleb_spec v : on_cycleb G v = true <-> on_cycle G v.
Proof using wf.
  unfold on_cycleb, on_cycle. rewrite existsb_exists. split.
  - intros (u & H & R). exists u. split; [now apply predecessors_In|].
    now apply (reaches_spec G wf).
  - intros (u & E & C). exists u. split; [now apply predecessors_In|].
    now apply (reaches_spec G wf).
Qed.

(** A graph in which the enumeration finds no loop has no cycle. *)
Lemma simple_cycles_complete : simple_cycles G = [] -> acyclic G.
Proof using wf nodes_nodup.
  intros S u0 v0 E0 C0.
  apply app_eq_nil in S. destruct S as [S1 S2].
  assert (NoLoop : forall v, ~ In (v, v) (edges G)).
  { intros v E.
    assert (I : In [v] (self_loop_cycles G)).
    { apply self_loop_cycles_In. split; [now apply wf in E|].
      now apply has_edge_In. }
    rewrite S1 in I. destruct I. }
  assert (Cv : on_cycleb G v0 = true)
    by (apply on_cycleb_spec; now exists u0).
  destruct (first_such (on_cycleb G) (nodes G) v0 (proj2 (wf u0 v0 E0)) Cv)
    as (before & s & rest & EN & Cs & First).
  apply on_cycleb_spec in Cs. destruct Cs as (u & Eu & Cu).
  assert (P : exists ws, path G s ws s).
  { destruct (connects_path G s u Cu) as [<-|(ws & P)].
    - now elim (NoLoop s).
    - exists (ws ++ [u]). now apply path_snoc. }
  destruct P as (ws0 & P0).
  destruct (path_simple G (length ws0) ws0 s s (le_n _) P0)
    as (ws & P & ND & Ns & _ & _).
  assert (Rest : forall w, In w ws -> In w rest).
  { intros w Hw. apply in_split in Hw. destruct Hw as (l1 & l2 & ->).
    destruct (path_split G l1 s w l2 s P) as [(x & Ex & Cx) P2].
    assert (Cw : on_cycleb G w = true).
    { apply on_cycleb_spec. exists x. split; [exact Ex|].
      apply (connects_trans G w s x); [|exact Cx].
      now apply (path_connects G l2). }
    assert (Iw : In w (nodes G)) by now apply wf in Ex.
    rewrite EN in Iw. apply in_app_or in Iw. destruct Iw as [Iw|[Iw|Iw]].
    - rewrite (First w Iw) in Cw. discriminate.
    - exfalso. apply Ns. subst w. apply in_or_app. right. now left.
    - exact Iw. }
  assert (NDr : NoDup (s :: rest)).
  { rewrite EN in nodes_nodup. now apply NoDup_app_remove_l in nodes_nodup. }
  apply (circuits_from_complete G rest s ws (length (s :: rest)) [s] s).
  - exact P.
  - exact ND.
  - intros w Hw. split; [now apply Rest|].
    intros [<-|[]]. contradiction.
  - now left.
  - intros ->. cbn [path] in P. now elim (NoLoop s).
  - cbn [length]. apply Nat.lt_succ_r.
    apply NoDup_incl_length; [exact ND|exact Rest].
  - destruct (circuits_from (length (s :: rest)) G rest s [s] s) as [|c r] eqn:R;
      [reflexivity|].
    assert (I : In c (circuits_in G (nodes G))).
    { rewrite EN. apply circuits_in_app. cbn [circuits_in].
      apply in_or_app. left. rewrite R. now left. }
    rewrite S2 in I. destruct I.
Qed.

(** The enumeration finds no loop exactly in the graphs without a cycle,
    which are the graphs that pass the acyclicity test. *)
Lemma simple_cycles_nil_iff : simple_cycles G = [] <-> acyclic G.
Proof using wf nodes_nodup.
  split; [apply simple_cycles_complete|].
  intros A. destruct (simple_cycles G) as [|c r] eqn:S; [reflexivity|].
  exfalso. destruct (simple_cycles_sound G c) as (s & Cs).
  - rewrite S. now left.
  - exact (on_cycle_not_acyclic G s Cs A).
Qed.
End Cycles.

Lemma In_Loop_count_structure_lines G k :
  In (Loop_count k) (structure_lines G) <-> k = length (simple_cycles G).
Proof.
  unfold structure_lines. rewrite !in_app_iff. split.
  - intros [H|[H|[H|[H|[H|H]]]]].
    + simpl in H. exfalso. intuition discriminate.
    + apply in_map_iff in H. destruct H as ([v b] & E & _). discriminate.
    + simpl in H. destruct H as [H|[H|[]]]; [discriminate|]. now inversion H.
    + unfold loop_lines in H. destruct (simple_cycles G); [destruct H|].
      destruct H as [H|H]; [discriminate|].
      apply in_map_iff in H. destruct H as ([i c] & E & _). discriminate.
    + unfold chain_lines in H.
      destruct (longest_path G) as [[|v p]|]; simpl in H;
        exfalso; intuition discriminate.
    + unfold component_lines in H.
      destruct (strongly_connected_components G) as [|c r]; simpl in H;
        exfalso; intuition discriminate.
  - intros ->. right. right. left. right. now left.
Qed.

Lemma dag_longest_path_nil G : nodes G = [] -> dag_longest_path G = [].
Proof. unfold dag_longest_path. now intros ->. Qed.

(** ** The longest chain *)

Section LongestPath.
Variable G : DiGraph.
Hypothesis wf : well_formed G.
Variable order : list node.
Hypothesis order_nodup : NoDup order.
Hypothesis order_forward : forward G order.

Lemma rank_set_other dist v e x :
  x <> v -> rank (dict_set Z.eqb dist v e) x = rank dist x.
Proof. intros N. unfold rank. now rewrite lookup_set_other. Qed.

Lemma back_set_other dist v e x :
  x <> v -> back (dict_set Z.eqb dist v e) x = back dist x.
Proof. intros N. unfold back. now rewrite lookup_set_other. Qed.

(** One more node of the order is handled. *)
Lemma longest_to_ok p v dist :
  dist_ok G p dist -> ~ In v p ->
  (forall u, In u (predecessors G v) -> In u p) ->
  dist_ok G (p ++ [v]) (longest_to G dist v).
Proof.
  intros [K A B C Cl] Nv Pv. unfold longest_to.
  set (us := map (fun u => (S (fst (lookup dist u (0%nat, u))), u))
                 (predecessors G v)).
  set (maxu := match us with [] => (0%nat, v) | x :: r => max_by fst x r end).
  assert (Other : forall x, In x p -> x <> v) by (intros x H ->; contradiction).
  assert (PO : forall u, In u (predecessors G v) -> u <> v)
    by (intros u H; apply Other, Pv, H).
  assert (Rv : rank (dict_set Z.eqb dist v maxu) v = fst maxu)
    by (unfold rank; now rewrite lookup_set_same).
  assert (Bv : back (dict_set Z.eqb dist v maxu) v = snd maxu)
    by (unfold back; now rewrite lookup_set_same).
  assert (M : predecessors G v <> [] ->
              In (snd maxu) (predecessors G v) /\
              fst maxu = S (rank dist (snd maxu)) /\
              forall u, In u (predecessors G v) ->
                        (rank dist u < fst maxu)%nat).
  { intros NE. unfold maxu.
    destruct us as [|x r] eqn:U.
    - unfold us in U. apply map_eq_nil in U. contradiction.
    - destruct (max_by_spec fst r x) as [M1 M2]. rewrite <- U in M1, M2.
      unfold us in M1. apply in_map_iff in M1.
      destruct M1 as (u & E & Hu). rewrite <- E. cbn [fst snd].
      repeat split; [exact Hu|].
      intros u' Hu'.
      assert (I : In (S (rank dist u'), u') us)
        by (unfold us; apply in_map_iff; now exists u').
      specialize (M2 _ I). rewrite <- E in M2. cbn [fst] in M2.
      unfold rank in *. lia. }
  constructor.
  - rewrite (keys_dict_set_new Z.eqb Z.eqb_spec).
    + f_equal. exact K.
    + rewrite <- K in Nv. exact Nv.
  - intros x Hx Px. apply in_app_or in Hx.
    destruct Hx as [Hx|[<-|[]]].
    + rewrite rank_set_other, back_set_other by now apply Other.
      now apply A.
    + rewrite Rv, Bv. unfold maxu, us. rewrite Px. now split.
  - intros x Hx Px. apply in_app_or in Hx.
    destruct Hx as [Hx|[<-|[]]].
    + destruct (B x Hx Px) as [B1 B2].
      rewrite rank_set_other, back_set_other by now apply Other.
      split; [exact B1|].
      rewrite rank_set_other; [exact B2|].
      apply Other, (Cl x); assumption.
    + destruct (M Px) as (M1 & M2 & _). rewrite Rv, Bv.
      split; [exact M1|]. rewrite rank_set_other by now apply PO. exact M2.
  - intros x u Hx Hu. apply in_app_or in Hx.
    destruct Hx as [Hx|[<-|[]]].
    + rewrite !rank_set_other;
        [now apply C|now apply Other|apply Other, (Cl x); assumption].
    + rewrite Rv, rank_set_other by now apply PO.
      apply M; [|exact Hu]. intros E. rewrite E in Hu. destruct Hu.
  - intros x u Hx Hu. apply in_or_app. left. apply in_app_or in Hx.
    destruct Hx as [Hx|[<-|[]]]; [now apply (Cl x)|now apply Pv].
Qed.
Lemma fold_longest_to_ok rest : forall p dist,
  dist_ok G p dist -> p ++ rest = order ->
  dist_ok G order (fold_left (longest_to G) rest dist).
Proof using order_nodup order_forward.
  induction rest as [|v r IH]; intros p dist K E.
  - rewrite app_nil_r in E. now subst p.
  - cbn [fold_left]. apply (IH (p ++ [v])).
    + apply longest_to_ok; [exact K| |].
      * rewrite <- E in order_nodup. now apply NoDup_remove_2 in order_nodup;
          intros I; apply order_nodup, in_or_app; left.
      * intros u Hu. apply predecessors_In in Hu.
        now apply (order_forward p v r (eq_sym E)).
    + now rewrite <- app_assoc.
Qed.

Lemma dist_ok_nil : dist_ok G [] [].
Proof.
  constructor; try reflexivity; intros;
    match goal with H : In _ [] |- _ => destruct H end.
Qed.

Hypothesis order_all : forall x, In x (nodes G) -> In x order.

Variable dist : dict node (nat * node).
Hypothesis dist_done : dist_ok G order dist.

(** The chain that ends in a node is not longer than the position of the
    node in the order. *)
Lemma rank_le_index k : forall v,
  (index v order <= k)%nat -> In v order -> (rank dist v <= index v order)%nat.
Proof using order_nodup order_forward dist_done.
  induction k as [|k IH]; intros v L Hv;
    (destruct (predecessors G v) as [|u us] eqn:P;
     [destruct (dist_first G order dist dist_done v Hv P) as [R _]; lia|]);
    (assert (NE : predecessors G v <> []) by (rewrite P; discriminate));
    destruct (dist_back G order dist dist_done v Hv NE) as [B1 B2];
    pose proof (forward_index G order (back dist v) v order_forward
                  order_nodup Hv (proj1 (predecessors_In G v _) B1)) as I.
  - lia.
  - assert (Hb : In (back dist v) order)
      by (apply (dist_closed G order dist dist_done v); assumption).
    specialize (IH (back dist v)). rewrite B2.
    assert (rank dist (back dist v) <= index (back dist v) order)%nat
      by (apply IH; [lia|exact Hb]).
    lia.
Qed.

Lemma index_lt_length v l : In v l -> (index v l < length l)%nat.
Proof.
  induction l as [|a r IH]; [intros []|]. intros H. cbn [index length].
  destruct (Z.eqb_spec v a) as [->|N]; [lia|].
  destruct H as [H|H]; [congruence|]. specialize (IH H). lia.
Qed.

(** [walk_back] follows a longest chain from its end to its start. *)
Lemma walk_back_spec k : forall fuel u v path,
  In v order -> rank dist v = k ->
  match u with Some u' => u' <> v | None => True end ->
  (k < fuel)%nat ->
  exists tr,
    walk_back fuel dist u v path = path ++ v :: tr /\
    length tr = k /\ rlinked G (v :: tr).
Proof using dist_done.
  induction k as [|k IH]; intros fuel u v path Hv R Hu L;
    (destruct fuel as [|fuel]; [lia|]); cbn [walk_back];
    (replace (match u with Some u' => Z.eqb u' v | None => false end)
       with false
       by (destruct u as [u'|]; [symmetry; now apply Z.eqb_neq|reflexivity]));
    change (snd (lookup dist v (0%nat, v))) with (back dist v).
  - destruct (predecessors G v) as [|p ps] eqn:P.
    + destruct (dist_first G order dist dist_done v Hv P) as [_ B].
      rewrite B. exists []. repeat split.
      destruct fuel as [|fuel]; cbn [walk_back]; [reflexivity|].
      now rewrite Z.eqb_refl.
    + assert (NE : predecessors G v <> []) by (rewrite P; discriminate).
      destruct (dist_back G order dist dist_done v Hv NE) as [_ B2]. lia.
  - destruct (predecessors G v) as [|p ps] eqn:P.
    + destruct (dist_first G order dist dist_done v Hv P) as [R0 _]. lia.
    + assert (NE : predecessors G v <> []) by (rewrite P; discriminate).
      destruct (dist_back G order dist dist_done v Hv NE) as [B1 B2].
      assert (Hb : In (back dist v) order)
        by (apply (dist_closed G order dist dist_done v); assumption).
      destruct (IH fuel (Some v) (back dist v) (path ++ [v]) Hb)
        as (tr & E & Lt & RL); [lia| |lia|].
      * intros E. rewrite <- E in B2. lia.
      * exists (back dist v :: tr). rewrite E, <- app_assoc.
        repeat split; [cbn [length]; lia| |exact RL].
        now apply predecessors_In.
Qed.

(** No chain that ends in a node is longer than the rank of the node. *)
Lemma rlinked_rank l : forall w,
  rlinked G (w :: l) -> (length l <= rank dist w)%nat.
Proof using wf order_all dist_done.
  induction l as [|b r IH]; intros w H; [cbn [length]; lia|].
  cbn [rlinked] in H. destruct H as [E H].
  specialize (IH b H).
  assert (Hw : In w order) by (apply order_all; now apply wf in E).
  pose proof (dist_above G order dist dist_done w b Hw
                (proj2 (predecessors_In G w b) E)).
  cbn [length]. lia.
Qed.
End LongestPath.

Lemma linked_snoc G l : forall b a,
  linked G ((l ++ [b]) ++ [a]) <-> linked G (l ++ [b]) /\ In (b, a) (edges G).
Proof.
  induction l as [|c l IH]; intros b a.
  - cbn [app linked]. tauto.
  - destruct l as [|d l'].
    + cbn [app linked]. tauto.
    + specialize (IH b a). cbn [app linked] in *. tauto.
Qed.

Lemma rlinked_linked G l : rlinked G l <-> linked G (rev l).
Proof.
  induction l as [|a l IH]; [cbn; tauto|].
  destruct l as [|b r]; [cbn; tauto|].
  change (rlinked G (a :: b :: r))
    with (In (b, a) (edges G) /\ rlinked G (b :: r)).
  rewrite IH. cbn [rev]. rewrite linked_snoc. tauto.
Qed.

Lemma rlinked_nodes G :
  well_formed G ->
  forall l v, rlinked G (v :: l) -> forall y, In y l -> In y (nodes G).
Proof.
  intros wf. induction l as [|b t IH]; intros v H y Hy; [destruct Hy|].
  cbn [rlinked] in H. destruct H as [E H].
  destruct Hy as [<-|Hy]; [now apply wf in E|]. now apply (IH b).
Qed.

(** [nx.dag_longest_path] on a graph that passes the acyclicity test:
    the path is a chain of nodes of the graph, and no chain is longer. *)
Lemma dag_longest_path_spec G :
  well_formed G -> NoDup (nodes G) ->
  is_directed_acyclic_graph G = true -> nodes G <> [] ->
  let p := dag_longest_path G in
  linked G p /\
  (forall v, In v p -> In v (nodes G)) /\
  (forall q, linked G q -> (length q <= length p)%nat).
Proof.
  intros wf ND A NE. cbv zeta.
  pose proof (topological_sort_spec G wf ND) as T.
  unfold is_directed_acyclic_graph in A. unfold dag_longest_path.
  destruct (nodes G) as [|n0 ns] eqn:EN; [congruence|]. rewrite <- EN in *.
  destruct (topological_sort G) as [order| |]; try discriminate.
  destruct T as (P & F & _).
  assert (NDo : NoDup order)
    by (apply (Permutation_NoDup (Permutation_sym P) ND)).
  assert (All : forall x, In x (nodes G) -> In x order)
    by (intros x; apply (Permutation_in x (Permutation_sym P))).
  pose proof (fold_longest_to_ok G order NDo F order [] []
                (dist_ok_nil G) eq_refl) as K.
  set (dist := fold_left (longest_to G) order []) in *.
  rewrite (dist_keys G order dist K).
  destruct order as [|x r] eqn:EO.
  { apply Permutation_nil in P. congruence. }
  rewrite <- EO in *.
  change (max_by (fun x0 => fst (lookup dist x0 (0%nat, x0))) x r)
    with (max_by (rank dist) x r).
  destruct (max_by_spec (rank dist) r x) as [M1 M2].
  rewrite <- EO in M1, M2.
  set (v := max_by (rank dist) x r) in *.
  assert (Rv : (rank dist v < S (number_of_nodes G))%nat).
  { pose proof (rank_le_index G order NDo F dist K (index v order) v
                  (le_n _) M1).
    pose proof (index_lt_length v order M1).
    unfold number_of_nodes. rewrite <- (Permutation_length P). lia. }
  destruct (walk_back_spec G order dist K (rank dist v)
              (S (number_of_nodes G)) None v [] M1 eq_refl I Rv)
    as (tr & E & Lt & RL).
  rewrite E. cbn [app]. repeat split.
  - now apply rlinked_linked.
  - intros y Hy. apply in_rev in Hy.
    destruct Hy as [<-|Hy];
      [now apply (Permutation_in v P)|].
    now apply (rlinked_nodes G wf tr v RL).
  - intros q L. rewrite length_rev. cbn [length]. rewrite Lt.
    destruct (rev q) as [|w l] eqn:Q.
    + apply (f_equal (@length node)) in Q. rewrite length_rev in Q.
      cbn [length] in Q. lia.
    + assert (RLq : rlinked G (w :: l)).
      { apply rlinked_linked. rewrite <- Q, rev_involutive. exact L. }
      assert (Lq : length q = S (length l)).
      { rewrite <- (length_rev q), Q. reflexivity. }
      rewrite Lq. destruct l as [|b l'].
      * cbn [length]. lia.
      * pose proof (rlinked_rank G wf order All dist K (b :: l') w RLq) as R.
        assert (Hw : In w order).
        { cbn [rlinked] in RLq. destruct RLq as [Ew _].
          apply All. now apply wf in Ew. }
        specialize (M2 w Hw). lia.
Qed.

(** ** The loops are cycles of the graph *)

Lemma hd_app_nonempty (l r : list node) d : l <> [] -> hd d (l ++ r) = hd d l.
Proof. destruct l; [congruence|reflexivity]. Qed.

(** What the search yields from a chain [start ... v] is that chain,
    closed by an edge from [v] to [start]. *)
Lemma circuits_from_closed G allowed start fuel : forall path_rev v tl c,
  path_rev = v :: tl ->
  rlinked G path_rev ->
  NoDup path_rev ->
  hd 0 (rev path_rev) = start ->
  In c (circuits_from fuel G allowed start path_rev v) ->
  c <> [] /\ NoDup c /\ linked G (c ++ [hd 0 c]).
Proof.
  induction fuel as [|fuel IH]; intros path_rev v tl c E RL ND Hd H;
    [destruct H|].
  cbn [circuits_from] in H. apply in_flat_map in H.
  destruct H as (w & Hw & H). apply successors_In in Hw.
  destruct (Z.eqb w v); [destruct H|].
  destruct (Z.eqb_spec w start) as [->|N].
  - destruct H as [<-|[]]. repeat split.
    + rewrite E. cbn [rev]. intros Z0. apply app_eq_nil in Z0.
      destruct Z0; discriminate.
    + now apply NoDup_rev.
    + rewrite Hd. rewrite E in *. cbn [rev].
      apply linked_snoc. split; [|exact Hw].
      change (rev tl ++ [v]) with (rev (v :: tl)). now apply rlinked_linked.
  - destruct (mem w allowed); [|destruct H]. cbn [andb] in H.
    destruct (mem w path_rev) eqn:M; [destruct H|]. cbn [negb] in H.
    apply mem_false in M.
    apply (IH (w :: path_rev) w path_rev c); try assumption.
    + reflexivity.
    + rewrite E in *. cbn [rlinked]. now split.
    + now constructor.
    + cbn [rev]. rewrite hd_app_nonempty; [exact Hd|].
      rewrite E. cbn [rev]. intros Z0. apply app_eq_nil in Z0.
      destruct Z0; discriminate.
Qed.

Lemma circuits_in_closed G remaining c :
  NoDup remaining ->
  In c (circuits_in G remaining) ->
  c <> [] /\ NoDup c /\ linked G (c ++ [hd 0 c]).
Proof.
  induction remaining as [|s rest IH]; cbn [circuits_in]; [intros _ []|].
  intros ND H. inversion ND; subst. apply in_app_or in H.
  destruct H as [H|H]; [|now apply IH].
  apply (circuits_from_closed G rest s (length (s :: rest)) [s] s [] c eq_refl);
    try assumption.
  - exact I.
  - repeat constructor. intros [].
  - reflexivity.
Qed.

Lemma linked_nodes G :
  well_formed G ->
  forall l a b, linked G (a :: b :: l) ->
  forall x, In x (a :: b :: l) -> In x (nodes G).
Proof.
  intros wf. induction l as [|c l IH]; intros a b H x Hx.
  - cbn [linked] in H. destruct H as [E _]. apply wf in E.
    destruct Hx as [<-|[<-|[]]]; tauto.
  - destruct H as [E H]. destruct Hx as [<-|Hx]; [now apply wf in E|].
    now apply (IH b c).
Qed.

(* ===================================================================== *)
(** * The claims of the specification *)
(* ===================================================================== *)

(** ** Graph construction *)

(** C1, as stated, fails: with the single event 1 and the single edge row
    1 -> 2, the specification counts one node (one distinct identifier)
    and no edge (no row with both endpoints among the events), but the
    built graph has the two nodes 1 and 2 and the edge between them. *)
Lemma create_graph_keeps_dangling_edge :
  let events := [bare_event 1] in
  let rows := [bare_edge 1 2] in
  let G := create_graph events rows in
  length (distinct_identifiers events) = 1%nat /\
  number_of_nodes G = 2%nat /\
  length (resolved_rows events rows) = 0%nat /\
  number_of_edges G = 1%nat.
Proof. cbv. repeat split. Qed.

(** C1, amended: the built graph has exactly one node per distinct
    identifier among the event identifiers and the endpoints of the edge
    rows that have both endpoints, and exactly one edge per distinct
    ordered (source, target) pair of those rows; there are no other nodes
    or edges. *)
Theorem create_graph_nodes_and_edges (events : events_df) (rows : edges_df) :
  let G := create_graph events rows in
  NoDup (nodes G) /\
  (forall n, In n (nodes G) <-> In n (map ID events) \/ In n (endpoints rows)) /\
  number_of_nodes G =
    length (nodup Z.eq_dec (map ID events ++ endpoints rows)) /\
  NoDup (edges G) /\
  (forall u v, In (u, v) (edges G) <-> In (u, v) (linked_pairs rows)) /\
  number_of_edges G = length (nodup pair_eq_dec (linked_pairs rows)).
Proof.
  cbv zeta. repeat split.
  - apply nodes_NoDup.
  - apply In_nodes_create_graph.
  - apply In_nodes_create_graph.
  - apply NoDup_same_elements_length; [apply nodes_NoDup|].
    intros n. rewrite In_nodes_create_graph, in_app_iff. tauto.
  - apply edges_NoDup.
  - apply In_edges_create_graph.
  - apply In_edges_create_graph.
  - apply NoDup_same_elements_length; [apply edges_NoDup|].
    intros p. apply In_edges_create_graph.
Qed.

(** C2, as stated, fails: with two event rows that share the identifier
    1, the run ends without an exception, and the single node 1 of the
    graph carries the attributes of the second row; those of the first
    are overwritten. *)
Lemma duplicate_identifier_is_overwritten :
  let first :=
    mkEvent 1 (Some "Jonas finds the cave"%string) (DateStr "21-06-2019")
            (Some true) (Some false) (Some "Jonas"%string)
            (Some "Jonas world"%string) in
  let second :=
    mkEvent 1 (Some "Mikkel disappears"%string) (DateStr "04-11-2019")
            (Some false) (Some false) (Some "Mikkel"%string)
            (Some "Jonas world"%string) in
  let G := create_graph [first; second] [] in
  outcome [first; second] [] = inl tt /\
  nodes G = [1] /\
  node_attr G 1 = Some (Some (event_attrs second)) /\
  event_attrs first <> event_attrs second.
Proof. cbv. repeat split; discriminate. Qed.

(** C2, amended: if the input event sequence contains two event records
    with the same identifier, graph construction does not fail: the graph
    keeps a single node for that identifier, and the node carries the
    attributes of the last record with that identifier. *)
Theorem duplicate_identifier_last_wins
        (events1 events2 events3 : events_df) (e1 e2 : event_row)
        (rows : edges_df) :
  ID e1 = ID e2 ->
  (forall e, In e events3 -> ID e <> ID e2) ->
  let events := events1 ++ e1 :: events2 ++ e2 :: events3 in
  let G := create_graph events rows in
  count_occ Z.eq_dec (nodes G) (ID e2) = 1%nat /\
  node_attr G (ID e2) = Some (Some (event_attrs e2)).
Proof.
  intros E H events G. split.
  - apply NoDup_count_occ_1; [apply nodes_NoDup|].
    apply In_nodes_create_graph. left. unfold events.
    rewrite app_comm_cons, app_assoc, map_app. apply in_or_app. right.
    now left.
  - apply node_attr_create_graph. unfold events.
    rewrite app_comm_cons, app_assoc. now apply last_event_of_final.
Qed.

(** The theorem applies to two rows with the identifier 1. *)
Lemma duplicate_identifier_last_wins_witness :
  let first := mkEvent 1 (Some "a"%string) NaT None None None None in
  let second := mkEvent 1 (Some "b"%string) NaT None None None None in
  let G := create_graph ([] ++ first :: [] ++ second :: []) [] in
  count_occ Z.eq_dec (nodes G) 1 = 1%nat /\
  node_attr G 1 = Some (Some (event_attrs second)).
Proof.
  intros first second.
  apply (duplicate_identifier_last_wins [] [] [] first second []).
  - reflexivity.
  - intros e [].
Defined.

(** C3, as stated, fails: of the three edge rows below the loop skips one
    (it has no source), the two others have the same ordered pair and
    yield one edge, so that dropped and built edges do not add up to the
    three input rows, whether "dropped" is read as the rows the loop
    skips or as the rows with an endpoint that names no event; and the
    report of the run is the report of the run without the skipped row. *)
Lemma skipped_row_is_not_tallied :
  let events := [bare_event 1; bare_event 2] in
  let rows := [bare_edge 1 2; bare_edge 1 2; mkEdge None (Some 2) None None] in
  let G := create_graph events rows in
  length (skipped_rows rows) = 1%nat /\
  length (unresolved_rows events rows) = 1%nat /\
  number_of_edges G = 1%nat /\
  length rows = 3%nat /\
  report events rows = report events [bare_edge 1 2; bare_edge 1 2].
Proof. cbv. repeat split. Qed.

(** C3, amended: graph construction skips exactly the edge rows with a
    missing source or target; the skipped rows and the inserted rows add
    up to the input edge rows, and the built-edge count is the number of
    distinct ordered pairs among the inserted rows, so that skipped plus
    built edges are at most the input rows.  No count of the skipped rows
    is kept: the graph and the whole run are those of the input without
    the skipped rows. *)
Theorem skipped_rows_conservation (events : events_df) (rows : edges_df) :
  let G := create_graph events rows in
  (length (skipped_rows rows) + length (inserted_rows rows) = length rows)%nat /\
  number_of_edges G = length (nodup pair_eq_dec (linked_pairs rows)) /\
  (length (skipped_rows rows) + number_of_edges G <= length rows)%nat /\
  G = create_graph events (inserted_rows rows) /\
  (forall s, main events rows s = main events (inserted_rows rows) s).
Proof.
  cbv zeta.
  assert (N : number_of_edges (create_graph events rows) =
              length (nodup pair_eq_dec (linked_pairs rows))).
  { apply NoDup_same_elements_length; [apply edges_NoDup|].
    intros p. apply In_edges_create_graph. }
  repeat split.
  - apply length_inserted_skipped.
  - exact N.
  - rewrite N. pose proof (length_nodup_le pair_eq_dec (linked_pairs rows)).
    rewrite length_linked_pairs in H.
    pose proof (length_inserted_skipped rows). lia.
  - apply create_graph_inserted.
  - intros s. apply main_inserted.
Qed.

(** C4, as stated, fails: two rows 1 -> 2 with different types yield a
    single edge, which carries the attributes of the second row, and the
    edge count is 1. *)
Lemma parallel_rows_yield_one_edge :
  let events := [bare_event 1; bare_event 2] in
  let causal := mkEdge (Some 1) (Some 2) (Some "causal"%string) (Some "a"%string) in
  let shift := mkEdge (Some 1) (Some 2) (Some "presence"%string) (Some "b"%string) in
  let G := create_graph events [causal; shift] in
  count_occ pair_eq_dec (edges G) (1, 2) = 1%nat /\
  number_of_edges G = 1%nat /\
  edge_attr G 1 2 = Some (edge_row_attrs shift) /\
  edge_row_attrs causal <> edge_row_attrs shift.
Proof. cbv. repeat split; discriminate. Qed.

(** C4, amended: if two edge rows have the same ordered (source, target)
    pair, the built graph contains a single edge for that pair, carrying
    the type and description of the last row with that pair; the edge
    count counts the pair once, so it is smaller than the number of
    inserted rows. *)
Theorem parallel_rows_collapse
        (events : events_df) (rows1 rows2 rows3 : edges_df)
        (e1 e2 : edge_row) (u v : node) :
  joins u v e1 = true ->
  joins u v e2 = true ->
  (forall e, In e rows3 -> joins u v e = false) ->
  let rows := rows1 ++ e1 :: rows2 ++ e2 :: rows3 in
  let G := create_graph events rows in
  count_occ pair_eq_dec (edges G) (u, v) = 1%nat /\
  edge_attr G u v = Some (edge_row_attrs e2) /\
  number_of_edges G = length (nodup pair_eq_dec (linked_pairs rows)) /\
  (number_of_edges G < length (inserted_rows rows))%nat.
Proof.
  intros J1 J2 H3 rows G.
  assert (P1 : row_pair e1 = [(u, v)]) by now apply joins_row_pair.
  assert (P2 : row_pair e2 = [(u, v)]) by now apply joins_row_pair.
  assert (L : linked_pairs rows =
              linked_pairs rows1 ++ (u, v) ::
              (linked_pairs rows2 ++ (u, v) :: linked_pairs rows3)).
  { unfold rows.
    rewrite linked_pairs_app, linked_pairs_cons, linked_pairs_app,
            linked_pairs_cons, P1, P2. reflexivity. }
  assert (N : number_of_edges G = length (nodup pair_eq_dec (linked_pairs rows))).
  { apply NoDup_same_elements_length; [apply edges_NoDup|].
    intros p. apply In_edges_create_graph. }
  repeat split.
  - apply NoDup_count_occ_1; [apply edges_NoDup|].
    apply In_edges_create_graph. rewrite L.
    apply in_or_app. right. now left.
  - unfold G. rewrite edge_attr_create_graph.
    unfold rows. rewrite app_comm_cons, app_assoc.
    now rewrite (last_row_of_final _ e2 rows3 u v J2 H3).
  - exact N.
  - rewrite N, <- length_linked_pairs, L.
    apply length_nodup_repeated. apply in_or_app. right. now left.
Qed.

(** The theorem applies to the two rows 1 -> 2 above. *)
Lemma parallel_rows_collapse_witness :
  let causal := mkEdge (Some 1) (Some 2) (Some "causal"%string) (Some "a"%string) in
  let shift := mkEdge (Some 1) (Some 2) (Some "presence"%string) (Some "b"%string) in
  let G := create_graph [bare_event 1; bare_event 2] ([] ++ causal :: [] ++ shift :: []) in
  count_occ pair_eq_dec (edges G) (1, 2) = 1%nat /\
  edge_attr G 1 2 = Some (edge_row_attrs shift) /\
  number_of_edges G =
    length (nodup pair_eq_dec (linked_pairs ([] ++ causal :: [] ++ shift :: []))) /\
  (number_of_edges G < length (inserted_rows ([] ++ causal :: [] ++ shift :: [])))%nat.
Proof.
  intros causal shift.
  apply (parallel_rows_collapse [bare_event 1; bare_event 2] [] [] []
           causal shift 1 2).
  - reflexivity.
  - reflexivity.
  - intros e [].
Defined.

(** ** The structural report *)

(** C5, as stated, fails: on the cyclic graph 1 -> 2 -> 3 -> 1 the run
    completes and the report has no line at all for the longest causal
    chain, and in particular no "not applicable" line: after the causal
    loops come the strongly connected components. *)
Lemma cyclic_graph_omits_longest_chain :
  let events := [bare_event 1; bare_event 2; bare_event 3] in
  let rows := [bare_edge 1 2; bare_edge 2 3; bare_edge 3 1] in
  is_directed_acyclic_graph (create_graph events rows) = false /\
  outcome events rows = inl tt /\
  report events rows =
    [Title; Rule; Worlds_header; Temporal_header; Characters_header;
     Important_header; Trigger_count 0; Death_count 0;
     Structure_header; Node_count 3; Edge_count 3; Central_header;
     Central_event 1 (1 # 2); Central_event 2 (1 # 2);
     Central_event 3 (1 # 2); Dead_end_count 0;
     Loop_count 1; Notable_header; Loop 1 [1; 2; 3];
     Component_count 1; Largest_component 3].
Proof. vm_compute. repeat split. Qed.

(** C5, amended: the longest-causal-chain metric is computed only when
    the graph passes the acyclicity test; for such a graph with at least
    one node the structural report contains both the length of the chain
    in nodes and its node sequence, and for every cyclic graph the
    report contains no line for this metric (the metric is omitted). *)
Theorem longest_chain_only_when_acyclic (G : DiGraph) (s : run_state) :
  let lines := written (analyze_graph_structure G) s in
  (is_directed_acyclic_graph G = true -> nodes G <> [] ->
   exists v path,
     dag_longest_path G = v :: path /\
     In (Longest_chain (length (v :: path))) lines /\
     In (Path (v :: path)) lines) /\
  (is_directed_acyclic_graph G = false ->
   Forall (fun l => mentions_longest_chain l = false) lines).
Proof.
  cbv zeta.
  rewrite (written_add_lines _ _ _ _ (analyze_graph_structure_run G s)).
  split.
  - intros D N.
    pose proof (dag_longest_path_not_nil G D N) as P.
    destruct (dag_longest_path G) as [|v path] eqn:E; [congruence|].
    exists v, path. split; [reflexivity|].
    split; apply In_chain_lines_structure; rewrite chain_lines_spec, D, E;
      simpl; tauto.
  - intros D. apply Forall_forall. intros l H.
    destruct (mentions_longest_chain l) eqn:M; [|reflexivity].
    apply structure_lines_chain in H; [|assumption].
    rewrite chain_lines_spec, D in H. destruct H.
Qed.

(** The theorem applies to the chain 1 -> 2 -> 3, whose report names the
    path of three events, and to the cycle 1 -> 2 -> 3 -> 1. *)
Lemma longest_chain_only_when_acyclic_witness :
  let chain := create_graph [bare_event 1; bare_event 2; bare_event 3]
                            [bare_edge 1 2; bare_edge 2 3] in
  let cycle := create_graph [bare_event 1; bare_event 2; bare_event 3]
                            [bare_edge 1 2; bare_edge 2 3; bare_edge 3 1] in
  (exists v path,
     dag_longest_path chain = v :: path /\
     In (Longest_chain (length (v :: path)))
        (written (analyze_graph_structure chain) start) /\
     In (Path (v :: path)) (written (analyze_graph_structure chain) start)) /\
  Forall (fun l => mentions_longest_chain l = false)
         (written (analyze_graph_structure cycle) start).
Proof.
  intros chain cycle. split.
  - apply (proj1 (longest_chain_only_when_acyclic chain start)).
    + reflexivity.
    + discriminate.
  - apply (proj2 (longest_chain_only_when_acyclic cycle start)).
    reflexivity.
Defined.






(** ** The dates of the events *)

(** C8, as stated, fails: the second of the three rows below has a date
    that is not in the day-month-year format; the run aborts with the
    [ValueError] of [to_datetime], and the report stops after the worlds
    section: the two well-formed rows are not reported. *)
Lemma malformed_date_aborts_the_run :
  let events := [dated_event 1 "21-06-2019"; dated_event 2 "2019-06-21";
                 dated_event 3 "04-11-1953"] in
  strptime "2019-06-21" = None /\
  outcome events [] = inr (ValueError_time_data 1) /\
  report events [] = [Title; Rule; Worlds_header].
Proof. vm_compute. repeat split. Qed.

(** C8, amended: an individual row whose Date value cannot be parsed in
    the day-month-year format aborts the run: the temporal analysis
    raises the error of [to_datetime], which names the position of the
    first such row; no row is skipped and no warning is recorded, no date
    of the frame is replaced, and the report ends after the worlds
    section. *)
Theorem unparseable_date_aborts_run
        (events : events_df) (rows : edges_df) (position : nat) (text : string) :
  nth_error (map Date events) position = Some (DateStr text) ->
  is_nat_string text = false ->
  strptime text = None ->
  exists first c,
    (first <= position)%nat /\
    nth_error (map Date events) first = Some c /\
    to_datetime_cell c = None /\
    outcome events rows = inr (ValueError_time_data first) /\
    frame (snd (main events rows start)) = events /\
    report events rows = Title :: Rule :: worlds_lines events.
Proof.
  intros Hn Hs Hp.
  assert (Hc : to_datetime_cell (DateStr text) = None).
  { simpl. now rewrite Hs. }
  destruct (to_datetime_from_raises _ 0%nat _ _ Hn Hc)
    as (first & c & L & N & C & R).
  exists first, c. unfold outcome, report.
  rewrite (main_raises_in_temporal events rows _ R). simpl.
  repeat split; assumption.
Qed.

(** The theorem applies to a frame whose second row has the date
    "yesterday". *)
Lemma unparseable_date_aborts_run_witness :
  let events := [dated_event 1 "21-06-2019"; dated_event 2 "yesterday"] in
  exists first c,
    (first <= 1)%nat /\
    nth_error (map Date events) first = Some c /\
    to_datetime_cell c = None /\
    outcome events [] = inr (ValueError_time_data first) /\
    frame (snd (main events [] start)) = events /\
    report events [] = Title :: Rule :: worlds_lines events.
Proof.
  intros events.
  apply (unparseable_date_aborts_run events [] 1 "yesterday"); reflexivity.
Defined.

(** C9, as stated, fails: the temporal analyzer replaces the text of the
    Date column of the frame it is given by the parsed date, and the
    frame stays that way to the end of the run. *)
Lemma temporal_analysis_rewrites_dates :
  let events := [dated_event 1 "21-06-2019"] in
  let s := {| frame := events; report_file := [] |} in
  map Date events = [DateStr "21-06-2019"] /\
  map Date (frame (snd (analyze_temporal_patterns s))) = [Timestamp 2019 6 21] /\
  map Date (frame (snd (main events [] start))) = [Timestamp 2019 6 21].
Proof. vm_compute. repeat split. Qed.

(** C9, amended: the worlds, characters and triggers/deaths analyzers
    leave every field of every event record unchanged; the temporal
    analyzer replaces each record's Date value by the parsed date and
    leaves every other field unchanged.  No analyzer reads the text of a
    date but the temporal one, for which parsed dates read as themselves,
    so that after any sequence of analyzers that ran to its end every
    analyzer has the same outcome and reports the same lines as on the
    loaded frame. *)
Theorem analyzers_keep_all_but_dates
        (order : list analyzer) (s s' : run_state) :
  run_analyzers order s = (inl tt, s') ->
  same_columns (frame s) (frame s') /\
  (~ In Pass_temporal order -> frame s' = frame s) /\
  (In Pass_temporal order ->
   to_datetime (map Date (frame s)) = inl (map Date (frame s'))) /\
  (forall a,
     fst (run_analyzer a s') = fst (run_analyzer a s) /\
     written (run_analyzer a) s' = written (run_analyzer a) s).
Proof.
  intros H. destruct (run_analyzers_frame order s s' H) as (C & D & N & T).
  split; [exact C|]. split; [exact N|]. split; [exact T|].
  intros a. now apply run_analyzer_report.
Qed.

(** The theorem applies to the temporal analyzer followed by the worlds
    analyzer on a frame of one dated event. *)
Lemma analyzers_keep_all_but_dates_witness :
  let s := {| frame := [dated_event 1 "21-06-2019"]; report_file := [] |} in
  let s' := snd (run_analyzers [Pass_temporal; Pass_worlds] s) in
  same_columns (frame s) (frame s') /\
  (~ In Pass_temporal [Pass_temporal; Pass_worlds] -> frame s' = frame s) /\
  (In Pass_temporal [Pass_temporal; Pass_worlds] ->
   to_datetime (map Date (frame s)) = inl (map Date (frame s'))) /\
  (forall a,
     fst (run_analyzer a s') = fst (run_analyzer a s) /\
     written (run_analyzer a) s' = written (run_analyzer a) s).
Proof.
  intros s s'.
  apply (analyzers_keep_all_but_dates [Pass_temporal; Pass_worlds] s s').
  reflexivity.
Defined.

(** ** Self-loops *)

(** C10: for every node that carries a self-loop edge, the structural
    analysis excludes that node from the dead-end set, since its
    out-degree is not zero, and enumerates the self-loop as a causal loop
    of length 1, which is counted once in the reported number of loops;
    this holds whether or not the node has an edge to another node. *)
Theorem self_loop_is_live_and_counted
        (events : events_df) (rows : edges_df) (v : node) (s : run_state) :
  let G := create_graph events rows in
  has_edge G v v = true ->
  out_degree G v <> 0%nat /\
  ~ In v (dead_ends G) /\
  In [v] (simple_cycles G) /\
  count_occ (list_eq_dec Z.eq_dec) (simple_cycles G) [v] = 1%nat /\
  In (Dead_end_count (length (dead_ends G)))
     (written (analyze_graph_structure G) s) /\
  In (Loop_count (length (simple_cycles G)))
     (written (analyze_graph_structure G) s).
Proof.
  intros G H.
  assert (N : In v (nodes G)).
  { apply has_edge_In in H. now apply edges_between_nodes in H. }
  pose proof (self_loop_out_degree G v H) as O.
  pose proof (self_loop_counted_once G v (nodes_NoDup events rows) N H) as C.
  rewrite (written_add_lines _ _ _ _ (analyze_graph_structure_run G s)).
  split; [exact O|].
  split; [rewrite dead_ends_In; tauto|].
  split.
  - rewrite (count_occ_In (list_eq_dec Z.eq_dec)). rewrite C. lia.
  - split; [exact C|]. apply In_structure_lines_counts.
Qed.

(** The theorem applies to the event 1 whose only edge is 1 -> 1. *)
Lemma self_loop_is_live_and_counted_witness :
  let G := create_graph [bare_event 1] [bare_edge 1 1] in
  successors G 1 = [1] /\
  out_degree G 1 <> 0%nat /\
  ~ In 1 (dead_ends G) /\
  In [1] (simple_cycles G) /\
  count_occ (list_eq_dec Z.eq_dec) (simple_cycles G) [1] = 1%nat /\
  In (Dead_end_count (length (dead_ends G)))
     (written (analyze_graph_structure G) start) /\
  In (Loop_count (length (simple_cycles G)))
     (written (analyze_graph_structure G) start).
Proof.
  intros G. split; [reflexivity|].
  apply (self_loop_is_live_and_counted [bare_event 1] [bare_edge 1 1] 1 start).
  reflexivity.
Defined.

(* ===================================================================== *)
(** * Further properties of the analysis *)
(* ===================================================================== *)

(** ** The distribution analyzers *)

(** X1 (analyze_worlds): the worlds analysis never fails and leaves the
    frame as it is; after its header it writes one line per world that
    occurs in the World column, each world once, with the number of
    events of that world, larger counts first.  Events without a world
    are not counted. *)
Theorem worlds_section_counts (s : run_state) :
  exists counts : list (string * nat),
    analyze_worlds s =
      (inl tt,
       add_lines s (Worlds_header ::
                    map (fun '(world, count) => World_count world count) counts)) /\
    NoDup (keys counts) /\
    (forall world count,
       In (world, count) counts <->
       count = occurrences String.eqb world (dropna (map World (frame s))) /\
       (0 < count)%nat) /\
    StronglySorted (fun a b => (snd b <= snd a)%nat) counts.
Proof.
  exists (value_counts String.eqb (map World (frame s))).
  split; [apply analyze_worlds_run|].
  apply (value_counts_spec String.eqb String.eqb_spec).
Qed.

(** X2 (analyze_important_events): the analysis of the important events
    never fails and leaves the frame as it is; the two counts it reports
    are the number of rows whose Important Trigger cell is True and the
    number of rows whose Death cell is True.  Rows with a False or a
    missing cell are not counted, and a column without any True gives the
    count 0. *)
Theorem important_events_counts (s : run_state) :
  analyze_important_events s =
  (inl tt,
   add_lines s
     [Important_header;
      Trigger_count
        (length (filter (fun e => flagged (Important_Trigger e)) (frame s)));
      Death_count
        (length (filter (fun e => flagged (Death e)) (frame s)))]).
Proof.
  rewrite analyze_important_events_run. unfold important_lines.
  rewrite !(get_count_value_counts Bool.eqb Bool.eqb_spec).
  now rewrite !occurrences_flagged, !length_filter_map.
Qed.


(** X4 (str.split, as analyze_character_involvement calls it): splitting
    a text at a separator and joining the pieces with the separator gives
    the text back; there is one piece more than the text has separators,
    so at least one piece, and no piece contains the separator. *)
Theorem split_join_round_trip (sep : ascii) (s : string) :
  String.concat (String sep "") (split sep s) = s /\
  length (split sep s) = S (count_char sep s) /\
  Forall (fun piece => count_char sep piece = 0%nat) (split sep s).
Proof.
  repeat apply conj;
    [apply concat_split|apply length_split|apply split_pieces_free].
Qed.



(** X7 (analyze_temporal_patterns, when every date converts): the
    temporal analysis stores the converted dates in the frame and writes,
    after its header, one line per year that occurs among them, with the
    number of events of that year, the years strictly ascending.  Events
    without a date are not counted.  The line of the time span is written
    exactly when at least two years occur; it gives the last year minus
    the first, which is positive. *)
Theorem temporal_section_years (s : run_state) (column : list date_cell) :
  to_datetime (map Date (frame s)) = inl column ->
  exists years : list (Z * nat),
    analyze_temporal_patterns s =
      (inl tt,
       add_lines {| frame := assign_Date (frame s) column;
                    report_file := report_file s |}
         (Temporal_header ::
          map (fun '(year, count) => Year_count year count) years ++
          match years with
          | _ :: _ :: _ => [Time_span (last (keys years) 0 - hd 0 (keys years))]
          | _ => []
          end)) /\
    StronglySorted Z.lt (keys years) /\
    (forall year count,
       In (year, count) years <->
       count = occurrences Z.eqb year (dropna (map dt_year column)) /\
       (0 < count)%nat) /\
    ((2 <= length years)%nat -> 0 < last (keys years) 0 - hd 0 (keys years)).
Proof.
  intros H.
  assert (L : length column = length (frame s))
    by (rewrite <- (length_map Date); apply (to_datetime_from_length _ 0%nat), H).
  set (counts := value_counts Z.eqb (map dt_year column)).
  destruct (value_counts_spec Z.eqb Z.eqb_spec (map dt_year column))
    as (ND & C & _). fold counts in ND, C.
  destruct (sort_index_spec counts ND) as [P S].
  exists (sort_index counts). repeat apply conj.
  - rewrite (analyze_temporal_patterns_run s column H).
    unfold temporal_lines. rewrite (map_Date_assign_Date _ _ L). fold counts.
    do 4 f_equal.
    destruct (sort_index counts) as [|a [|b r]]; try reflexivity.
    cbn [length Nat.ltb Nat.leb]. cbv zeta. now rewrite span_ascending.
  - exact S.
  - intros year count. rewrite <- C.
    split; apply Permutation_in; [exact P|symmetry; exact P].
  - intros G. destruct (sort_index counts) as [|a [|b r]]; simpl in G; try lia.
    cbn [keys map hd] in *. pose proof (last_ascending _ _ _ S) as B. lia.
Qed.

(** The theorem applies to a frame of two dated events and one event
    without a date. *)
Lemma temporal_section_years_witness :
  let s := {| frame := [dated_event 1 "21-06-2019"; bare_event 2;
                        dated_event 3 "04-11-1953"];
              report_file := [] |} in
  let column := [Timestamp 2019 6 21; NaT; Timestamp 1953 11 4] in
  exists years : list (Z * nat),
    analyze_temporal_patterns s =
      (inl tt,
       add_lines {| frame := assign_Date (frame s) column;
                    report_file := report_file s |}
         (Temporal_header ::
          map (fun '(year, count) => Year_count year count) years ++
          match years with
          | _ :: _ :: _ => [Time_span (last (keys years) 0 - hd 0 (keys years))]
          | _ => []
          end)) /\
    StronglySorted Z.lt (keys years) /\
    (forall year count,
       In (year, count) years <->
       count = occurrences Z.eqb year (dropna (map dt_year column)) /\
       (0 < count)%nat) /\
    ((2 <= length years)%nat -> 0 < last (keys years) 0 - hd 0 (keys years)).
Proof.
  intros s column.
  apply (temporal_section_years s column). reflexivity.
Defined.

(** ** The run *)


(** X9 (main): when every date converts, the report is the title, its
    rule, and then what each of the five analyses writes when it is run
    on its own on the loaded tables, in the order worlds, years,
    characters, important events, graph structure; this holds whether or
    not the last analysis fails.  The frame ends with the converted
    dates. *)
Theorem report_is_the_sections_in_order
        (events : events_df) (rows : edges_df) (column : list date_cell) :
  to_datetime (map Date events) = inl column ->
  let loaded := {| frame := events; report_file := [] |} in
  report events rows =
    Title :: Rule ::
    written analyze_worlds loaded ++
    written analyze_temporal_patterns loaded ++
    written analyze_character_involvement loaded ++
    written analyze_important_events loaded ++
    written (analyze_graph_structure (create_graph events rows)) loaded /\
  frame (snd (main events rows start)) = assign_Date events column.
Proof.
  intros H loaded. unfold report.
  rewrite (main_run events rows column H). cbn [snd report_file frame].
  rewrite (written_add_lines _ _ _ _ (analyze_worlds_run loaded)).
  rewrite (written_add_lines _ _ _ _ (analyze_character_involvement_run loaded)).
  rewrite (written_add_lines _ _ _ _ (analyze_important_events_run loaded)).
  rewrite (written_add_lines _ _ _ _
             (analyze_graph_structure_run (create_graph events rows) loaded)).
  rewrite (written_of_report _ _ _ _ (temporal_lines (assign_Date events column))
             (analyze_temporal_patterns_run loaded column H)) by reflexivity.
  split; reflexivity.
Qed.

(** The theorem applies to two dated events joined by an edge. *)
Lemma report_is_the_sections_in_order_witness :
  let events := [dated_event 1 "21-06-2019"; dated_event 2 "04-11-1953"] in
  let rows := [bare_edge 1 2] in
  let loaded := {| frame := events; report_file := [] |} in
  report events rows =
    Title :: Rule ::
    written analyze_worlds loaded ++
    written analyze_temporal_patterns loaded ++
    written analyze_character_involvement loaded ++
    written analyze_important_events loaded ++
    written (analyze_graph_structure (create_graph events rows)) loaded /\
  frame (snd (main events rows start)) =
    assign_Date events [Timestamp 2019 6 21; Timestamp 1953 11 4].
Proof.
  intros events rows.
  apply (report_is_the_sections_in_order
           events rows [Timestamp 2019 6 21; Timestamp 1953 11 4]).
  reflexivity.
Defined.

(** X10 (main, empty tables): with an events table without rows and an
    edges table without a row that has both endpoints, the run writes
    every header and every count, all counts being 0, up to the number of
    strongly connected groups, and then fails with the ValueError of the
    maximum of no component; the line of the largest group is not
    written. *)
Theorem empty_tables_fail_at_largest_group (rows : edges_df) :
  inserted_rows rows = [] ->
  main [] rows start =
  (inr ValueError_max_empty,
   {| frame := [];
      report_file :=
        [Title; Rule; Worlds_header; Temporal_header; Characters_header;
         Important_header; Trigger_count 0; Death_count 0;
         Structure_header; Node_count 0; Edge_count 0; Central_header;
         Dead_end_count 0; Loop_count 0; Component_count 0] |}).
Proof.
  intros H. rewrite main_inserted, H. reflexivity.
Qed.

(** The theorem applies to an edges table whose only row has no target. *)
Lemma empty_tables_fail_at_largest_group_witness :
  main [] [mkEdge (Some 1) None None None] start =
  (inr ValueError_max_empty,
   {| frame := [];
      report_file :=
        [Title; Rule; Worlds_header; Temporal_header; Characters_header;
         Important_header; Trigger_count 0; Death_count 0;
         Structure_header; Node_count 0; Edge_count 0; Central_header;
         Dead_end_count 0; Loop_count 0; Component_count 0] |}).
Proof.
  apply (empty_tables_fail_at_largest_group [mkEdge (Some 1) None None None]).
  reflexivity.
Defined.

(** ** The graph and its structure section *)

(** X11 (analyze_graph_structure, the causal loops): the line "Loop i"
    is written for the i-th loop that the enumeration of the loops
    yields, for i from 1 to 3 and no further; the header of the notable
    loops is written exactly when there is a loop. *)
Theorem notable_loops_are_the_first_three (G : DiGraph) (s : run_state) :
  let lines := written (analyze_graph_structure G) s in
  (In Notable_header lines <-> simple_cycles G <> []) /\
  (forall i cycle,
     In (Loop i cycle) lines <->
     (1 <= i <= 3)%nat /\ nth_error (simple_cycles G) (i - 1) = Some cycle).
Proof.
  cbv zeta.
  rewrite (written_add_lines _ _ _ _ (analyze_graph_structure_run G s)).
  split.
  - now rewrite In_Notable_structure_lines, In_Notable_loop_lines.
  - intros i cycle. now rewrite In_Loop_structure_lines, In_Loop_loop_lines.
Qed.

(** X12 (analyze_graph_structure, the central events): for a built graph
    of n nodes the list of the most central events has min(5, n)
    entries, which are distinct nodes of the graph; with at most five
    nodes every node is listed. *)
Theorem top_central_lists_up_to_five (events : events_df) (rows : edges_df) :
  let G := create_graph events rows in
  length (top_central G) = Nat.min 5 (number_of_nodes G) /\
  NoDup (keys (top_central G)) /\
  (forall v, In v (keys (top_central G)) -> In v (nodes G)) /\
  ((number_of_nodes G <= 5)%nat ->
   forall v, In v (nodes G) -> In v (keys (top_central G))).
Proof.
  intros G. unfold top_central.
  pose proof (sorted_reverse_Permutation centrality_lt (betweenness_centrality G))
    as P.
  pose proof (keys_betweenness_centrality G (create_graph_well_formed events rows))
    as K.
  assert (PK : Permutation
                 (keys (sorted_reverse centrality_lt (betweenness_centrality G)))
                 (nodes G)).
  { rewrite <- K. now apply Permutation_map. }
  assert (L : length (sorted_reverse centrality_lt (betweenness_centrality G)) =
              number_of_nodes G).
  { unfold number_of_nodes. rewrite <- (Permutation_length PK).
    unfold keys. now rewrite length_map. }
  repeat apply conj.
  - now rewrite length_firstn, L.
  - unfold keys. rewrite <- firstn_map. apply NoDup_firstn.
    eapply Permutation_NoDup; [symmetry; exact PK|apply nodes_NoDup].
  - intros v H. unfold keys in H. rewrite <- firstn_map in H.
    apply firstn_In in H. now apply (Permutation_in _ PK).
  - intros N v H. rewrite firstn_all2 by lia.
    apply (Permutation_in v (Permutation_sym PK) H).
Qed.

(** X13 (analyze_graph_structure with create_graph, the dead ends): the
    dead ends of the built graph are the event identifiers and edge
    endpoints that are the source of no edge row with both endpoints. *)
Theorem dead_ends_are_sources_of_no_row
        (events : events_df) (rows : edges_df) (n : node) :
  In n (dead_ends (create_graph events rows)) <->
  (In n (map ID events) \/ In n (endpoints rows)) /\
  (forall e, In e (inserted_rows rows) -> Source e <> Some n).
Proof.
  rewrite dead_ends_In, In_nodes_create_graph, out_degree_zero.
  apply and_iff_compat_l. split.
  - intros H e He S. apply filter_In in He. destruct He as [He C].
    unfold complete in C. destruct (Target e) as [v|] eqn:T;
      [|rewrite andb_false_r in C; discriminate].
    apply (H v), In_edges_create_graph, In_linked_pairs. now exists e.
  - intros H w I. apply In_edges_create_graph, In_linked_pairs in I.
    destruct I as (e & He & S & T). apply (H e); [|assumption].
    apply filter_In. split; [assumption|]. unfold complete. now rewrite S, T.
Qed.

(** X14 (create_graph, the attributes of the nodes): a node named by an
    event row carries the attributes of the last row with its identifier;
    a node that only edge rows name is created with an empty attribute
    dictionary; there is no other node. *)
Theorem node_attributes (events : events_df) (rows : edges_df) (n : node) :
  node_attr (create_graph events rows) n =
  match last_event events n with
  | Some e => Some (Some (event_attrs e))
  | None => if mem n (endpoints rows) then Some None else None
  end.
Proof.
  destruct (last_event events n) as [e|] eqn:E;
    [now apply node_attr_create_graph|].
  pose proof (proj1 (last_event_None events n) E) as NI.
  destruct (mem n (endpoints rows)) eqn:M.
  - apply (existsb_eqb_In Z.eqb Z.eqb_spec) in M.
    destruct (node_attr (create_graph events rows) n) as [[a|]|] eqn:A.
    + exfalso. unfold create_graph in A.
      apply node_attr_fold_add_edge_row_fresh in A.
      rewrite node_attr_fold_add_event, E in A. discriminate.
    + reflexivity.
    + exfalso. apply dict_get_None in A. apply A.
      apply In_nodes_create_graph. now right.
  - apply dict_get_None. intros I. apply In_nodes_create_graph in I.
    destruct I as [I|I]; [tauto|].
    apply (existsb_eqb_In Z.eqb Z.eqb_spec) in I. unfold mem in M. congruence.
Qed.

(** ** The column degree_of_2 *)

(** X15 (has_degree_2): the flag of a node is True exactly when one row
    of the edges table has the node as its target and one row has it as
    its source.  The rows are counted as they stand in the table, also
    those without the other endpoint and those that repeat a pair, so
    that the two counts are at least the in-degree and the out-degree of
    the node in the graph that create_graph builds; a node that no row
    names has the flag False. *)
Theorem has_degree_2_counts_rows
        (events : events_df) (rows : edges_df) (n : node) :
  let incoming := length (filter (fun e => names n (Target e)) rows) in
  let outgoing := length (filter (fun e => names n (Source e)) rows) in
  let G := create_graph events rows in
  has_degree_2 rows n = ((incoming =? 1)%nat && (outgoing =? 1)%nat) /\
  (in_degree G n <= incoming)%nat /\
  (out_degree G n <= outgoing)%nat.
Proof.
  cbv zeta. repeat apply conj.
  - unfold has_degree_2. now rewrite incoming_count, outgoing_count.
  - rewrite in_degree_filter.
    etransitivity; [apply filter_edges_le|].
    etransitivity; [apply filter_linked_pairs_le|].
    apply filter_le. intros e.
    destruct (Source e), (Target e); simpl; congruence.
  - rewrite out_degree_filter.
    etransitivity; [apply filter_edges_le|].
    etransitivity; [apply filter_linked_pairs_le|].
    apply filter_le. intros e.
    destruct (Source e), (Target e); simpl; congruence.
Qed.

(** X16 (degree_of_2.py against create_graph): when every row of the
    edges table has both endpoints and no ordered pair occurs twice, the
    flag of a node is True exactly when the node has in-degree 1 and
    out-degree 1 in the built graph, and the column degree_of_2 holds
    this flag for the identifier of every event row, in the order of the
    rows. *)
Theorem has_degree_2_is_graph_degree
        (events : events_df) (rows : edges_df) :
  Forall (fun e => complete e = true) rows ->
  NoDup (linked_pairs rows) ->
  let G := create_graph events rows in
  let degree_2 n := ((in_degree G n =? 1)%nat && (out_degree G n =? 1)%nat) in
  (forall n, has_degree_2 rows n = degree_2 n) /\
  degree_of_2 events rows = map (fun e => degree_2 (ID e)) events.
Proof.
  intros C ND G degree_2.
  assert (H : forall n, has_degree_2 rows n = degree_2 n)
    by (intros n; now apply has_degree_2_graph_degree).
  split; [exact H|].
  unfold degree_of_2. rewrite map_map. apply map_ext. intros e. apply H.
Qed.

(** The theorem applies to the chain 1 -> 2 -> 3, whose middle node alone
    has the flag. *)
Lemma has_degree_2_is_graph_degree_witness :
  let events := [bare_event 1; bare_event 2; bare_event 3] in
  let rows := [bare_edge 1 2; bare_edge 2 3] in
  let G := create_graph events rows in
  let degree_2 n := (Nat.eqb (in_degree G n) 1 && Nat.eqb (out_degree G n) 1) in
  degree_of_2 events rows = [false; true; false] /\
  (forall n, has_degree_2 rows n = degree_2 n) /\
  degree_of_2 events rows = map (fun e => degree_2 (ID e)) events.
Proof.
  intros events rows G degree_2. split; [reflexivity|].
  apply (has_degree_2_is_graph_degree events rows).
  - repeat constructor.
  - repeat constructor; simpl; intuition discriminate.
Defined.

(** ** Dates *)


(** X18 (the format '%d-%m-%Y'): a text that the format accepts is read
    as a day of the calendar: the year has four digits and is not 0, the
    month lies between 1 and 12, the day between 1 and the number of days
    of that month in that year; the text has 8 to 10 characters. *)
Theorem strptime_yields_calendar_dates (text : string) :
  match strptime text with
  | Some (Timestamp year month day) =>
      1 <= year <= 9999 /\
      1 <= month <= 12 /\
      1 <= day <= days_in_month year month /\
      (8 <= String.length text <= 10)%nat
  | Some _ => False
  | None => True
  end.
Proof.
  unfold strptime.
  destruct (split "-" text) as [|d [|m [|y [|x r]]]] eqn:S; try exact I.
  destruct (directive_d d) as [day|] eqn:D; [|exact I].
  destruct (directive_m m) as [month|] eqn:M; [|exact I].
  destruct (directive_Y y) as [year|] eqn:Y; [|exact I].
  destruct ((1 <=? year) && (day <=? days_in_month year month)) eqn:C;
    [|exact I].
  apply andb_true_iff in C. destruct C as [C1 C2].
  apply Z.leb_le in C1, C2.
  apply directive_d_spec in D. apply directive_m_spec in M.
  apply directive_Y_spec in Y. apply strptime_split in S.
  repeat split; lia.
Qed.

(** X19 (the format '%d-%m-%Y', round trip): a day of the calendar, of a
    year that a timestamp can hold, written with two digits for the day,
    two for the month and four for the year, is read back as that day. *)
Theorem strptime_reads_formatted_dates (year month day : Z) :
  1678 <= year <= 2261 ->
  1 <= month <= 12 ->
  1 <= day <= days_in_month year month ->
  strptime (strftime year month day) = Some (Timestamp year month day) /\
  to_datetime_cell (DateStr (strftime year month day)) =
    Some (Timestamp year month day).
Proof.
  intros Hy Hm Hd.
  pose proof (days_in_month_bound year month) as B.
  assert (P : strptime (strftime year month day) = Some (Timestamp year month day)).
  { unfold strptime, strftime, two_digits, four_digits.
    cbn [String.append].
    destruct (digit_char_spec (day / 10)) as (A1 & A2 & A3 & A4);
      [split; [apply Z.div_pos|apply Z.div_le_upper_bound]; lia|].
    destruct (digit_char_spec (day mod 10)) as (B1 & B2 & B3 & _);
      [pose proof (Z.mod_pos_bound day 10); lia|].
    destruct (digit_char_spec (month / 10)) as (C1 & C2 & C3 & _);
      [split; [apply Z.div_pos|apply Z.div_le_upper_bound]; lia|].
    destruct (digit_char_spec (month mod 10)) as (D1 & D2 & D3 & _);
      [pose proof (Z.mod_pos_bound month 10); lia|].
    destruct (digit_char_spec (year / 1000)) as (E1 & E2 & E3 & _);
      [split; [apply Z.div_pos|apply Z.div_le_upper_bound]; lia|].
    destruct (digit_char_spec (year / 100 mod 10)) as (F1 & F2 & F3 & _);
      [pose proof (Z.mod_pos_bound (year / 100) 10); lia|].
    destruct (digit_char_spec (year / 10 mod 10)) as (G1 & G2 & G3 & _);
      [pose proof (Z.mod_pos_bound (year / 10) 10); lia|].
    destruct (digit_char_spec (year mod 10)) as (H1 & H2 & H3 & _);
      [pose proof (Z.mod_pos_bound year 10); lia|].
    rewrite split_date by assumption.
    unfold directive_d, directive_m, directive_Y.
    cbn [list_ascii_of_string].
    rewrite A1, A2, A4, B1, B2, C1, C2, D1, D2, E1, E2, F1, F2, G1, G2, H1, H2.
    cbn [andb].
    assert (Vd : 10 * (day / 10) + day mod 10 = day)
      by (symmetry; apply Z.div_mod; lia).
    assert (Vm : 10 * (month / 10) + month mod 10 = month)
      by (symmetry; apply Z.div_mod; lia).
    assert (Vy : 1000 * (year / 1000) + 100 * (year / 100 mod 10)
                 + 10 * (year / 10 mod 10) + year mod 10 = year).
    { pose proof (Z.div_mod year 10). pose proof (Z.div_mod (year / 10) 10).
      pose proof (Z.div_mod (year / 100) 10).
      assert (year / 100 = year / 10 / 10)
        by (rewrite Z.div_div by lia; reflexivity).
      assert (year / 1000 = year / 100 / 10)
        by (rewrite Z.div_div by lia; reflexivity).
      lia. }
    rewrite Vd, Vm, Vy.
    repeat (cbn [andb];
            match goal with
            | |- context [?a <=? ?b] => destruct (Z.leb_spec a b); [|lia]
            end).
    reflexivity. }
  split; [exact P|].
  cbn [to_datetime_cell].
  destruct (is_nat_string (strftime year month day)) eqn:N; [|exact P].
  apply is_nat_string_short in N. simpl in N. lia.
Qed.

(** The theorem applies to the 21st of June 2019. *)
Lemma strptime_reads_formatted_dates_witness :
  strptime (strftime 2019 6 21) = Some (Timestamp 2019 6 21) /\
  to_datetime_cell (DateStr (strftime 2019 6 21)) = Some (Timestamp 2019 6 21).
Proof.
  apply (strptime_reads_formatted_dates 2019 6 21); vm_compute;
    split; discriminate.
Defined.

(** ** Degrees *)

(** X20 (create_graph, with the degrees that analyze_graph_structure
    reads): in the built graph the in-degrees of the nodes add up to the
    number of edges, and so do the out-degrees. *)
Theorem degrees_add_up_to_edges (events : events_df) (rows : edges_df) :
  let G := create_graph events rows in
  list_sum (map (in_degree G) (nodes G)) = number_of_edges G /\
  list_sum (map (out_degree G) (nodes G)) = number_of_edges G.
Proof.
  intros G. split.
  - apply sum_in_degree;
      [apply create_graph_well_formed|apply nodes_NoDup].
  - apply sum_out_degree;
      [apply create_graph_well_formed|apply nodes_NoDup].
Qed.

(** ** Betweenness at the ends of the graph *)

(** X21 (nx.betweenness_centrality on the built graph): an event without
    outgoing edges (a dead end) and an event without incoming edges lie
    inside no shortest path, and their betweenness centrality is 0. *)
Theorem betweenness_of_end_nodes_is_zero
        (events : events_df) (rows : edges_df) (v : node) :
  let G := create_graph events rows in
  out_degree G v = 0%nat \/ in_degree G v = 0%nat ->
  forall b, In (v, b) (betweenness_centrality G) -> (b == 0)%Q.
Proof.
  intros G H b I.
  pose proof (keys_betweenness_centrality G (create_graph_well_formed events rows))
    as K.
  assert (E : lookup (betweenness_centrality G) v 0%Q = b).
  { apply lookup_In; [rewrite K; apply nodes_NoDup|exact I]. }
  clear I. subst b. unfold betweenness_centrality in *.
  set (raw := fold_left _ (nodes G) _) in *.
  assert (R : (lookup raw v 0 == 0)%Q).
  { unfold raw. rewrite sources_end by assumption. now rewrite lookup_const. }
  rewrite keys_rescale in K.
  unfold rescale. destruct (number_of_nodes G <=? 2)%nat; [exact R|].
  destruct (in_dec Z.eq_dec v (keys raw)) as [Hv|Hv].
  - apply in_map_iff in Hv. destruct Hv as ([v' q] & Ev & Hq). simpl in Ev.
    subst v'.
    assert (Nr : NoDup (keys raw)) by (rewrite K; apply nodes_NoDup).
    rewrite (lookup_In raw v q 0%Q Nr Hq) in R.
    set (scale := (1 / _)%Q).
    rewrite (lookup_In _ v (q * scale)%Q 0%Q).
    + rewrite R. ring.
    + unfold keys. rewrite map_map.
      erewrite map_ext; [exact Nr|]. now intros [x y].
    + apply in_map_iff. exists (v, q). split; [reflexivity|exact Hq].
  - unfold lookup.
    replace (dict_get Z.eqb _ v) with (@None Q); [reflexivity|].
    symmetry. apply dict_get_None. intros I. apply Hv.
    apply in_map_iff in I. destruct I as ([v' q] & Ev & Hq).
    simpl in Ev. subst v'.
    apply in_map_iff in Hq. destruct Hq as ([v2 q2] & E2 & Hq).
    simpl in E2. assert (v2 = v) by congruence. subst v2.
    apply in_map_iff. exists (v, q2). split; [reflexivity|exact Hq].
Qed.

(** The theorem applies to the last node of the chain 1 -> 2 -> 3. *)
Lemma betweenness_of_end_nodes_is_zero_witness :
  let G := create_graph [bare_event 1; bare_event 2; bare_event 3]
                        [bare_edge 1 2; bare_edge 2 3] in
  (out_degree G 3 = 0%nat \/ in_degree G 3 = 0%nat) /\
  (forall b, In (3, b) (betweenness_centrality G) -> (b == 0)%Q).
Proof.
  intros G. split; [left; reflexivity|].
  apply (betweenness_of_end_nodes_is_zero
           [bare_event 1; bare_event 2; bare_event 3]
           [bare_edge 1 2; bare_edge 2 3] 3).
  left. reflexivity.
Defined.

(** ** Strongly connected groups *)

(** X22 (nx.strongly_connected_components on the built graph): the
    groups partition the nodes: every node lies in exactly one group;
    no group is empty, and the group of a node holds exactly the nodes
    that a walk along the edges reaches from it and that reach it. *)
Theorem components_partition_the_nodes (events : events_df) (rows : edges_df) :
  let G := create_graph events rows in
  let components := strongly_connected_components G in
  Permutation (concat components) (nodes G) /\
  Forall (fun c => c <> []) components /\
  (forall c v w,
     In c components -> In v c ->
     (In w c <-> In w (nodes G) /\ connects G v w /\ connects G w v)).
Proof.
  intros G components.
  pose proof (create_graph_well_formed events rows) as wf.
  destruct (components_spec G wf (nodes_NoDup events rows)) as [P C].
  fold G in wf. fold components in P, C.
  repeat apply conj.
  - exact P.
  - apply Forall_forall. intros c Hc. destruct (C c Hc) as (v & Hv & ->).
    intros E.
    assert (I : In v (component G v))
      by (apply (In_component G wf); repeat split; [exact Hv|constructor..]).
    rewrite E in I. destruct I.
  - intros c v w Hc Hv. destruct (C c Hc) as (v0 & Hv0 & ->).
    apply (In_component G wf) in Hv. destruct Hv as (Nv & A & B).
    rewrite (In_component G wf).
    split; intros (Nw & A' & B'); repeat split;
      eauto using connects_trans.
Qed.

(** X23 (analyze_graph_structure, the strongly connected groups): the
    sizes of the groups add up to the number of nodes, so that there are
    at most as many groups as nodes; the size reported for the largest
    group is the size of a group, no group is larger, and it lies
    between 1 and the number of nodes. *)
Theorem largest_group_is_a_largest_group
        (events : events_df) (rows : edges_df) (s : run_state) :
  let G := create_graph events rows in
  let components := strongly_connected_components G in
  let lines := written (analyze_graph_structure G) s in
  In (Component_count (length components)) lines /\
  list_sum (map (@length node) components) = number_of_nodes G /\
  (length components <= number_of_nodes G)%nat /\
  (forall size,
     In (Largest_component size) lines ->
     (exists c, In c components /\ length c = size) /\
     Forall (fun c => (length c <= size)%nat) components /\
     (1 <= size <= number_of_nodes G)%nat).
Proof.
  intros G components lines.
  pose proof (create_graph_well_formed events rows) as wf.
  destruct (components_spec G wf (nodes_NoDup events rows)) as [P C].
  fold G in wf. fold components in P, C.
  assert (NE : Forall (fun k => 1 <= k)%nat (map (@length node) components)).
  { apply Forall_forall. intros k Hk. apply in_map_iff in Hk.
    destruct Hk as (c & <- & Hc). destruct (C c Hc) as (v & Hv & ->).
    assert (I : In v (component G v))
      by (apply (In_component G wf); repeat split; [exact Hv|constructor..]).
    destruct (component G v); [destruct I|simpl; lia]. }
  assert (Sum : list_sum (map (@length node) components) = number_of_nodes G).
  { rewrite <- length_concat_sum. apply (Permutation_length P). }
  unfold lines.
  rewrite (written_add_lines _ _ _ _ (analyze_graph_structure_run G s)).
  repeat apply conj.
  - apply In_Component_count_structure_lines.
  - exact Sum.
  - rewrite <- Sum, <- (length_map (@length node) components).
    now apply list_sum_ge_length.
  - intros size H. apply In_Largest_structure_lines in H.
    destruct H as (c & r & E & ->). fold components in E.
    destruct (max_by_spec (@length node) r c) as [M1 M2].
    rewrite <- E in M1, M2.
    assert (Hk : In (length (max_by (@length node) c r))
                    (map (@length node) components)) by now apply in_map.
    repeat apply conj.
    + now exists (max_by (@length node) c r).
    + apply Forall_forall. exact M2.
    + rewrite Forall_forall in NE. now apply NE.
    + rewrite <- Sum. now apply list_sum_member.
Qed.

(** ** Cycles, the acyclicity test and the longest chain *)

(** X24 (nx.is_directed_acyclic_graph and the topological sort behind
    nx.dag_longest_path, on the built graph): the acyclicity test holds
    exactly when no walk of one edge or more leads from a node back to
    it; the topological order of such a graph lists every node once, the
    source of every edge before its target. *)
Theorem acyclicity_test_is_exact (events : events_df) (rows : edges_df) :
  let G := create_graph events rows in
  (is_directed_acyclic_graph G = true <-> acyclic G) /\
  (forall order,
     topological_sort G = Topo_order order ->
     Permutation order (nodes G) /\ forward G order).
Proof.
  intros G.
  pose proof (create_graph_well_formed events rows) as wf.
  pose proof (nodes_NoDup events rows) as ND. fold G in wf, ND.
  split; [now apply is_directed_acyclic_graph_spec|].
  intros order H. pose proof (topological_sort_spec G wf ND) as S.
  rewrite H in S. tauto.
Qed.

(** X25 (nx.simple_cycles against nx.is_directed_acyclic_graph, on the
    built graph): every loop that the enumeration yields lies on a cycle
    of the graph, and the enumeration yields no loop exactly when the
    graph has no cycle, that is, exactly when the graph passes the
    acyclicity test. *)
Theorem loops_found_iff_cyclic (events : events_df) (rows : edges_df) :
  let G := create_graph events rows in
  (forall c, In c (simple_cycles G) -> exists s, on_cycle G s) /\
  (simple_cycles G = [] <-> acyclic G) /\
  (simple_cycles G = [] <-> is_directed_acyclic_graph G = true).
Proof.
  intros G.
  pose proof (create_graph_well_formed events rows) as wf.
  pose proof (nodes_NoDup events rows) as ND. fold G in wf, ND.
  split; [apply simple_cycles_sound|].
  split; [now apply simple_cycles_nil_iff|].
  rewrite (is_directed_acyclic_graph_spec G wf ND).
  now apply simple_cycles_nil_iff.
Qed.

(** X26 (analyze_graph_structure on the built graph): the structure
    section reports exactly one number of causal loops, and it reports a
    longest causal chain exactly when that number is 0 and the graph has
    a node. *)
Theorem chain_reported_iff_no_loop
        (events : events_df) (rows : edges_df) (s : run_state) :
  let G := create_graph events rows in
  let lines := written (analyze_graph_structure G) s in
  (forall k, In (Loop_count k) lines <-> k = length (simple_cycles G)) /\
  ((exists k, In (Longest_chain k) lines) <->
   In (Loop_count 0) lines /\ nodes G <> []).
Proof.
  intros G lines.
  pose proof (create_graph_well_formed events rows) as wf.
  pose proof (nodes_NoDup events rows) as ND. fold G in wf, ND.
  unfold lines.
  rewrite (written_add_lines _ _ _ _ (analyze_graph_structure_run G s)).
  split; [intros k; apply In_Loop_count_structure_lines|].
  rewrite In_Loop_count_structure_lines.
  assert (Z0 : 0%nat = length (simple_cycles G) <-> acyclic G).
  { rewrite <- (simple_cycles_nil_iff G wf ND).
    destruct (simple_cycles G); simpl; split; congruence. }
  rewrite Z0, <- (is_directed_acyclic_graph_spec G wf ND).
  pose proof (chain_lines_spec G) as C. split.
  - intros (k & H). apply structure_lines_chain in H; [|reflexivity].
    rewrite C in H.
    destruct (is_directed_acyclic_graph G); [|destruct H].
    split; [reflexivity|]. intros N.
    rewrite (dag_longest_path_nil G N) in H. destruct H.
  - intros [A N]. pose proof (dag_longest_path_not_nil G A N) as P.
    rewrite A in C. destruct (dag_longest_path G) as [|v p]; [congruence|].
    exists (length (v :: p)). apply In_chain_lines_structure.
    rewrite C. now left.
Qed.

(** X27 (nx.dag_longest_path, as analyze_graph_structure calls it on a
    built graph that passes the acyclicity test): the longest causal
    chain is a chain of nodes of the graph, each with an edge to the
    next, and no chain of the graph has more nodes. *)
Theorem longest_chain_is_a_longest_chain
        (events : events_df) (rows : edges_df) :
  let G := create_graph events rows in
  is_directed_acyclic_graph G = true ->
  nodes G <> [] ->
  let p := dag_longest_path G in
  linked G p /\
  (forall v, In v p -> In v (nodes G)) /\
  (forall q, linked G q -> (length q <= length p)%nat).
Proof.
  intros G A N.
  apply dag_longest_path_spec;
    [apply create_graph_well_formed|apply nodes_NoDup|exact A|exact N].
Qed.

(** The theorem applies to the chain 1 -> 2 -> 3 with the shortcut
    1 -> 3. *)
Lemma longest_chain_is_a_longest_chain_witness :
  let G := create_graph [bare_event 1; bare_event 2; bare_event 3]
                        [bare_edge 1 3; bare_edge 1 2; bare_edge 2 3] in
  let p := dag_longest_path G in
  p = [1; 2; 3] /\
  linked G p /\
  (forall v, In v p -> In v (nodes G)) /\
  (forall q, linked G q -> (length q <= length p)%nat).
Proof.
  intros G. split; [reflexivity|].
  apply (longest_chain_is_a_longest_chain
           [bare_event 1; bare_event 2; bare_event 3]
           [bare_edge 1 3; bare_edge 1 2; bare_edge 2 3]).
  - reflexivity.
  - discriminate.
Defined.

(** X28 (nx.simple_cycles on the built graph, the loops of the report):
    every loop that the enumeration yields is a cycle of the graph: it
    names at least one node, no node twice, only nodes of the graph, and
    every node has an edge to the next one and the last an edge to the
    first. *)
Theorem loops_are_cycles (events : events_df) (rows : edges_df) :
  let G := create_graph events rows in
  forall c, In c (simple_cycles G) ->
  c <> [] /\ NoDup c /\
  (forall v, In v c -> In v (nodes G)) /\
  linked G (c ++ [hd 0 c]).
Proof.
  intros G c H.
  pose proof (create_graph_well_formed events rows) as wf. fold G in wf.
  assert (S : c <> [] /\ NoDup c /\ linked G (c ++ [hd 0 c])).
  { unfold simple_cycles in H. apply in_app_or in H. destruct H as [H|H].
    - unfold self_loop_cycles in H. apply in_map_iff in H.
      destruct H as (v & <- & H). apply filter_In in H. destruct H as [_ H].
      apply has_edge_In in H. repeat split.
      + discriminate.
      + repeat constructor. intros [].
      + exact H.
    - apply (circuits_in_closed G (nodes G) c); [|exact H].
      apply nodes_NoDup. }
  destruct S as (NE & ND & L). repeat split; try assumption.
  intros v Hv. destruct c as [|a r]; [destruct Hv|].
  cbn [hd] in L.
  destruct r as [|b r'].
  - apply (linked_nodes G wf [] a a L). destruct Hv as [<-|[]]. now left.
  - apply (linked_nodes G wf (r' ++ [a]) a b L).
    change (a :: b :: r' ++ [a]) with ((a :: b :: r') ++ [a]).
    apply in_or_app. now left.
Qed.

(** The theorem applies to the loop of the cycle 1 -> 2 -> 3 -> 1. *)
Lemma loops_are_cycles_witness :
  let G := create_graph [bare_event 1; bare_event 2; bare_event 3]
                        [bare_edge 1 2; bare_edge 2 3; bare_edge 3 1] in
  In [1; 2; 3] (simple_cycles G) /\
  [1; 2; 3] <> [] /\ NoDup [1; 2; 3] /\
  (forall v, In v [1; 2; 3] -> In v (nodes G)) /\
  linked G ([1; 2; 3] ++ [hd 0 [1; 2; 3]]).
Proof.
  intros G.
  assert (H : In [1; 2; 3] (simple_cycles G)) by (now left).
  split; [exact H|].
  apply (loops_are_cycles [bare_event 1; bare_event 2; bare_event 3]
           [bare_edge 1 2; bare_edge 2 3; bare_edge 3 1] [1; 2; 3] H).
Defined.
